(** * lazy-cartesian-product: mixed-radix indexer and streaming sampler

    A shallow embedding of [lazy-cartesian-product.hpp] (version 1.6: the
    native build, without [USE_BOOST], and the build with it; the
    sampling of version 1.3 and the indexing of version 1.1) and the
    proofs of its properties.

    Integers are modelled as [Z] with the wrap-around of the C++ types
    written out: [unsigned long long] is 64 bits wide, [int] 32 bits,
    [double] is IEEE binary64, and the width of [unsigned long] (64 bits
    on LP64 systems, 32 bits on Windows) is a parameter of the development.
    A thrown exception is an [Err] result; so is undefined behaviour
    (a division by zero, a conversion or a subscript out of range). *)

From Stdlib Require Import ZArith Lia String Sorted.
From stdpp Require Import base list.

Local Open Scope Z_scope.

(** ** Failures *)

Inductive error : Type :=
| index_error                (* errors::index_error *)
| empty_list_error           (* errors::empty_list_error *)
| empty_answers_error        (* errors::empty_answers_error *)
| invalid_sample_size_error  (* errors::invalid_sample_size_error *)
| out_of_range               (* std::out_of_range, thrown by RandomIterator::next *)
| length_error               (* std::length_error, thrown by vector::reserve *)
| undefined_behaviour        (* no behaviour defined by the language *)
| no_more_draws.             (* the list standing for the random engine ran out *)

Inductive result (A : Type) : Type :=
| Ok (a : A)
| Err (e : error).

Arguments Ok {A} a.
Arguments Err {A} e.

Definition bind {A B : Type} (r : result A) (f : A -> result B) : result B :=
  match r with
  | Ok a => f a
  | Err e => Err e
  end.

Notation "'let*' x := r 'in' k" := (bind r (fun x => k))
  (at level 10, x name, r at level 200, k at level 200, only parsing).
Notation "'let*' ' p := r 'in' k" :=
  (bind r (fun x => match x with p => k end))
  (at level 10, p pattern, r at level 200, k at level 200, only parsing).

Fixpoint mapM {A B : Type} (f : A -> result B) (l : list A) : result (list B) :=
  match l with
  | [] => Ok []
  | a :: l' => let* b := f a in let* bs := mapM f l' in Ok (b :: bs)
  end.

(** ** Machine arithmetic *)

(** Reduction of a value into an unsigned type of [bits] bits. *)
Definition wrap (bits x : Z) : Z := x mod 2 ^ bits.

(** [unsigned long long]. *)
Definition ull (x : Z) : Z := wrap 64 x.

(** Conversion to [int]: the low 32 bits, read in two's complement. *)
Definition to_int (x : Z) : Z :=
  let y := wrap 32 x in
  if y <? 2 ^ 31 then y else y - 2 ^ 32.

(** Conversion of a non-negative integer to [double]: values below [2^53]
    are kept, larger ones are rounded to 53 significant bits, to nearest,
    ties to the even significand.  The result is the integer the double
    denotes. *)
Definition to_double (q : Z) : Z :=
  if q <? 2 ^ 53 then q
  else
    let e := Z.log2 q - 52 in
    let m := Z.shiftr q e in
    let rest := Z.land q (Z.ones e) in
    let half := 2 ^ (e - 1) in
    if rest <? half then Z.shiftl m e
    else if half <? rest then Z.shiftl (m + 1) e
    else if Z.even m then Z.shiftl m e
    else Z.shiftl (m + 1) e.

(** [std::floor] applied to an integer argument: [<cmath>] has no integer
    [floor], its overload for integer types converts the argument to
    [double]; the floor of a double that denotes an integer is itself. *)
Definition floor (q : Z) : Z := to_double q.

(** Conversion of a non-negative [double] back to [unsigned long long];
    it is undefined when the value does not fit. *)
Definition double_to_ull (d : Z) : result Z :=
  if d <? 2 ^ 64 then Ok d else Err undefined_behaviour.

(** [v[i]] on a [std::vector]: no bounds check. *)
Definition subscript {A : Type} (v : list A) (i : Z) : result A :=
  if i <? 0 then Err undefined_behaviour
  else match v !! Z.to_nat i with
       | Some x => Ok x
       | None => Err undefined_behaviour
       end.

(** [v.size()]. *)
Definition size {A : Type} (v : list A) : Z := Z.of_nat (length v).

(** ** The library *)

Record precomputed_stats : Type := mk_stats {
  divs : list Z;
  mods : list Z;
  max_size : Z
}.

Record RandomIterator : Type := mk_iter {
  n : Z;
  last_k : Z;
  num_left : Z
}.

(** ** Inputs used in the examples *)

Definition pizza : list (list string) :=
  [["Thin"; "Thick"]; ["Marinara"; "BBQ"]]%string.

Definition abc : list (list string) := [["a"; "b"; "c"]]%string.

Definition twice_a : list (list string) := [["a"; "a"]]%string.

Definition single_a : list (list string) := [["a"]]%string.

Definition a_and_empty : list (list string) := [["a"]; []]%string.

(** [len] domains of two symbols each. *)
Definition binary (len : nat) : list (list string) :=
  replicate len ["a"; "b"]%string.

(** Twelve domains whose sizes multiply to [2^64 - 16]. *)
Definition just_below_2_64 : list (list string) :=
  map (fun k => replicate k "a"%string)
      [16; 9; 25; 7; 11; 13; 31; 41; 61; 151; 331; 1321]%nat.

(** A reader of strings for the examples of the build with [USE_BOOST]:
    it reads the strings "2", "3" and "4". *)
Definition read_digit (s : string) : option Z :=
  if String.eqb s "2" then Some 2
  else if String.eqb s "3" then Some 3
  else if String.eqb s "4" then Some 4
  else None.

(** ** Proof steps *)

(** Conjunctions of closed equations, each settled by evaluation before
    the next is looked at. *)
Ltac split_eval :=
  lazymatch goal with
  | |- exists _, _ => eexists; split_eval
  | |- _ /\ _ => split; [split_eval | split_eval]
  | |- _ => vm_compute; reflexivity
  end.

(** Boolean comparisons of the hypotheses, as propositions. *)
Ltac bool_Z :=
  repeat match goal with
    | H : (_ <? _) = true |- _ => apply Z.ltb_lt in H
    | H : (_ <? _) = false |- _ => apply Z.ltb_ge in H
    | H : (_ <=? _) = true |- _ => apply Z.leb_le in H
    | H : (_ <=? _) = false |- _ => apply Z.leb_gt in H
    | H : (_ =? _) = true |- _ => apply Z.eqb_eq in H
    | H : (_ =? _) = false |- _ => apply Z.eqb_neq in H
    end.

(** ** The build with [USE_BOOST]

    With [USE_BOOST] the integers are [uint1024_t], Boost.Multiprecision's
    unchecked 1024-bit unsigned integer: its arithmetic wraps modulo
    [2^1024], a division by zero throws [std::overflow_error], and its
    constructor from a string throws [std::runtime_error] when it cannot
    read the string.  The quotient of [boost_entry_at] does not go through
    [floor]. *)

Module Boost.

Inductive failure : Type :=
| common (e : error)   (* a failure that the native build has as well *)
| overflow_error       (* std::overflow_error: division by zero *)
| runtime_error.       (* std::runtime_error: unreadable string *)

Inductive outcome (A : Type) : Type :=
| Done (a : A)
| Fail (f : failure).

Arguments Done {A} a.
Arguments Fail {A} f.

Definition bind {A B : Type} (r : outcome A) (f : A -> outcome B)
  : outcome B :=
  match r with
  | Done a => f a
  | Fail e => Fail e
  end.

Notation "'let+' x := r 'in' k" := (bind r (fun x => k))
  (at level 10, x name, r at level 200, k at level 200, only parsing).
Notation "'let+' ' p := r 'in' k" :=
  (bind r (fun x => match x with p => k end))
  (at level 10, p pattern, r at level 200, k at level 200, only parsing).

(** A result of the native build, read in this one. *)
Definition of_native {A : Type} (r : result A) : outcome A :=
  match r with
  | Ok a => Done a
  | Err e => Fail (common e)
  end.

(** Reduction into [uint1024_t]. *)
Definition u1024 (x : Z) : Z := wrap 1024 x.

Section boost.

(** The value that the string constructor of [uint1024_t] gives the
    number, when it does not throw: it is a parameter, the grammar of the
    strings that Boost.Multiprecision reads is not part of this header. *)
Variable read : string -> option Z.

(** [uint1024_t parsed(s)]; [u1024] keeps the value within the type. *)
Definition parse (s : string) : outcome Z :=
  match read s with
  | Some v => Done (u1024 v)
  | None => Fail runtime_error
  end.

(** *** RandomIterator *)

Definition RandomIterator_new (amount max : Z) : RandomIterator :=
  {| n := max; last_k := 0; num_left := amount |}.

Definition has_next (it : RandomIterator) : bool := 0 <? num_left it.

Definition range_size (it : RandomIterator) : Z :=
  u1024 (n it - last_k it) / num_left it.

(** [o] is a value [rnd(gen)] may return in state [it], for
    [uniform_int_distribution<uint1024_t> rnd(0, range_size)]. *)
Definition valid_draw (it : RandomIterator) (o : Z) : bool :=
  (0 <=? o) && (o <=? range_size it).

(** [next], with the value [o] drawn by [rnd(gen)]. *)
Definition next (o : Z) (it : RandomIterator)
  : outcome (Z * RandomIterator) :=
  if 0 <? num_left it then
    let r := u1024 (o + last_k it + 1) in
    Done (r, {| n := n it; last_k := r;
                num_left := u1024 (num_left it - 1) |})
  else Fail (common out_of_range).

Fixpoint nexts (os : list Z) (it : RandomIterator)
  : outcome (list Z * RandomIterator) :=
  match os with
  | [] => Done ([], it)
  | o :: os' =>
      let+ '(r, it1) := next o it in
      let+ '(rs, it2) := nexts os' it1 in
      Done (r :: rs, it2)
  end.

Fixpoint valid_draws (os : list Z) (it : RandomIterator) : bool :=
  match os with
  | [] => true
  | o :: os' =>
      valid_draw it o &&
      match next o it with
      | Done (_, it1) => valid_draws os' it1
      | Fail _ => false
      end
  end.

(** *** lazy_cartesian_product *)

Definition boost_compute_max_size (combinations : list (list string)) : Z :=
  fold_left (fun size_ it => u1024 (size_ * size it)) combinations 1.

(** The loop of [boost_precompute]; [k] is [i + 1]. *)
Fixpoint boost_precompute_loop (k : nat) (combinations : list (list string))
    (factor : Z) (ps : precomputed_stats) : precomputed_stats :=
  match k with
  | O => ps
  | S i =>
      let items := size (nth i combinations []) in
      let ps' := {| divs := <[i := factor]> (divs ps);
                    mods := <[i := items]> (mods ps);
                    max_size := max_size ps |} in
      boost_precompute_loop i combinations (u1024 (factor * items)) ps'
  end.

Definition boost_precompute (combinations : list (list string))
  : outcome precomputed_stats :=
  if size combinations =? 0 then Fail (common empty_answers_error)
  else
    let size_ := length combinations in
    let ps := {| divs := replicate size_ 0;
                 mods := replicate size_ 0;
                 max_size := 0 |} in
    let ps := boost_precompute_loop size_ combinations 1 ps in
    Done {| divs := divs ps; mods := mods ps;
            max_size := boost_compute_max_size combinations |}.

Definition boost_sample_size_valid (sample max_size_ : Z) : bool :=
  sample <=? max_size_.

(** The index expression of the private [boost_entry_at]:
    [(unsigned long long)((uint1024_t)(n / ps.divs[i]) % ps.mods[i])]. *)
Definition digit (n_ div md : Z) : outcome Z :=
  if div =? 0 then Fail overflow_error
  else if md =? 0 then Fail overflow_error
  else Done (ull ((n_ / div) mod md)).

Definition cell (combinations : list (list string)) (n_ : Z)
    (ps : precomputed_stats) (i : nat) : outcome string :=
  let+ div := of_native (subscript (divs ps) (Z.of_nat i)) in
  let+ md := of_native (subscript (mods ps) (Z.of_nat i)) in
  let+ d := digit n_ div md in
  let+ answers := of_native (subscript combinations (Z.of_nat i)) in
  of_native (subscript answers d).

(** The private [boost_entry_at(combinations, n, ps)]. *)
Definition boost_entry_at_ps (combinations : list (list string)) (n_ : Z)
    (ps : precomputed_stats) : outcome (list string) :=
  let length_ := length combinations in
  fold_left
    (fun acc i =>
       let+ combination := acc in
       let+ s := cell combinations n_ ps i in
       Done (<[i := s]> combination))
    (seq 0 length_)
    (Done (replicate length_ EmptyString)).

(** The public [boost_entry_at(combinations, index)]. *)
Definition boost_entry_at (combinations : list (list string))
    (index : string) : outcome (list string) :=
  let+ pc := boost_precompute combinations in
  let+ parsed_index := parse index in
  if (parsed_index <? 0) || (max_size pc <=? parsed_index)
  then Fail (common index_error)
  else boost_entry_at_ps combinations parsed_index pc.

Fixpoint sample_loop (os : list Z) (combinations : list (list string))
    (ps : precomputed_stats) (iter : RandomIterator)
    (subset : list (list string)) : outcome (list (list string)) :=
  if has_next iter then
    match os with
    | [] => Fail (common no_more_draws)
    | o :: os' =>
        let+ '(r, iter') := next o iter in
        let+ c := boost_entry_at_ps combinations r ps in
        sample_loop os' combinations ps iter' (subset ++ [c])
    end
  else Done subset.

(** [for (uint1024_t i = 0; i < parsed_sample_size; ++i)]. *)
Definition full_loop (combinations : list (list string))
    (ps : precomputed_stats) (sample_size : Z)
  : outcome (list (list string)) :=
  fold_left
    (fun acc i =>
       let+ subset := acc in
       let+ c := boost_entry_at_ps combinations i ps in
       Done (subset ++ [c]))
    (map Z.of_nat (seq 0 (Z.to_nat sample_size)))
    (Done []).

(** [boost_generate_samples(combinations, sample_size)]. *)
Definition boost_generate_samples (combinations : list (list string))
    (sample_size : string) (os : list Z) : outcome (list (list string)) :=
  let+ parsed_sample_size := parse sample_size in
  if size combinations =? 0 then Fail (common empty_list_error)
  else
    let+ ps := boost_precompute combinations in
    if negb (parsed_sample_size =? max_size ps) then
      sample_loop os combinations ps
        (RandomIterator_new parsed_sample_size (max_size ps)) []
    else full_loop combinations ps parsed_sample_size.

End boost.

(** What [next] preserves while the upper bound plus one is representable:
    the values still to draw fit between [last_k] and [n + 1]. *)
Definition sampler_inv (it : RandomIterator) : Prop :=
  0 <= last_k it /\ 0 <= num_left it
  /\ last_k it + num_left it <= n it + 1 /\ n it < 2 ^ 1024 - 1.

End Boost.

Section lazycp.

(** Width of [unsigned long], the type of [factor] in [precompute]. *)
Variable ulong_bits : Z.

Definition ulong (x : Z) : Z := wrap ulong_bits x.

(** *** RandomIterator *)

Definition RandomIterator_new (amount max : Z) : RandomIterator :=
  {| n := max; last_k := 0; num_left := amount |}.

Definition has_next (it : RandomIterator) : bool := 0 <? num_left it.

Definition range_size (it : RandomIterator) : Z :=
  ull (n it - last_k it) / num_left it.

(** [uniform_int_distribution<> rnd(0, range_size)]: without a template
    argument the distribution is over [int], so its upper bound is
    [range_size] converted to [int]. *)
Definition rnd_upper (it : RandomIterator) : Z := to_int (range_size it).

(** [o] is a value [rnd(gen)] may return in state [it]. *)
Definition valid_draw (it : RandomIterator) (o : Z) : bool :=
  (0 <=? o) && (o <=? rnd_upper it).

(** [next], with the value [o] drawn by [rnd(gen)]. A distribution whose
    upper bound is below its lower bound has no defined behaviour. *)
Definition next (o : Z) (it : RandomIterator) : result (Z * RandomIterator) :=
  if 0 <? num_left it then
    if rnd_upper it <? 0 then Err undefined_behaviour
    else
      let r := ull (o + last_k it + 1) in
      Ok (r, {| n := n it; last_k := r; num_left := ull (num_left it - 1) |})
  else Err out_of_range.

(** Successive calls of [next], one draw per call. *)
Fixpoint nexts (os : list Z) (it : RandomIterator)
  : result (list Z * RandomIterator) :=
  match os with
  | [] => Ok ([], it)
  | o :: os' =>
      let* '(r, it1) := next o it in
      let* '(rs, it2) := nexts os' it1 in
      Ok (r :: rs, it2)
  end.

(** Every draw of [os] is one the distribution may return at its call. *)
Fixpoint valid_draws (os : list Z) (it : RandomIterator) : bool :=
  match os with
  | [] => true
  | o :: os' =>
      valid_draw it o &&
      match next o it with
      | Ok (_, it1) => valid_draws os' it1
      | Err _ => false
      end
  end.

(** *** lazy_cartesian_product *)

Definition compute_max_size (combinations : list (list string)) : Z :=
  fold_left (fun size_ it => ull (size_ * size it)) combinations 1.

(** The loop of [precompute], [for (i = size - 1; i >= 0; --i)]; [k] is
    [i + 1]. *)
Fixpoint precompute_loop (k : nat) (combinations : list (list string))
    (factor : Z) (ps : precomputed_stats) : precomputed_stats :=
  match k with
  | O => ps
  | S i =>
      let items := size (nth i combinations []) in
      let ps' := {| divs := <[i := ull factor]> (divs ps);
                    mods := <[i := items]> (mods ps);
                    max_size := max_size ps |} in
      precompute_loop i combinations (ulong (ull (factor * items))) ps'
  end.

Definition precompute (combinations : list (list string))
  : result precomputed_stats :=
  if size combinations =? 0 then Err empty_answers_error
  else
    let size_ := length combinations in
    let ps := {| divs := replicate size_ 0;
                 mods := replicate size_ 0;
                 max_size := 0 |} in
    let ps := precompute_loop size_ combinations 1 ps in
    Ok {| divs := divs ps; mods := mods ps;
          max_size := compute_max_size combinations |}.

Definition sample_size_valid (sample max_size_ : Z) : bool :=
  sample <=? ulong max_size_.

(** The index expression of the private [entry_at]:
    [(unsigned long long)(floor(n / ps.divs[i])) % ps.mods[i]]. *)
Definition digit (n_ div md : Z) : result Z :=
  if div =? 0 then Err undefined_behaviour
  else
    let* d := double_to_ull (floor (n_ / div)) in
    if md =? 0 then Err undefined_behaviour else Ok (d mod md).

(** [combinations[i][digit]], the right-hand side of the loop body. *)
Definition cell (combinations : list (list string)) (n_ : Z)
    (ps : precomputed_stats) (i : nat) : result string :=
  let* div := subscript (divs ps) (Z.of_nat i) in
  let* md := subscript (mods ps) (Z.of_nat i) in
  let* d := digit n_ div md in
  let* answers := subscript combinations (Z.of_nat i) in
  subscript answers d.

(** The private [entry_at(combinations, n, ps)]. *)
Definition entry_at_ps (combinations : list (list string)) (n_ : Z)
    (ps : precomputed_stats) : result (list string) :=
  let length_ := length combinations in
  fold_left
    (fun acc i =>
       let* combination := acc in
       let* s := cell combinations n_ ps i in
       Ok (<[i := s]> combination))
    (seq 0 length_)
    (Ok (replicate length_ EmptyString)).

(** The public [entry_at(combinations, index)]. [index] is unsigned in the
    source, where the test [index < 0] never holds; the model keeps it and
    so also answers for a negative [Z]. *)
Definition entry_at (combinations : list (list string)) (index : Z)
  : result (list string) :=
  let* pc := precompute combinations in
  if (index <? 0) || (max_size pc <=? index) then Err index_error
  else entry_at_ps combinations index pc.

(** The sampling loop of [generate_samples],
    [while (iter.has_next()) subset.push_back(entry_at(.., iter.next(), ps))].
    The draws of the random engine are the list [os], consumed in order. *)
Fixpoint sample_loop (os : list Z) (combinations : list (list string))
    (ps : precomputed_stats) (iter : RandomIterator)
    (subset : list (list string)) : result (list (list string)) :=
  if has_next iter then
    match os with
    | [] => Err no_more_draws
    | o :: os' =>
        let* '(r, iter') := next o iter in
        let* c := entry_at_ps combinations r ps in
        sample_loop os' combinations ps iter' (subset ++ [c])
    end
  else Ok subset.

(** The indices [0, 1, .., k - 1] of a counting loop. *)
Definition indices (k : Z) : list Z := map Z.of_nat (seq 0 (Z.to_nat k)).

(** The other loop of [generate_samples],
    [for (i = 0; i < sample_size; ++i) subset.push_back(entry_at(.., i, ps))]. *)
Definition full_loop (combinations : list (list string))
    (ps : precomputed_stats) (sample_size : Z) : result (list (list string)) :=
  fold_left
    (fun acc i =>
       let* subset := acc in
       let* c := entry_at_ps combinations i ps in
       Ok (subset ++ [c]))
    (indices sample_size)
    (Ok []).

(** [max_size()] of a [vector<vector<string>>]: the library's bound on
    the number of elements, [PTRDIFF_MAX / sizeof(vector<string>)] with
    libstdc++ and 64-bit pointers, a vector being three pointers. *)
Definition vector_max_size : Z := (2 ^ 63 - 1) / 24.

(** [subset.reserve(n)] on the empty [subset]: it throws
    [std::length_error] when [n] exceeds [max_size()]; otherwise it sets
    the capacity, which changes no value.  The storage of the model has
    no other bound: no allocation fails. *)
Definition reserve (n_ : Z) : result unit :=
  if vector_max_size <? n_ then Err length_error else Ok tt.

(** [generate_samples(combinations, sample_size)]. *)
Definition generate_samples (combinations : list (list string))
    (sample_size : Z) (os : list Z) : result (list (list string)) :=
  if size combinations =? 0 then Err empty_list_error
  else
    let* ps := precompute combinations in
    if negb (sample_size =? max_size ps) then
      let* _ := reserve sample_size in
      sample_loop os combinations ps
        (RandomIterator_new sample_size (max_size ps)) []
    else
      let* _ := reserve sample_size in
      full_loop combinations ps sample_size.

(** *** Version 1.3: the sample drawn as a set of indices

    Version 1.3 of the header has the same [precompute], [entry_at] and
    [compute_max_size]; in place of [RandomIterator] its
    [generate_samples] calls [generate_random_indices]. *)

(** [candidates.insert(x)] on a [std::set<unsigned long long>], held as
    the list of its elements in the order of iteration, the increasing
    one. *)
Fixpoint set_insert (x : Z) (candidates : list Z) : list Z :=
  match candidates with
  | [] => [x]
  | y :: rest =>
      if x <? y then x :: candidates
      else if x =? y then candidates
      else y :: set_insert x rest
  end.

(** [o] is a value that [dist(generator)] may return, for
    [uniform_int_distribution<unsigned long long> dist{0, max_size - 1}]. *)
Definition valid_index_draw (max_size_ o : Z) : bool :=
  (0 <=? o) && (o <=? ull (max_size_ - 1)).

(** [while (candidates.size() < sample_size)
       candidates.insert(dist(generator));] *)
Fixpoint candidates_loop (os : list Z) (sample_size : Z)
    (candidates : list Z) : result (list Z) :=
  if size candidates <? sample_size then
    match os with
    | [] => Err no_more_draws
    | o :: os' => candidates_loop os' sample_size (set_insert o candidates)
    end
  else Ok candidates.

(** [generate_random_indices(sample_size, max_size)] of version 1.3. *)
Definition generate_random_indices (sample_size max_size_ : Z)
    (os : list Z) : result (list Z) :=
  if max_size_ <? sample_size then Err invalid_sample_size_error
  else candidates_loop os sample_size [].

(** [generate_samples(combinations, sample_size)] of version 1.3. *)
Definition generate_samples_1_3 (combinations : list (list string))
    (sample_size : Z) (os : list Z) : result (list (list string)) :=
  if size combinations =? 0 then Err empty_list_error
  else
    let* ps := precompute combinations in
    if negb (sample_size =? max_size ps) then
      let* sampled_indicies :=
        generate_random_indices sample_size (max_size ps) os in
      fold_left
        (fun acc i =>
           let* subset := acc in
           let* c := entry_at_ps combinations i ps in
           Ok (subset ++ [c]))
        sampled_indicies
        (Ok [])
    else full_loop combinations ps sample_size.

(** *** Version 1.1: the indices are [long]

    In version 1.1 the indices, the place values and the size of the
    space are [long], an integer as wide as [unsigned long]; the public
    [entry_at] tests [index > pc.max_size], and the quotient of the
    private one is an integer division.  As above, the counters of the
    loops are taken to hold the number of domains. *)

(** Conversion to [long]: the low bits, read in two's complement. *)
Definition to_long (x : Z) : Z :=
  let y := ulong x in
  if y <? 2 ^ (ulong_bits - 1) then y else y - 2 ^ ulong_bits.

(** The result of an operation on two [long]s; it is undefined when the
    value does not fit. *)
Definition in_long (x : Z) : result Z :=
  if (- 2 ^ (ulong_bits - 1) <=? x) && (x <? 2 ^ (ulong_bits - 1))
  then Ok x
  else Err undefined_behaviour.

(** [size *= it->size()] with [long size]: the product is taken in
    the unsigned type of [size()] and converted back to [long]. *)
Definition compute_max_size_1_1 (combinations : list (list string)) : Z :=
  fold_left (fun size_ it => to_long (size_ * size it)) combinations 1.

(** The loop of [precompute]; [k] is [i + 1]. [factor *= items]
    multiplies two [long]s. *)
Fixpoint precompute_loop_1_1 (k : nat) (combinations : list (list string))
    (factor : Z) (ps : precomputed_stats) : result precomputed_stats :=
  match k with
  | O => Ok ps
  | S i =>
      let items := to_long (size (nth i combinations [])) in
      let ps' := {| divs := <[i := factor]> (divs ps);
                    mods := <[i := items]> (mods ps);
                    max_size := max_size ps |} in
      let* factor' := in_long (factor * items) in
      precompute_loop_1_1 i combinations factor' ps'
  end.

Definition precompute_1_1 (combinations : list (list string))
  : result precomputed_stats :=
  if size combinations =? 0 then Err empty_answers_error
  else
    let size_ := length combinations in
    let ps := {| divs := replicate size_ 0;
                 mods := replicate size_ 0;
                 max_size := 0 |} in
    let* ps := precompute_loop_1_1 size_ combinations 1 ps in
    Ok {| divs := divs ps; mods := mods ps;
          max_size := compute_max_size_1_1 combinations |}.

(** The index expression of the private [entry_at] of version 1.1,
    [(n / ps.divs[i]) % ps.mods[i]] on [long]s: the division truncates,
    the remainder has the sign of the dividend, and [a % b] is undefined
    where [a / b] is. *)
Definition digit_1_1 (n_ div md : Z) : result Z :=
  if div =? 0 then Err undefined_behaviour
  else
    let* q := in_long (Z.quot n_ div) in
    if md =? 0 then Err undefined_behaviour
    else
      let* _ := in_long (Z.quot q md) in
      Ok (Z.rem q md).

Definition cell_1_1 (combinations : list (list string)) (n_ : Z)
    (ps : precomputed_stats) (i : nat) : result string :=
  let* div := subscript (divs ps) (Z.of_nat i) in
  let* md := subscript (mods ps) (Z.of_nat i) in
  let* d := digit_1_1 n_ div md in
  let* answers := subscript combinations (Z.of_nat i) in
  subscript answers d.

(** The private [entry_at(combinations, n, ps)] of version 1.1. *)
Definition entry_at_ps_1_1 (combinations : list (list string)) (n_ : Z)
    (ps : precomputed_stats) : result (list string) :=
  let length_ := length combinations in
  fold_left
    (fun acc i =>
       let* combination := acc in
       let* s := cell_1_1 combinations n_ ps i in
       Ok (<[i := s]> combination))
    (seq 0 length_)
    (Ok (replicate length_ EmptyString)).

(** The public [entry_at(combinations, index)] of version 1.1. *)
Definition entry_at_1_1 (combinations : list (list string)) (index : Z)
  : result (list string) :=
  let* pc := precompute_1_1 combinations in
  if (index <? 0) || (max_size pc <? index) then Err index_error
  else entry_at_ps_1_1 combinations index pc.

(** ** The mixed-radix reading of an index, after the specification *)

(** Product of the sizes of the domains. *)
Definition prod_sizes (cs : list (list string)) : Z :=
  foldr (fun c p => size c * p) 1 cs.

(** Weight of position [i]: the product of the sizes to its right. *)
Definition place_value (cs : list (list string)) (i : nat) : Z :=
  prod_sizes (drop (S i) cs).

(** The combination of index [idx]: at each position the symbol whose
    rank is [(idx / placeValue) % modulus]. *)
Fixpoint decode_spec (cs : list (list string)) (idx : Z) : list string :=
  match cs with
  | [] => []
  | c :: cs' =>
      nth (Z.to_nat ((idx / prod_sizes cs') mod size c)) c EmptyString
        :: decode_spec cs' idx
  end.

(** [comb] takes one symbol from each domain, in order. *)
Definition is_combination (cs : list (list string)) (comb : list string)
  : Prop :=
  Forall2 (fun s c => In s c) comb cs.

(** No domain is empty. *)
Definition domains_nonempty (cs : list (list string)) : Prop :=
  Forall (fun c => c <> []) cs.

(** No domain lists a symbol twice. *)
Definition domains_distinct (cs : list (list string)) : Prop :=
  Forall (fun c => NoDup c) cs.

(** The size of every domain is a [size_t]: at most [2^64] symbols. *)
Definition addressable (cs : list (list string)) : Prop :=
  Forall (fun c => size c <= 2 ^ 64) cs.

(** What the integer types of [precompute] can hold. *)
Definition native_limit : Z := Z.min (2 ^ 64) (2 ^ ulong_bits).

(** The product of the sizes of every non-empty suffix of the domain list
    is below [native_limit]: no multiplication of [precompute] wraps. *)
Fixpoint fits (cs : list (list string)) : Prop :=
  match cs with
  | [] => True
  | c :: cs' => size c * prod_sizes cs' < native_limit /\ fits cs'
  end.

(** A space whose indices are exact in [double] and whose size fits the
    accumulator of [precompute]. *)
Definition small_space (cs : list (list string)) : Prop :=
  prod_sizes cs <= 2 ^ 53 /\ prod_sizes cs < 2 ^ ulong_bits.

(** What [next] preserves while the upper bound plus one is representable:
    the values still to draw fit between [last_k] and [n + 1]. *)
Definition sampler_inv (it : RandomIterator) : Prop :=
  0 <= last_k it /\ 0 <= num_left it
  /\ last_k it + num_left it <= n it + 1 /\ n it < 2 ^ 64 - 1.

(** Strictly increasing sequences. *)
Definition increasing (l : list Z) : Prop := Sorted Z.lt l.

(** ** Machine arithmetic where nothing wraps or rounds *)

Lemma wrap_small (bits x : Z) : 0 <= x < 2 ^ bits -> wrap bits x = x.
Proof. intros H. unfold wrap. apply Z.mod_small. exact H. Qed.

Lemma ull_small (x : Z) : 0 <= x < 2 ^ 64 -> ull x = x.
Proof. apply wrap_small. Qed.

Lemma ull_mul_idemp (a b : Z) : ull (ull a * b) = ull (a * b).
Proof. unfold ull, wrap. apply Z.mul_mod_idemp_l. lia. Qed.

Lemma ulong_small (x : Z) : 0 <= x < native_limit -> ulong x = x.
Proof. unfold native_limit. intros H. apply wrap_small. lia. Qed.

Lemma native_limit_ull : native_limit <= 2 ^ 64.
Proof. unfold native_limit. lia. Qed.

Lemma to_double_exact (q : Z) : q < 2 ^ 53 -> to_double q = q.
Proof.
  intros H. unfold to_double.
  destruct (q <? 2 ^ 53) eqn:E; [reflexivity | lia].
Qed.

Lemma to_int_le (x : Z) : 0 <= x -> 0 <= to_int x -> to_int x <= x.
Proof.
  unfold to_int, wrap. intros Hx.
  pose proof (Z.mod_pos_bound x (2 ^ 32) ltac:(lia)) as Hb.
  pose proof (Z.mod_le x (2 ^ 32) Hx ltac:(lia)) as Hle.
  destruct (x mod 2 ^ 32 <? 2 ^ 31) eqn:E; lia.
Qed.

Lemma to_int_small (x : Z) : 0 <= x < 2 ^ 31 -> to_int x = x.
Proof.
  intros H. unfold to_int. rewrite wrap_small by lia.
  destruct (x <? 2 ^ 31) eqn:E; [reflexivity | lia].
Qed.

(** ** The result monad *)

Lemma fold_left_Err {A B : Type} (step : result A -> B -> result A)
    (Hstep : forall e b, step (Err e) b = Err e) (l : list B) (e : error) :
  fold_left step l (Err e) = Err e.
Proof. induction l as [|b l IH]; simpl; [reflexivity|]. now rewrite Hstep. Qed.

Lemma mapM_Ok_map {A B : Type} (f : A -> result B) (g : A -> B) (l : list A) :
  (forall a, In a l -> f a = Ok (g a)) -> mapM f l = Ok (map g l).
Proof.
  induction l as [|a l IH]; intros H; simpl; [reflexivity|].
  rewrite (H a) by (left; reflexivity). simpl.
  rewrite IH by (intros b Hb; apply H; right; exact Hb). reflexivity.
Qed.

(** A loop that pushes [f i] for each index builds [mapM f]. *)
Lemma fold_push_mapM {A B : Type} (f : A -> result B) (l : list A)
    (acc : list B) :
  fold_left (fun r i => let* subset := r in
                        let* c := f i in Ok (subset ++ [c])) l (Ok acc)
  = let* bs := mapM f l in Ok (acc ++ bs).
Proof.
  revert acc. induction l as [|a l IH]; intros acc; simpl.
  - now rewrite app_nil_r.
  - destruct (f a) as [b|e]; simpl.
    + rewrite IH. destruct (mapM f l) as [bs|e]; simpl; [|reflexivity].
      now rewrite <- app_assoc.
    + apply fold_left_Err. reflexivity.
Qed.

(** ** [precompute] and [compute_max_size] *)

Lemma size_nonneg {A : Type} (v : list A) : 0 <= size v.
Proof. unfold size. lia. Qed.

Lemma size_pos {A : Type} (v : list A) : v <> [] -> 0 < size v.
Proof. unfold size. destruct v; [congruence | simpl; lia]. Qed.

Lemma prod_sizes_nonneg (cs : list (list string)) : 0 <= prod_sizes cs.
Proof.
  induction cs as [|c cs IH]; simpl; [lia|].
  pose proof (size_nonneg c). nia.
Qed.

Lemma prod_sizes_pos (cs : list (list string)) :
  domains_nonempty cs -> 0 < prod_sizes cs.
Proof.
  induction 1 as [|c cs Hc _ IH]; simpl; [lia|].
  pose proof (size_pos c Hc). nia.
Qed.

Lemma compute_max_size_wrap (cs : list (list string)) :
  compute_max_size cs = ull (prod_sizes cs).
Proof.
  unfold compute_max_size. change 1 with (ull 1) at 1.
  replace (prod_sizes cs) with (1 * prod_sizes cs) by lia.
  generalize 1 as a. induction cs as [|c cs IH]; intros a; simpl.
  - f_equal. lia.
  - rewrite ull_mul_idemp, IH. f_equal. lia.
Qed.

Lemma fits_drop (cs : list (list string)) (k : nat) :
  fits cs -> fits (drop k cs).
Proof.
  revert k. induction cs as [|c cs IH]; intros [|k] H; simpl; try exact H.
  apply IH. apply H.
Qed.

Lemma fits_suffix (cs : list (list string)) (k : nat) (c : list string) :
  fits cs -> cs !! k = Some c ->
  size c * prod_sizes (drop (S k) cs) < native_limit.
Proof.
  intros H Hk. apply (fits_drop _ k) in H.
  rewrite (drop_S _ _ _ Hk) in H. apply H.
Qed.

Lemma fits_suffix_ull (cs : list (list string)) (k : nat) :
  fits cs -> prod_sizes (drop k cs) < 2 ^ 64.
Proof.
  intros H. destruct (cs !! k) as [c|] eqn:Hk.
  - rewrite (drop_S _ _ _ Hk). simpl.
    pose proof (fits_suffix _ _ _ H Hk). pose proof native_limit_ull. lia.
  - rewrite drop_ge by (apply lookup_ge_None; exact Hk). simpl. lia.
Qed.

(** With all domains non-empty a suffix has at most the full product. *)
Lemma fits_of_total (cs : list (list string)) :
  domains_nonempty cs -> prod_sizes cs < native_limit -> fits cs.
Proof.
  induction 1 as [|c cs Hc Hcs IH]; simpl; intros H; [exact I|].
  split; [exact H|]. apply IH.
  pose proof (size_pos c Hc). pose proof (prod_sizes_pos cs Hcs). nia.
Qed.

Lemma drop_insert_here {A : Type} (l : list A) (i : nat) (x : A) :
  (i < length l)%nat -> drop i (<[i := x]> l) = x :: drop (S i) l.
Proof.
  intros H. rewrite insert_take_drop by exact H.
  rewrite drop_app_length'; [reflexivity|].
  rewrite length_take. lia.
Qed.

Lemma precompute_loop_mods (k : nat) (cs : list (list string)) (f : Z)
    (ps : precomputed_stats) :
  (k <= length cs)%nat -> length (mods ps) = length cs ->
  mods (precompute_loop k cs f ps) = map size (take k cs) ++ drop k (mods ps).
Proof.
  revert f ps. induction k as [|i IH]; intros f ps Hk Hlen; simpl.
  - reflexivity.
  - destruct (lookup_lt_is_Some_2 cs i ltac:(lia)) as [c Hc].
    rewrite IH by (simpl; rewrite ?length_insert; lia). simpl.
    rewrite drop_insert_here by lia.
    rewrite (take_S_r _ _ _ Hc), map_app, <- app_assoc. simpl.
    now rewrite (nth_lookup_Some _ _ _ _ Hc).
Qed.

Lemma precompute_loop_divs (k : nat) (cs : list (list string)) (f : Z)
    (ps : precomputed_stats) :
  (k <= length cs)%nat -> length (divs ps) = length cs -> fits cs ->
  f = prod_sizes (drop k cs) ->
  divs (precompute_loop k cs f ps)
  = map (place_value cs) (seq 0 k) ++ drop k (divs ps).
Proof.
  revert f ps. induction k as [|i IH]; intros f ps Hk Hlen Hfit Hf.
  - reflexivity.
  - destruct (lookup_lt_is_Some_2 cs i ltac:(lia)) as [c Hc].
    pose proof (fits_suffix _ _ _ Hfit Hc) as Hlim.
    pose proof (fits_suffix_ull cs (S i) Hfit) as Hull.
    pose proof (prod_sizes_nonneg (drop (S i) cs)) as Hnn.
    pose proof (size_nonneg c) as Hsz.
    pose proof native_limit_ull as Hnl.
    subst f. cbn [precompute_loop]. rewrite (nth_lookup_Some _ _ _ _ Hc).
    rewrite IH; cbn [divs mods]; rewrite ?length_insert;
      try lia; try exact Hfit.
    + rewrite drop_insert_here by lia.
      rewrite seq_S, map_app, <- app_assoc. cbn [map app Nat.add].
      unfold place_value at 2. rewrite ull_small by lia. reflexivity.
    + rewrite (drop_S _ _ _ Hc). cbn [prod_sizes foldr].
      fold (prod_sizes (drop (S i) cs)).
      rewrite ull_small by nia. rewrite ulong_small by nia. lia.
Qed.

(** The three fields of the space, when no multiplication wraps. *)
Lemma precompute_fits (cs : list (list string)) :
  cs <> [] -> fits cs ->
  precompute cs
  = Ok {| divs := map (place_value cs) (seq 0 (length cs));
          mods := map size cs;
          max_size := ull (prod_sizes cs) |}.
Proof.
  intros Hne Hfit. unfold precompute.
  destruct (size cs =? 0) eqn:E.
  { apply Z.eqb_eq in E. pose proof (size_pos cs Hne). lia. }
  rewrite precompute_loop_divs, precompute_loop_mods; simpl;
    rewrite ?length_replicate; try lia; try exact Hfit.
  - rewrite !drop_ge by (rewrite length_replicate; lia).
    rewrite firstn_all, !app_nil_r, compute_max_size_wrap. reflexivity.
  - rewrite drop_all. reflexivity.
Qed.

(** ** The private [entry_at] *)

Lemma entry_at_ps_loop (cs : list (list string)) (n_ : Z)
    (ps : precomputed_stats) (len a : nat) (l : list string) :
  length l = (a + len)%nat ->
  fold_left
    (fun acc i => let* combination := acc in
                  let* s := cell cs n_ ps i in Ok (<[i := s]> combination))
    (seq a len) (Ok l)
  = let* ss := mapM (cell cs n_ ps) (seq a len) in Ok (take a l ++ ss).
Proof.
  revert a l. induction len as [|len IH]; intros a l Hl; simpl.
  - rewrite app_nil_r, take_ge by lia. reflexivity.
  - destruct (cell cs n_ ps a) as [s|e]; simpl.
    + rewrite IH by (rewrite length_insert; lia).
      destruct (mapM (cell cs n_ ps) (seq (S a) len)) as [ss|e]; simpl;
        [|reflexivity].
      rewrite (take_S_r _ _ s) by (apply list_lookup_insert_eq; lia).
      rewrite take_insert_ge by lia. now rewrite <- app_assoc.
    + apply fold_left_Err. reflexivity.
Qed.

(** The loop fills position [i] with [cell i]. *)
Lemma entry_at_ps_mapM (cs : list (list string)) (n_ : Z)
    (ps : precomputed_stats) :
  entry_at_ps cs n_ ps = mapM (cell cs n_ ps) (seq 0 (length cs)).
Proof.
  unfold entry_at_ps.
  rewrite entry_at_ps_loop by (rewrite length_replicate; lia).
  destruct (mapM _ _); reflexivity.
Qed.

Lemma subscript_lookup {A : Type} (v : list A) (i : nat) (x : A) :
  v !! i = Some x -> subscript v (Z.of_nat i) = Ok x.
Proof.
  intros H. unfold subscript.
  destruct (Z.of_nat i <? 0) eqn:E; [bool_Z; lia|].
  now rewrite Nat2Z.id, H.
Qed.

Lemma subscript_nth (v : list string) (d : Z) :
  0 <= d < size v -> subscript v d = Ok (nth (Z.to_nat d) v EmptyString).
Proof.
  unfold size. intros H. unfold subscript.
  destruct (d <? 0) eqn:E; [bool_Z; lia|].
  destruct (lookup_lt_is_Some_2 v (Z.to_nat d) ltac:(lia)) as [x Hx].
  now rewrite Hx, (nth_lookup_Some _ _ _ _ Hx).
Qed.

(** The digit is exact while the quotient is below [2^53]. *)
Lemma digit_exact (n_ div md : Z) :
  0 <= n_ < 2 ^ 53 -> 0 < div -> 0 < md ->
  digit n_ div md = Ok ((n_ / div) mod md).
Proof.
  intros Hn Hdiv Hmd. unfold digit, floor, double_to_ull.
  assert (0 <= n_ / div <= n_) as Hq.
  { split; [apply Z.div_pos; lia|]. apply Z.div_le_upper_bound; nia. }
  destruct (div =? 0) eqn:E; [bool_Z; lia|].
  rewrite to_double_exact by lia.
  destruct (n_ / div <? 2 ^ 64) eqn:E2; [|bool_Z; lia]. simpl.
  destruct (md =? 0) eqn:E3; [bool_Z; lia|]. reflexivity.
Qed.

Lemma cell_exact (cs : list (list string)) (n_ : Z) (ps : precomputed_stats)
    (i : nat) (c : list string) :
  divs ps = map (place_value cs) (seq 0 (length cs)) ->
  mods ps = map size cs ->
  cs !! i = Some c -> c <> [] -> 0 < place_value cs i -> 0 <= n_ < 2 ^ 53 ->
  cell cs n_ ps i
  = Ok (nth (Z.to_nat ((n_ / place_value cs i) mod size c)) c EmptyString).
Proof.
  intros Hd Hm Hc Hne Hpv Hn. unfold cell.
  pose proof (lookup_lt_Some _ _ _ Hc) as Hi.
  rewrite (subscript_lookup (divs ps) i (place_value cs i)).
  2:{ rewrite Hd, list_lookup_fmap, lookup_seq_lt by lia. reflexivity. }
  rewrite (subscript_lookup (mods ps) i (size c)).
  2:{ rewrite Hm, list_lookup_fmap, Hc. reflexivity. }
  simpl. pose proof (size_pos c Hne) as Hsz.
  rewrite digit_exact by (try lia; assumption). simpl.
  rewrite (subscript_lookup cs i c Hc). simpl.
  apply subscript_nth. apply Z.mod_pos_bound. lia.
Qed.

Lemma decode_spec_seq (pre cs : list (list string)) (n_ : Z) :
  map (fun i => let c := nth i (pre ++ cs) [] in
                nth (Z.to_nat ((n_ / place_value (pre ++ cs) i) mod size c))
                    c EmptyString)
      (seq (length pre) (length cs))
  = decode_spec cs n_.
Proof.
  revert pre. induction cs as [|c cs IH]; intros pre; simpl; [reflexivity|].
  f_equal.
  - unfold place_value. rewrite app_nth2, Nat.sub_diag by lia. simpl.
    replace (pre ++ c :: cs) with ((pre ++ [c]) ++ cs)
      by (now rewrite <- app_assoc).
    rewrite drop_app_length'; [reflexivity|]. rewrite length_app. simpl. lia.
  - specialize (IH (pre ++ [c])).
    rewrite <- app_assoc, length_app in IH. simpl in IH.
    rewrite Nat.add_1_r in IH. exact IH.
Qed.

(** On a space that fits, the code computes the mixed-radix digits of any
    index below [2^53]. *)
Lemma entry_at_ps_exact (cs : list (list string)) (n_ : Z)
    (ps : precomputed_stats) :
  cs <> [] -> domains_nonempty cs -> fits cs -> precompute cs = Ok ps ->
  0 <= n_ < 2 ^ 53 ->
  entry_at_ps cs n_ ps = Ok (decode_spec cs n_).
Proof.
  intros Hne Hdom Hfit Hps Hn.
  rewrite precompute_fits in Hps by assumption.
  injection Hps as <-.
  rewrite entry_at_ps_mapM, <- (decode_spec_seq [] cs n_).
  apply mapM_Ok_map. intros i Hi. apply in_seq in Hi. simpl in Hi. simpl.
  destruct (lookup_lt_is_Some_2 cs i ltac:(lia)) as [c Hc].
  rewrite (nth_lookup_Some _ _ _ _ Hc).
  apply cell_exact; try reflexivity; try assumption.
  - exact (Forall_lookup_1 _ _ _ _ Hdom Hc).
  - unfold place_value. apply prod_sizes_pos.
    unfold domains_nonempty. apply Forall_drop. exact Hdom.
Qed.

(** ** Where the decoding is defined, if not exact *)

(** Rounding to [double] moves an integer by at most half a unit in the
    last place, at most 1024 below [2^64]. *)
Lemma to_double_defined (q : Z) :
  0 <= q < 2 ^ 64 - 1024 -> 0 <= to_double q < 2 ^ 64.
Proof.
  intros Hq. unfold to_double.
  destruct (q <? 2 ^ 53) eqn:E; bool_Z; [lia|].
  assert (53 <= Z.log2 q < 64) as HL.
  { split.
    - change 53 with (Z.log2 (2 ^ 53)). apply Z.log2_le_mono. lia.
    - apply Z.log2_lt_pow2; lia. }
  set (e := Z.log2 q - 52). assert (1 <= e <= 11) as He by lia.
  rewrite !Z.shiftl_mul_pow2, Z.shiftr_div_pow2, Z.land_ones by lia.
  assert (2 ^ e = 2 * 2 ^ (e - 1)) as Hpow.
  { rewrite <- Z.pow_succ_r by lia. f_equal. lia. }
  assert (0 < 2 ^ (e - 1) <= 2 ^ 10) as Hhalf.
  { split; [apply Z.pow_pos_nonneg; lia | apply Z.pow_le_mono_r; lia]. }
  pose proof (Z.div_mod q (2 ^ e) ltac:(lia)) as Hdm.
  pose proof (Z.mod_pos_bound q (2 ^ e) ltac:(lia)) as Hr.
  pose proof (Z.div_pos q (2 ^ e) ltac:(lia) ltac:(lia)) as Hm.
  revert Hpow Hhalf Hdm Hr Hm.
  generalize (q / 2 ^ e) as m, (q mod 2 ^ e) as r.
  generalize (2 ^ e) as p, (2 ^ (e - 1)) as h.
  intros p h m r -> Hh Hdm Hr Hm.
  destruct (r <? h) eqn:E1;
    [|destruct (h <? r) eqn:E2; [|destruct (Z.even m)]]; bool_Z; nia.
Qed.

Lemma digit_defined (n_ div md : Z) :
  0 <= n_ < 2 ^ 64 - 1024 -> 0 < div -> 0 < md ->
  exists d, digit n_ div md = Ok d /\ 0 <= d < md.
Proof.
  intros Hn Hdiv Hmd. unfold digit, floor, double_to_ull.
  assert (0 <= n_ / div <= n_) as Hq.
  { split; [apply Z.div_pos; lia|]. apply Z.div_le_upper_bound; nia. }
  pose proof (to_double_defined (n_ / div) ltac:(lia)) as Hd.
  destruct (div =? 0) eqn:E; [bool_Z; lia|].
  destruct (to_double (n_ / div) <? 2 ^ 64) eqn:E2; [|bool_Z; lia]. simpl.
  destruct (md =? 0) eqn:E3; [bool_Z; lia|].
  eexists. split; [reflexivity|]. apply Z.mod_pos_bound. lia.
Qed.

Lemma mapM_defined {A B : Type} (f : A -> result B) (P : A -> B -> Prop)
    (l : list A) :
  (forall a, In a l -> exists b, f a = Ok b /\ P a b) ->
  exists bs, mapM f l = Ok bs /\ Forall2 P l bs.
Proof.
  induction l as [|a l IH]; intros H; simpl.
  - exists []. split; [reflexivity | constructor].
  - destruct (H a ltac:(left; reflexivity)) as (b & Hb & HP).
    destruct IH as (bs & Hbs & Hall); [intros x Hx; apply H; right; exact Hx|].
    exists (b :: bs). rewrite Hb, Hbs. split; [reflexivity|].
    constructor; assumption.
Qed.

(** On a space that fits, the private [entry_at] returns a combination
    for every index below [2^64 - 1024]. *)
Lemma entry_at_ps_defined (cs : list (list string)) (n_ : Z)
    (ps : precomputed_stats) :
  cs <> [] -> domains_nonempty cs -> fits cs -> precompute cs = Ok ps ->
  0 <= n_ < 2 ^ 64 - 1024 ->
  (forall i c, cs !! i = Some c ->
     exists dv md d,
       divs ps !! i = Some dv /\ mods ps !! i = Some md
       /\ digit n_ dv md = Ok d /\ 0 <= d < size c)
  /\ exists comb, entry_at_ps cs n_ ps = Ok comb /\ is_combination cs comb.
Proof.
  intros Hne Hdom Hfit Hps Hn.
  rewrite precompute_fits in Hps by assumption. injection Hps as <-.
  cbn [divs mods].
  assert (forall i c, cs !! i = Some c ->
            exists d, digit n_ (place_value cs i) (size c) = Ok d
                      /\ 0 <= d < size c) as Hdig.
  { intros i c Hc. apply digit_defined; [exact Hn| |].
    - unfold place_value. apply prod_sizes_pos.
      unfold domains_nonempty. apply Forall_drop. exact Hdom.
    - apply size_pos. exact (Forall_lookup_1 _ _ _ _ Hdom Hc). }
  assert (forall i c, cs !! i = Some c ->
            map (place_value cs) (seq 0 (length cs)) !! i
            = Some (place_value cs i)
            /\ map size cs !! i = Some (size c)) as Hlook.
  { intros i c Hc. pose proof (lookup_lt_Some _ _ _ Hc) as Hi.
    rewrite !list_lookup_fmap, lookup_seq_lt, Hc by lia. split; reflexivity. }
  split.
  - intros i c Hc. destruct (Hdig i c Hc) as (d & Hd & Hdr).
    destruct (Hlook i c Hc) as [Hdv Hmd].
    exists (place_value cs i), (size c), d. repeat split; assumption || lia.
  - rewrite entry_at_ps_mapM.
    destruct (mapM_defined
                (cell cs n_ {| divs := map (place_value cs) (seq 0 (length cs));
                               mods := map size cs;
                               max_size := ull (prod_sizes cs) |})
                (fun i s => exists c, cs !! i = Some c /\ In s c)
                (seq 0 (length cs))) as (comb & Hcomb & Hall).
    { intros i Hi. apply in_seq in Hi.
      destruct (lookup_lt_is_Some_2 cs i ltac:(lia)) as [c Hc].
      destruct (Hdig i c Hc) as (d & Hd & Hdr).
      destruct (Hlook i c Hc) as [Hdv Hmd].
      exists (nth (Z.to_nat d) c EmptyString). split.
      - unfold cell. cbn [divs mods].
        rewrite (subscript_lookup _ i _ Hdv), (subscript_lookup _ i _ Hmd).
        cbn [bind]. rewrite Hd. cbn [bind].
        rewrite (subscript_lookup cs i c Hc). cbn [bind].
        apply subscript_nth. exact Hdr.
      - exists c. split; [exact Hc|]. apply nth_In. unfold size in Hdr. lia. }
    exists comb. split; [exact Hcomb|].
    unfold is_combination.
    apply Forall2_same_length_lookup in Hall as [Hlen Hall].
    rewrite length_seq in Hlen.
    apply Forall2_same_length_lookup. split; [lia|].
    intros i s c Hs Hc.
    destruct (Hall i i s) as (c' & Hc' & Hin); [|exact Hs|].
    + apply lookup_seq_lt. apply lookup_lt_Some in Hc. exact Hc.
    + congruence.
Qed.

(** ** Mixed-radix numerals *)

Lemma radix_head (x m p : Z) :
  0 < m -> 0 < p -> ((x mod (m * p)) / p) mod m = (x / p) mod m.
Proof.
  intros Hm Hp. rewrite (Z.mul_comm m p), Z.rem_mul_r by lia.
  rewrite Z.add_comm, (Z.mul_comm p), Z.div_add_l by lia.
  rewrite (Z.div_small (x mod p) p) by (apply Z.mod_pos_bound; lia).
  rewrite Z.add_0_r. apply Z.mod_mod. lia.
Qed.

Lemma radix_tail (x m p : Z) :
  0 < m -> 0 < p -> (x mod (m * p)) mod p = x mod p.
Proof.
  intros Hm Hp. rewrite (Z.mul_comm m p), Z.rem_mul_r by lia.
  rewrite (Z.mul_comm p), Z.mod_add by lia. apply Z.mod_mod. lia.
Qed.

(** The digits of an index only depend on it modulo the size of the space. *)
Lemma decode_spec_mod (cs : list (list string)) (idx : Z) :
  domains_nonempty cs ->
  decode_spec cs (idx mod prod_sizes cs) = decode_spec cs idx.
Proof.
  intros H. revert idx.
  induction H as [|c cs Hc Hcs IH]; intros idx; simpl; [reflexivity|].
  pose proof (size_pos c Hc) as Hm.
  pose proof (prod_sizes_pos cs Hcs) as Hp.
  fold (prod_sizes cs). f_equal.
  - now rewrite radix_head.
  - rewrite <- (IH (idx mod _)), radix_tail by lia. apply IH.
Qed.

Lemma digit_lt_length (x : Z) (c : list string) :
  c <> [] -> (Z.to_nat (x mod size c) < length c)%nat.
Proof.
  intros Hc. pose proof (size_pos c Hc) as Hm.
  pose proof (Z.mod_pos_bound x (size c) Hm). unfold size in *. lia.
Qed.

Lemma decode_spec_is_combination (cs : list (list string)) (idx : Z) :
  domains_nonempty cs -> is_combination cs (decode_spec cs idx).
Proof.
  unfold is_combination.
  induction 1 as [|c cs Hc Hcs IH]; simpl; constructor; [|exact IH].
  apply nth_In, digit_lt_length, Hc.
Qed.

Lemma NoDup_nth_inj (c : list string) (a b : nat) :
  NoDup c -> (a < length c)%nat -> (b < length c)%nat ->
  nth a c EmptyString = nth b c EmptyString -> a = b.
Proof.
  intros Hnd Ha Hb H.
  destruct (lookup_lt_is_Some_2 c a Ha) as [x Hx].
  destruct (lookup_lt_is_Some_2 c b Hb) as [y Hy].
  rewrite (nth_lookup_Some _ _ _ _ Hx), (nth_lookup_Some _ _ _ _ Hy) in H.
  subst y. exact (NoDup_lookup _ _ _ _ Hnd Hx Hy).
Qed.

(** Two indices of the space with the same symbols are equal, when no
    domain repeats a symbol. *)
Lemma decode_spec_inj (cs : list (list string)) (i j : Z) :
  domains_nonempty cs -> domains_distinct cs ->
  0 <= i < prod_sizes cs -> 0 <= j < prod_sizes cs ->
  decode_spec cs i = decode_spec cs j -> i = j.
Proof.
  intros Hne. revert i j.
  induction Hne as [|c cs Hc Hcs IH]; intros i j Hnd Hi Hj Heq; simpl in *.
  { lia. }
  fold (prod_sizes cs) in *.
  pose proof (size_pos c Hc) as Hm.
  pose proof (prod_sizes_pos cs Hcs) as Hp.
  apply Forall_cons in Hnd as [Hndc Hnd].
  injection Heq as Hhd Htl.
  assert (i / prod_sizes cs = j / prod_sizes cs) as Hq.
  { apply (NoDup_nth_inj c _ _ Hndc) in Hhd;
      try (apply digit_lt_length, Hc).
    assert (0 <= i / prod_sizes cs < size c) as Hqi
      by (split; [apply Z.div_pos | apply Z.div_lt_upper_bound]; lia).
    assert (0 <= j / prod_sizes cs < size c) as Hqj
      by (split; [apply Z.div_pos | apply Z.div_lt_upper_bound]; lia).
    rewrite !Z.mod_small in Hhd by assumption. lia. }
  assert (i mod prod_sizes cs = j mod prod_sizes cs) as Hr.
  { rewrite <- (decode_spec_mod cs i), <- (decode_spec_mod cs j) in Htl
      by exact Hcs.
    apply IH in Htl; try assumption; apply Z.mod_pos_bound; lia. }
  rewrite (Z.div_mod i (prod_sizes cs)), (Z.div_mod j (prod_sizes cs)) by lia.
  now rewrite Hq, Hr.
Qed.

(** Every combination is the reading of an index of the space. *)
Lemma decode_spec_surj (cs : list (list string)) (comb : list string) :
  domains_nonempty cs -> is_combination cs comb ->
  exists idx, 0 <= idx < prod_sizes cs /\ decode_spec cs idx = comb.
Proof.
  intros Hne Hcomb. revert Hne. unfold is_combination in Hcomb.
  induction Hcomb as [|s c comb cs Hs Hcomb IH]; intros Hne; simpl.
  { exists 0. split; [lia | reflexivity]. }
  apply Forall_cons in Hne as [Hc Hcs].
  destruct (IH Hcs) as (r & Hr & Hdec).
  destruct (In_nth c s EmptyString Hs) as (a & Ha & Hnth).
  fold (prod_sizes cs).
  pose proof (prod_sizes_pos cs Hcs) as Hp.
  exists (Z.of_nat a * prod_sizes cs + r). unfold size. split; [nia|].
  f_equal.
  - rewrite Z.div_add_l, (Z.div_small r) by lia.
    rewrite Z.add_0_r, Z.mod_small, Nat2Z.id by lia. exact Hnth.
  - rewrite <- decode_spec_mod by exact Hcs.
    rewrite Z.add_comm, Z.mod_add, Z.mod_small by lia. exact Hdec.
Qed.

(** ** Space construction and the public [entry_at] *)

Lemma small_space_fits (cs : list (list string)) :
  domains_nonempty cs -> small_space cs -> fits cs.
Proof.
  intros Hdom [H53 Hul]. apply fits_of_total; [exact Hdom|].
  unfold native_limit. lia.
Qed.

Lemma precompute_nonempty (cs : list (list string)) :
  cs <> [] ->
  exists ps, precompute cs = Ok ps /\ max_size ps = compute_max_size cs
             /\ mods ps = map size cs.
Proof.
  intros Hne. unfold precompute.
  destruct (size cs =? 0) eqn:E.
  { bool_Z. pose proof (size_pos cs Hne). lia. }
  eexists. split; [reflexivity|]. split; [reflexivity|]. simpl.
  rewrite precompute_loop_mods by (simpl; rewrite ?length_replicate; lia).
  rewrite drop_ge by (simpl; rewrite length_replicate; lia).
  now rewrite firstn_all, app_nil_r.
Qed.

Lemma prod_sizes_empty_domain (cs : list (list string)) :
  In [] cs -> prod_sizes cs = 0.
Proof.
  induction cs as [|c cs IH]; simpl; intros H; [destruct H|].
  destruct H as [-> | H]; [reflexivity|].
  fold (prod_sizes cs). rewrite IH by exact H. lia.
Qed.

Lemma cell_Err (cs : list (list string)) (n_ : Z) (ps : precomputed_stats)
    (i : nat) (e : error) :
  cell cs n_ ps i = Err e -> e = undefined_behaviour.
Proof.
  unfold cell, digit, double_to_ull, subscript, bind. intros H.
  repeat case_match; congruence.
Qed.

Lemma mapM_Err {A B : Type} (f : A -> result B) (l : list A) (e : error) :
  mapM f l = Err e -> exists a, In a l /\ f a = Err e.
Proof.
  induction l as [|a l IH]; simpl; [discriminate|].
  destruct (f a) as [b|e'] eqn:Ha; simpl.
  - destruct (mapM f l) as [bs|e'']; simpl; [discriminate|].
    intros [= ->]. destruct (IH eq_refl) as (x & Hx & Hfx).
    exists x. split; [right; exact Hx | exact Hfx].
  - intros [= ->]. exists a. split; [left; reflexivity | exact Ha].
Qed.

(** The private [entry_at] throws nothing: its only failure is undefined
    behaviour. *)
Lemma entry_at_ps_Err (cs : list (list string)) (n_ : Z)
    (ps : precomputed_stats) (e : error) :
  entry_at_ps cs n_ ps = Err e -> e = undefined_behaviour.
Proof.
  rewrite entry_at_ps_mapM. intros H.
  apply mapM_Err in H as (i & _ & Hi). exact (cell_Err _ _ _ _ _ Hi).
Qed.

(** ** Properties of the indexer *)

(** C2. For every non-empty domain list in which the product of the sizes
    of each non-empty suffix stays below the native limit (no multiplication
    of [precompute] wraps), [precompute] yields [mods[i]] equal to the size
    of domain [i], [divs[i]] equal to the product of the sizes of the
    domains at positions greater than [i] (so the last one is 1), and a
    [max_size] equal to the product of all sizes, which is also
    [divs[0] * mods[0]]. *)
Theorem precompute_place_values (cs : list (list string)) :
  cs <> [] -> fits cs ->
  exists ps,
    precompute cs = Ok ps
    /\ mods ps = map size cs
    /\ (forall i, (i < length cs)%nat ->
               divs ps !! i = Some (prod_sizes (drop (S i) cs)))
    /\ divs ps !! (length cs - 1)%nat = Some 1
    /\ max_size ps = prod_sizes cs
    /\ compute_max_size cs = prod_sizes cs
    /\ exists d0 m0, divs ps !! 0%nat = Some d0 /\ mods ps !! 0%nat = Some m0
                     /\ max_size ps = d0 * m0.
Proof.
  intros Hne Hfit.
  assert (ull (prod_sizes cs) = prod_sizes cs) as Hull.
  { apply ull_small. split; [apply prod_sizes_nonneg|].
    apply (fits_suffix_ull cs 0 Hfit). }
  assert (forall i, (i < length cs)%nat ->
            map (place_value cs) (seq 0 (length cs)) !! i
            = Some (prod_sizes (drop (S i) cs))) as Hdiv.
  { intros i Hi. rewrite list_lookup_fmap, lookup_seq_lt by lia. reflexivity. }
  destruct cs as [|c cs]; [congruence|].
  eexists. split; [apply precompute_fits; assumption|]. cbn [divs mods max_size].
  repeat split.
  - exact Hdiv.
  - rewrite Hdiv by (simpl; lia).
    rewrite drop_ge by (simpl; lia). reflexivity.
  - exact Hull.
  - now rewrite compute_max_size_wrap.
  - exists (prod_sizes cs), (size c). rewrite Hdiv by (simpl; lia).
    rewrite Hull. simpl. repeat split. fold (prod_sizes cs). lia.
Qed.

(** C8. [precompute] fails exactly when the domain list has no entry, and
    then with [empty_answers_error] ([compute_max_size] returns 1); on a
    non-empty list it always produces a space, also when some domain is
    empty: that domain gets modulus 0, the size of the space is 0 and
    every later [entry_at] fails with [index_error]. *)
Theorem precompute_failure (cs : list (list string)) :
  (cs = [] ->
   precompute cs = Err empty_answers_error /\ compute_max_size cs = 1)
  /\ (cs <> [] ->
      exists ps, precompute cs = Ok ps
                 /\ mods ps = map size cs
                 /\ (In [] cs ->
                     max_size ps = 0
                     /\ forall index, entry_at cs index = Err index_error)).
Proof.
  split.
  - intros ->. split; reflexivity.
  - intros Hne. destruct (precompute_nonempty cs Hne) as (ps & Hps & Hmax & Hm).
    exists ps. split; [exact Hps|]. split; [exact Hm|]. intros Hin.
    assert (max_size ps = 0) as H0.
    { rewrite Hmax, compute_max_size_wrap, prod_sizes_empty_domain by exact Hin.
      reflexivity. }
    split; [exact H0|]. intros index. unfold entry_at. rewrite Hps. simpl.
    rewrite H0. destruct (index <? 0) eqn:E1; [reflexivity|].
    destruct (0 <=? index) eqn:E2; [reflexivity|]. bool_Z. lia.
Qed.

(** C9. On a non-empty domain list the public [entry_at] fails with
    [index_error] exactly when the index is negative or at least
    [max_size], whatever the digit computation would do; when moreover no
    domain is empty and the product of the sizes fits the native integers
    and is at most [2^64 - 1024], [max_size] is that product and the
    indices [0] and [max_size - 1] both decode. *)
Theorem entry_at_range (cs : list (list string)) :
  cs <> [] ->
  (forall index,
      entry_at cs index = Err index_error
      <-> (index < 0 \/ compute_max_size cs <= index))
  /\ (domains_nonempty cs -> prod_sizes cs < native_limit ->
      prod_sizes cs <= 2 ^ 64 - 1024 ->
      compute_max_size cs = prod_sizes cs
      /\ (exists comb, entry_at cs 0 = Ok comb)
      /\ (exists comb, entry_at cs (prod_sizes cs - 1) = Ok comb)).
Proof.
  intros Hne. destruct (precompute_nonempty cs Hne) as (ps & Hps & Hmax & _).
  split.
  - intros index. unfold entry_at. rewrite Hps. simpl. rewrite Hmax.
    destruct (index <? 0) eqn:E1; simpl.
    { bool_Z. split; [intros _; left; lia | reflexivity]. }
    destruct (compute_max_size cs <=? index) eqn:E2; simpl.
    { bool_Z. split; [intros _; right; lia | reflexivity]. }
    bool_Z. split; [|lia].
    intros H. apply entry_at_ps_Err in H. discriminate.
  - intros Hdom Hlim Hmaxp.
    pose proof (fits_of_total cs Hdom Hlim) as Hfit.
    pose proof (prod_sizes_pos cs Hdom) as Hpos.
    assert (compute_max_size cs = prod_sizes cs) as Hsz.
    { rewrite compute_max_size_wrap. apply ull_small. lia. }
    split; [exact Hsz|].
    assert (forall index, 0 <= index < prod_sizes cs ->
              exists comb, entry_at cs index = Ok comb) as Hok.
    { intros index Hi. unfold entry_at. rewrite Hps. simpl. rewrite Hmax, Hsz.
      destruct (index <? 0) eqn:E1; [bool_Z; lia|].
      destruct (prod_sizes cs <=? index) eqn:E2; [bool_Z; lia|]. simpl.
      destruct (entry_at_ps_defined cs index ps Hne Hdom Hfit Hps ltac:(lia))
        as (_ & comb & Hcomb & _).
      exists comb. exact Hcomb. }
    split; apply Hok; lia.
Qed.

(** C1. For every non-empty list of non-empty domains, none of which lists
    a symbol twice, whose space is small (at most [2^53] combinations,
    fitting [unsigned long]), decoding restricted to the indices of
    [[0, max_size)] is a bijection onto the Cartesian product: every such
    index decodes to a combination, two distinct ones never decode to the
    same, and each combination is the decoding of exactly one of them. *)
Theorem entry_at_bijection (cs : list (list string)) :
  cs <> [] -> domains_nonempty cs -> domains_distinct cs -> small_space cs ->
  exists ps,
    precompute cs = Ok ps
    /\ max_size ps = prod_sizes cs
    /\ (forall i, 0 <= i < max_size ps ->
          exists comb, entry_at_ps cs i ps = Ok comb /\ is_combination cs comb)
    /\ (forall i j, 0 <= i < max_size ps -> 0 <= j < max_size ps ->
          entry_at_ps cs i ps = entry_at_ps cs j ps -> i = j)
    /\ (forall comb, is_combination cs comb ->
          exists i, 0 <= i < max_size ps
                    /\ entry_at_ps cs i ps = Ok comb
                    /\ forall j, 0 <= j < max_size ps ->
                                 entry_at_ps cs j ps = Ok comb -> j = i).
Proof.
  intros Hne Hdom Hnd Hsmall.
  pose proof (small_space_fits cs Hdom Hsmall) as Hfit.
  destruct Hsmall as [H53 _].
  destruct (precompute_nonempty cs Hne) as (ps & Hps & Hmax & _).
  assert (max_size ps = prod_sizes cs) as Hsz.
  { rewrite Hmax, compute_max_size_wrap. apply ull_small.
    pose proof (prod_sizes_nonneg cs). lia. }
  assert (forall i, 0 <= i < max_size ps ->
            entry_at_ps cs i ps = Ok (decode_spec cs i)) as Hdec.
  { intros i Hi. apply entry_at_ps_exact; try assumption. lia. }
  assert (forall i j, 0 <= i < max_size ps -> 0 <= j < max_size ps ->
            entry_at_ps cs i ps = entry_at_ps cs j ps -> i = j) as Hinj.
  { intros i j Hi Hj. rewrite !Hdec by assumption. intros [= Heq].
    apply (decode_spec_inj cs); try assumption; lia. }
  exists ps. split; [exact Hps|]. split; [exact Hsz|]. split; [|split].
  - intros i Hi. exists (decode_spec cs i). split; [apply Hdec, Hi|].
    apply decode_spec_is_combination, Hdom.
  - exact Hinj.
  - intros comb Hcomb.
    destruct (decode_spec_surj cs comb Hdom Hcomb) as (i & Hi & Heq).
    rewrite <- Hsz in Hi. exists i. split; [exact Hi|].
    split; [rewrite Hdec, Heq by exact Hi; reflexivity|].
    intros j Hj Hjc. apply Hinj; try assumption.
    rewrite Hjc, Hdec, Heq by exact Hi. reflexivity.
Qed.

(** C10. For every non-empty list of non-empty domains whose space fits
    the native integers, and for every index [n_] below [2^64 - 1024]
    (also one beyond [max_size]), the private [entry_at] is defined: each
    digit [(n_ / divs[i]) % mods[i]] is below the size of domain [i] and a
    combination is returned; for [n_] below [2^53], decoding [n_] gives
    the combination of [n_ mod max_size]. *)
Theorem entry_at_ps_periodic (cs : list (list string)) (n_ : Z) :
  cs <> [] -> domains_nonempty cs -> prod_sizes cs < native_limit ->
  0 <= n_ < 2 ^ 64 - 1024 ->
  exists ps,
    precompute cs = Ok ps
    /\ max_size ps = prod_sizes cs
    /\ (forall i c, cs !! i = Some c ->
          exists dv md d,
            divs ps !! i = Some dv /\ mods ps !! i = Some md
            /\ digit n_ dv md = Ok d /\ 0 <= d < size c)
    /\ (exists comb, entry_at_ps cs n_ ps = Ok comb /\ is_combination cs comb)
    /\ (n_ < 2 ^ 53 ->
        entry_at_ps cs (n_ mod max_size ps) ps = entry_at_ps cs n_ ps).
Proof.
  intros Hne Hdom Hlim Hn.
  pose proof (fits_of_total cs Hdom Hlim) as Hfit.
  pose proof (prod_sizes_pos cs Hdom) as Hpos.
  pose proof native_limit_ull as Hnl.
  pose proof (precompute_fits cs Hne Hfit) as Hps.
  rewrite ull_small in Hps by lia.
  destruct (entry_at_ps_defined cs n_ _ Hne Hdom Hfit Hps Hn) as [Hdig Hcomb].
  eexists. split; [exact Hps|]. split; [reflexivity|].
  split; [exact Hdig|]. split; [exact Hcomb|].
  intros Hsmall. cbn [max_size].
  pose proof (Z.mod_pos_bound n_ (prod_sizes cs) Hpos).
  pose proof (Z.mod_le n_ (prod_sizes cs) ltac:(lia) Hpos).
  rewrite !(entry_at_ps_exact cs _ _ Hne Hdom Hfit Hps) by lia.
  now rewrite decode_spec_mod.
Qed.

(** ** The streaming sampler *)

Lemma valid_draw_bounds (it : RandomIterator) (o : Z) :
  valid_draw it o = true -> 0 <= range_size it ->
  0 <= o <= range_size it /\ 0 <= rnd_upper it.
Proof.
  unfold valid_draw, rnd_upper. intros H Hr.
  apply andb_prop in H as [H1 H2]. bool_Z.
  pose proof (to_int_le (range_size it) Hr). lia.
Qed.

(** One call of [next] under the invariant. *)
Lemma next_step (o : Z) (it : RandomIterator) :
  sampler_inv it -> 0 < num_left it -> valid_draw it o = true ->
  exists r,
    next o it
    = Ok (r, {| n := n it; last_k := r; num_left := num_left it - 1 |})
    /\ last_k it < r <= n it + 1
    /\ sampler_inv {| n := n it; last_k := r; num_left := num_left it - 1 |}.
Proof.
  intros (Hk & Hm & Hsum & Hn) Hpos Hv.
  assert (ull (n it - last_k it) = n it - last_k it) as Hd
    by (apply ull_small; lia).
  assert (0 <= range_size it) as Hr.
  { unfold range_size. rewrite Hd. apply Z.div_pos; lia. }
  destruct (valid_draw_bounds it o Hv Hr) as [Ho Hup].
  assert (range_size it + num_left it <= n it - last_k it + 1) as Hq.
  { unfold range_size in *. rewrite Hd in *.
    pose proof (Z.mul_div_le (n it - last_k it) (num_left it) Hpos). nia. }
  exists (o + last_k it + 1). unfold next.
  destruct (0 <? num_left it) eqn:E1; [|bool_Z; lia].
  destruct (rnd_upper it <? 0) eqn:E2; [bool_Z; lia|].
  rewrite !ull_small by lia.
  split; [reflexivity|]. split; [lia|].
  unfold sampler_inv. simpl. lia.
Qed.

Lemma increasing_cons (r : Z) (vs : list Z) :
  Forall (fun v => r < v) vs -> increasing vs -> increasing (r :: vs).
Proof.
  intros Hall Hvs. constructor; [exact Hvs|].
  destruct Hall; constructor. assumption.
Qed.

(** As many calls of [next] as values are left to draw. *)
Lemma nexts_run (os : list Z) (it : RandomIterator) :
  sampler_inv it -> length os = Z.to_nat (num_left it) ->
  valid_draws os it = true ->
  exists vs it',
    nexts os it = Ok (vs, it')
    /\ length vs = length os
    /\ Forall (fun v => last_k it < v <= n it + 1) vs
    /\ increasing vs
    /\ num_left it' = 0.
Proof.
  revert it. induction os as [|o os IH]; intros it Hinv Hlen Hv.
  - exists [], it. simpl in *. destruct Hinv as (_ & Hm & _).
    repeat split; try constructor. lia.
  - simpl in Hlen. cbn [valid_draws] in Hv.
    apply andb_prop in Hv as [Hvo Hv].
    destruct (next_step o it Hinv ltac:(lia) Hvo) as (r & Hnext & Hr & Hinv1).
    rewrite Hnext in Hv. cbn [nexts]. rewrite Hnext. simpl.
    destruct (IH _ Hinv1 ltac:(simpl; lia) Hv)
      as (vs & it' & Hrun & Hl & Hall & Hinc & Hend).
    rewrite Hrun. simpl in *. exists (r :: vs), it'.
    split; [reflexivity|]. split; [simpl; lia|]. split; [|split; [|exact Hend]].
    + constructor; [exact Hr|].
      eapply Forall_impl; [exact Hall|]. simpl. intros v Hvv. lia.
    + apply increasing_cons; [|exact Hinc].
      eapply Forall_impl; [exact Hall|]. simpl. intros v Hvv. lia.
Qed.

Lemma increasing_NoDup (vs : list Z) : increasing vs -> NoDup vs.
Proof.
  intros H. apply Sorted_StronglySorted in H; [|intros x y z; lia].
  induction H as [|v vs Hs IH Hall]; constructor; [|exact IH].
  intros Hin. apply (proj1 (Forall_forall _ _) Hall) in Hin. lia.
Qed.

Lemma nexts_exhausted (it : RandomIterator) :
  num_left it = 0 ->
  has_next it = false /\ forall o, next o it = Err out_of_range.
Proof. intros H. unfold has_next, next. rewrite H. split; reflexivity. Qed.

(** Drawing 0 at every call is within the bounds of each distribution
    while the upper bound is below [2^31]. *)
Lemma zero_draws_valid (m : nat) (it : RandomIterator) :
  sampler_inv it -> n it < 2 ^ 31 -> num_left it = Z.of_nat m ->
  valid_draws (repeat 0 m) it = true.
Proof.
  revert it. induction m as [|m IH]; intros it Hinv Hn Hm; [reflexivity|].
  assert (valid_draw it 0 = true) as Hv.
  { destruct Hinv as (Hk & _ & Hsum & _).
    unfold valid_draw, rnd_upper, range_size.
    rewrite ull_small by lia.
    assert (0 <= (n it - last_k it) / num_left it <= n it - last_k it).
    { split; [apply Z.div_pos; lia|]. apply Z.div_le_upper_bound; nia. }
    rewrite to_int_small by lia. apply andb_true_intro. split; apply Z.leb_le; lia. }
  cbn [repeat valid_draws]. rewrite Hv. simpl.
  destruct (next_step 0 it Hinv ltac:(lia) Hv) as (r & Hnext & _ & Hinv1).
  rewrite Hnext. apply IH; [exact Hinv1 | exact Hn | simpl; lia].
Qed.

(** No value drawn exceeds the upper bound by more than one. *)
Lemma sampler_values_bound (k N : Z) (os : list Z) (vs : list Z)
    (it' : RandomIterator) :
  0 <= k <= N -> N < 2 ^ 64 - 1 -> length os = Z.to_nat k ->
  valid_draws os (RandomIterator_new k N) = true ->
  nexts os (RandomIterator_new k N) = Ok (vs, it') ->
  Forall (fun v => 1 <= v <= N + 1) vs.
Proof.
  intros Hk HN Hlen Hv Hrun.
  assert (sampler_inv (RandomIterator_new k N)) as Hinv
    by (unfold sampler_inv; simpl; lia).
  destruct (nexts_run os _ Hinv Hlen Hv) as (vs' & it'' & Hrun' & _ & Hall & _).
  rewrite Hrun in Hrun'. injection Hrun' as <- <-.
  eapply Forall_impl; [exact Hall|]. simpl. intros v Hvv. lia.
Qed.

(** At the largest upper bound the value [N + 1] is not representable: a
    run of zero draws from the state below ends with the value 0. *)
Lemma zero_draws_wrap (j : nat) (it : RandomIterator) :
  n it = 2 ^ 64 - 1 -> last_k it = 2 ^ 64 - 1 - Z.of_nat j ->
  num_left it = Z.of_nat j + 1 -> Z.of_nat j < 2 ^ 64 - 1 ->
  valid_draws (repeat 0 (S j)) it = true
  /\ exists vs it', nexts (repeat 0 (S j)) it = Ok (vs, it') /\ In 0 vs.
Proof.
  revert it. induction j as [|j IH]; intros [M lk m] HM Hlk Hm Hj;
    simpl in HM, Hlk, Hm; subst M lk m.
  - split; [reflexivity|]. eexists _, _. split; [reflexivity|]. now left.
  - set (j' := Z.of_nat (S j)) in *.
    assert (range_size {| n := 2 ^ 64 - 1; last_k := 2 ^ 64 - 1 - j';
                          num_left := j' + 1 |} = 0) as Hr.
    { unfold range_size. simpl. rewrite ull_small by lia.
      apply Z.div_small. lia. }
    assert (next 0 {| n := 2 ^ 64 - 1; last_k := 2 ^ 64 - 1 - j';
                      num_left := j' + 1 |}
            = Ok (2 ^ 64 - j',
                  {| n := 2 ^ 64 - 1; last_k := 2 ^ 64 - j'; num_left := j' |}))
      as Hnext.
    { unfold next, rnd_upper. rewrite Hr. cbn [num_left last_k n].
      destruct (0 <? j' + 1) eqn:E; [|bool_Z; lia].
      change (to_int 0 <? 0) with false. cbv iota.
      rewrite !ull_small by lia. do 3 f_equal; lia. }
    destruct (IH {| n := 2 ^ 64 - 1; last_k := 2 ^ 64 - j'; num_left := j' |}
                eq_refl ltac:(simpl; lia) ltac:(simpl; lia) ltac:(lia))
      as (Hv & vs & it' & Hrun & Hin).
    split.
    + change (repeat 0 (S (S j))) with (0 :: repeat 0 (S j)).
      cbn [valid_draws]. rewrite Hnext, Hv.
      unfold valid_draw, rnd_upper. rewrite Hr. reflexivity.
    + change (repeat 0 (S (S j))) with (0 :: repeat 0 (S j)).
      cbn [nexts]. rewrite Hnext. cbn [bind]. rewrite Hrun. cbn [bind].
      eexists _, _. split; [reflexivity|]. right. exact Hin.
Qed.

Lemma increasing_head_lt (v : Z) (vs : list Z) (x : Z) :
  increasing (v :: vs) -> In x vs -> v < x.
Proof.
  intros H Hin. apply Sorted_StronglySorted in H; [|intros a b c; lia].
  apply StronglySorted_inv in H as [_ Hall].
  exact (proj1 (List.Forall_forall _ _) Hall x Hin).
Qed.

(** With [k = N = 2^64 - 1] the draws 1, 0, 0, .. are within bounds and the
    values returned, 2, 3, .., end with 0. *)
Lemma sampler_wrap_run (j : nat) :
  Z.of_nat j + 3 = 2 ^ 64 ->
  let os := 1 :: repeat 0 (S j) in
  let it := RandomIterator_new (2 ^ 64 - 1) (2 ^ 64 - 1) in
  valid_draws os it = true
  /\ exists vs it',
       nexts os it = Ok (2 :: vs, it') /\ In 0 vs /\ ~ increasing (2 :: vs).
Proof.
  intros Hj os it. subst os it.
  assert (next 1 (RandomIterator_new (2 ^ 64 - 1) (2 ^ 64 - 1))
          = Ok (2, {| n := 2 ^ 64 - 1; last_k := 2;
                      num_left := 2 ^ 64 - 2 |})) as Hnext by reflexivity.
  destruct (zero_draws_wrap j
              {| n := 2 ^ 64 - 1; last_k := 2; num_left := 2 ^ 64 - 2 |}
              eq_refl ltac:(simpl; lia) ltac:(simpl; lia) ltac:(lia))
    as (Hv & vs & it' & Hrun & Hin).
  split.
  - cbn [valid_draws]. rewrite Hnext, Hv. reflexivity.
  - cbn [nexts]. rewrite Hnext. cbn [bind]. rewrite Hrun. cbn [bind].
    eexists _, _. split; [reflexivity|]. split; [exact Hin|]. intros Hinc.
    pose proof (increasing_head_lt _ _ _ Hinc Hin). lia.
Qed.

(** ** [generate_samples] on the whole space *)

Lemma vector_max_size_above : 2 ^ 58 <= vector_max_size.
Proof. vm_compute. discriminate. Qed.

(** Below [max_size()] the call of [reserve] returns. *)
Lemma reserve_small (n_ : Z) : n_ <= 2 ^ 58 -> reserve n_ = Ok tt.
Proof.
  intros H. unfold reserve. pose proof vector_max_size_above.
  destruct (vector_max_size <? n_) eqn:E; [bool_Z; lia | reflexivity].
Qed.

Lemma In_indices (k i : Z) : In i (indices k) <-> 0 <= i < k.
Proof.
  unfold indices. rewrite in_map_iff. split.
  - intros (a & <- & Ha). apply in_seq in Ha. lia.
  - intros H. exists (Z.to_nat i). split; [lia|]. apply in_seq. lia.
Qed.

Lemma NoDup_indices (k : Z) : NoDup (indices k).
Proof. unfold indices. apply NoDup_fmap_2; [apply _ | apply NoDup_seq]. Qed.

Lemma full_loop_mapM (cs : list (list string)) (ps : precomputed_stats)
    (sample_size : Z) :
  full_loop cs ps sample_size
  = mapM (fun i => entry_at_ps cs i ps) (indices sample_size).
Proof.
  unfold full_loop. rewrite fold_push_mapM.
  destruct (mapM _ _); reflexivity.
Qed.

(** C6. For every non-empty list of non-empty domains, none of which lists
    a symbol twice, whose space is small (at most [2^53] combinations,
    fitting [unsigned long]), [generate_samples] called with the size of
    the space returns, whatever the random draws, the decoding of the
    indices [0 .. max_size - 1] in increasing order, which lists every
    combination of the product exactly once. *)
Theorem generate_samples_full (cs : list (list string)) (os : list Z) :
  cs <> [] -> domains_nonempty cs -> domains_distinct cs -> small_space cs ->
  exists ps l,
    precompute cs = Ok ps
    /\ max_size ps = prod_sizes cs
    /\ generate_samples cs (max_size ps) os = Ok l
    /\ mapM (fun i => entry_at_ps cs i ps) (indices (max_size ps)) = Ok l
    /\ NoDup l
    /\ forall comb, In comb l <-> is_combination cs comb.
Proof.
  intros Hne Hdom Hnd Hsmall.
  pose proof (small_space_fits cs Hdom Hsmall) as Hfit.
  destruct Hsmall as [H53 _].
  pose proof (prod_sizes_nonneg cs) as Hnn.
  destruct (precompute_nonempty cs Hne) as (ps & Hps & Hmax & _).
  assert (max_size ps = prod_sizes cs) as Hsz.
  { rewrite Hmax, compute_max_size_wrap. apply ull_small. lia. }
  assert (mapM (fun i => entry_at_ps cs i ps) (indices (max_size ps))
          = Ok (map (decode_spec cs) (indices (max_size ps)))) as Hall.
  { apply mapM_Ok_map. intros i Hi. apply In_indices in Hi.
    apply entry_at_ps_exact; try assumption. lia. }
  exists ps, (map (decode_spec cs) (indices (max_size ps))).
  split; [exact Hps|]. split; [exact Hsz|]. split; [|split; [exact Hall|split]].
  - unfold generate_samples.
    destruct (size cs =? 0) eqn:E.
    { bool_Z. pose proof (size_pos cs Hne). lia. }
    rewrite Hps. cbn [bind]. rewrite Z.eqb_refl. cbn [negb].
    rewrite reserve_small by lia. cbn [bind].
    rewrite full_loop_mapM. exact Hall.
  - apply NoDup_fmap_2_strong; [|apply NoDup_indices].
    intros i j Hi Hj Heq.
    apply list_elem_of_In, In_indices in Hi.
    apply list_elem_of_In, In_indices in Hj.
    apply (decode_spec_inj cs); try assumption; lia.
  - intros comb. rewrite in_map_iff. split.
    + intros (i & <- & _). apply decode_spec_is_combination, Hdom.
    + intros Hcomb.
      destruct (decode_spec_surj cs comb Hdom Hcomb) as (i & Hi & Heq).
      exists i. split; [exact Heq|]. apply In_indices. lia.
Qed.

(** ** [generate_samples] on a proper sample *)

(** The sampling loop decodes the values of the sampler in the order it
    returns them. *)
Lemma sample_loop_nexts (os : list Z) (cs : list (list string))
    (ps : precomputed_stats) (it : RandomIterator) :
  sampler_inv it -> length os = Z.to_nat (num_left it) ->
  valid_draws os it = true ->
  exists vs it',
    nexts os it = Ok (vs, it')
    /\ forall subset,
         sample_loop os cs ps it subset
         = let* entries := mapM (fun v => entry_at_ps cs v ps) vs in
           Ok (subset ++ entries).
Proof.
  revert it. induction os as [|o os IH]; intros it Hinv Hlen Hv.
  - exists [], it. split; [reflexivity|]. intros subset. simpl in *.
    destruct Hinv as (_ & Hm & _). unfold has_next.
    destruct (0 <? num_left it) eqn:E; [bool_Z; lia|].
    now rewrite app_nil_r.
  - simpl in Hlen. cbn [valid_draws] in Hv.
    apply andb_prop in Hv as [Hvo Hv].
    destruct (next_step o it Hinv ltac:(lia) Hvo) as (r & Hnext & _ & Hinv1).
    rewrite Hnext in Hv.
    destruct (IH _ Hinv1 ltac:(simpl; lia) Hv) as (vs & it' & Hrun & Hloop).
    exists (r :: vs), it'. split.
    + cbn [nexts]. rewrite Hnext. cbn [bind]. rewrite Hrun. reflexivity.
    + intros subset. cbn [sample_loop]. unfold has_next.
      destruct (0 <? num_left it) eqn:E; [|bool_Z; lia].
      rewrite Hnext. cbn [bind mapM].
      destruct (entry_at_ps cs r ps) as [c|e]; cbn [bind]; [|reflexivity].
      rewrite Hloop.
      destruct (mapM _ vs) as [entries|e]; cbn [bind]; [|reflexivity].
      now rewrite <- app_assoc.
Qed.

(** What holds of a proper sample: on a space of non-empty domains that
    fits the native integers and has fewer than [2^64 - 1025]
    combinations, a request for [k] of them, [k] below the size of the
    space and no more than a vector holds, returns for draws within
    bounds exactly [k] entries, the
    decodings of the [k] increasing values of the sampler; these lie
    between 1 and the size of the space plus one. *)
Lemma generate_samples_sampled (cs : list (list string)) (k : Z)
    (os : list Z) :
  cs <> [] -> domains_nonempty cs -> prod_sizes cs < native_limit ->
  prod_sizes cs < 2 ^ 64 - 1025 -> 0 <= k < prod_sizes cs ->
  k <= vector_max_size ->
  length os = Z.to_nat k ->
  valid_draws os (RandomIterator_new k (prod_sizes cs)) = true ->
  exists ps vs it' l,
    precompute cs = Ok ps
    /\ nexts os (RandomIterator_new k (prod_sizes cs)) = Ok (vs, it')
    /\ increasing vs
    /\ Forall (fun v => 1 <= v <= prod_sizes cs + 1) vs
    /\ generate_samples cs k os = Ok l
    /\ mapM (fun v => entry_at_ps cs v ps) vs = Ok l
    /\ length l = Z.to_nat k.
Proof.
  intros Hne Hdom Hlim Hmax Hk Hcap Hlen Hv.
  pose proof (fits_of_total cs Hdom Hlim) as Hfit.
  pose proof (precompute_fits cs Hne Hfit) as Hps.
  pose proof (prod_sizes_nonneg cs) as Hnn.
  rewrite ull_small in Hps by lia.
  set (ps := {| divs := map (place_value cs) (seq 0 (length cs));
                mods := map size cs; max_size := prod_sizes cs |}) in *.
  assert (sampler_inv (RandomIterator_new k (prod_sizes cs))) as Hinv
    by (unfold sampler_inv; simpl; lia).
  destruct (nexts_run os _ Hinv Hlen Hv)
    as (vs & it' & Hrun & Hl & Hall & Hinc & _).
  simpl in Hall.
  destruct (mapM_defined (fun v => entry_at_ps cs v ps)
              (fun _ _ => True) vs) as (l & Hmap & Hl2).
  { intros v Hin. apply (proj1 (List.Forall_forall _ _) Hall) in Hin.
    destruct (entry_at_ps_defined cs v ps Hne Hdom Hfit Hps ltac:(lia))
      as (_ & c & Hc & _).
    exists c. split; [exact Hc | exact I]. }
  exists ps, vs, it', l. split; [exact Hps|]. split; [exact Hrun|].
  split; [exact Hinc|]. split.
  { eapply Forall_impl; [exact Hall|]. simpl. intros v Hvv. lia. }
  split; [|split; [exact Hmap|]].
  - unfold generate_samples.
    destruct (size cs =? 0) eqn:E.
    { bool_Z. pose proof (size_pos cs Hne). lia. }
    rewrite Hps. cbn [bind max_size ps].
    destruct (k =? prod_sizes cs) eqn:E2; [bool_Z; lia|]. cbn [negb].
    unfold reserve.
    destruct (vector_max_size <? k) eqn:E3; [bool_Z; lia|]. cbn [bind].
    destruct (sample_loop_nexts os cs ps _ Hinv Hlen Hv)
      as (vs' & it'' & Hrun' & Hloop).
    rewrite Hrun in Hrun'. injection Hrun' as <- <-.
    rewrite Hloop, Hmap. reflexivity.
  - apply Forall2_length in Hl2. lia.
Qed.

(** ** The failures of [generate_samples] *)

Lemma sample_loop_Err (os : list Z) (cs : list (list string))
    (ps : precomputed_stats) (it : RandomIterator)
    (subset : list (list string)) (e : error) :
  sample_loop os cs ps it subset = Err e ->
  e = undefined_behaviour \/ e = no_more_draws.
Proof.
  revert it subset. induction os as [|o os IH]; intros it subset;
    cbn [sample_loop]; unfold has_next, next;
    destruct (0 <? num_left it) eqn:E; try discriminate.
  - intros [= <-]. now right.
  - destruct (rnd_upper it <? 0); cbn [bind].
    { intros [= <-]. now left. }
    destruct (entry_at_ps cs _ ps) as [c|e'] eqn:Hc; cbn [bind].
    + apply IH.
    + intros [= <-]. left. exact (entry_at_ps_Err _ _ _ _ Hc).
Qed.

(** The failures of [generate_samples] in the model: [empty_list_error],
    for the empty list only; [std::length_error], from [reserve]; an
    undefined operation of a decode; and a list of draws that is too
    short. *)
Lemma generate_samples_Err (cs : list (list string)) (k : Z) (os : list Z)
    (e : error) :
  generate_samples cs k os = Err e ->
  (e = empty_list_error /\ cs = [])
  \/ (e = length_error /\ vector_max_size < k)
  \/ e = undefined_behaviour \/ e = no_more_draws.
Proof.
  unfold generate_samples. destruct (size cs =? 0) eqn:E.
  { intros [= <-]. left. split; [reflexivity|].
    bool_Z. destruct cs; [reflexivity | discriminate]. }
  assert (cs <> []) as Hne by (intros ->; discriminate).
  destruct (precompute_nonempty cs Hne) as (ps & Hps & _).
  rewrite Hps. cbn [bind]. unfold reserve.
  destruct (vector_max_size <? k) eqn:E2.
  { bool_Z. destruct (negb (k =? max_size ps)); cbn [bind];
      intros [= <-]; right; left; split; [reflexivity | exact E2 | reflexivity | exact E2]. }
  destruct (negb (k =? max_size ps)); cbn [bind].
  - intros H. right. right. exact (sample_loop_Err _ _ _ _ _ _ H).
  - rewrite full_loop_mapM. intros H.
    apply mapM_Err in H as (i & _ & Hi). right. right. left.
    exact (entry_at_ps_Err _ _ _ _ Hi).
Qed.

(** ** Further properties of the native build *)

(** *** The size of the space, for every input *)

Lemma prod_sizes_Permutation (cs cs' : list (list string)) :
  Permutation cs cs' -> prod_sizes cs = prod_sizes cs'.
Proof. induction 1; simpl; try lia; congruence. Qed.

Lemma prod_sizes_app (cs cs' : list (list string)) :
  prod_sizes (cs ++ cs') = prod_sizes cs * prod_sizes cs'.
Proof.
  induction cs as [|c cs IH]; cbn [app prod_sizes foldr].
  - fold (prod_sizes cs'). lia.
  - fold (prod_sizes (cs ++ cs')). fold (prod_sizes cs). rewrite IH. lia.
Qed.

(** The product of the sizes of a suffix is at most that of the list. *)
Lemma prod_sizes_drop_le (cs : list (list string)) (k : nat) :
  domains_nonempty cs -> 0 < prod_sizes (drop k cs) <= prod_sizes cs.
Proof.
  intros Hdom. revert k. induction Hdom as [|c cs Hc Hcs IH]; intros k.
  - rewrite drop_nil. simpl. lia.
  - pose proof (size_pos c Hc) as Hs. destruct k as [|k].
    + rewrite drop_0. pose proof (prod_sizes_pos (c :: cs)
        ltac:(constructor; assumption)). lia.
    + change (prod_sizes (c :: cs)) with (size c * prod_sizes cs).
      change (drop (S k) (c :: cs)) with (drop k cs).
      specialize (IH k). nia.
Qed.

(** X1. [compute_max_size] returns, for every list of domains, the
    product of their sizes reduced modulo [2^64]; so it does not depend
    on the order of the domains, and the size of a concatenation is the
    product of the two sizes, reduced again. *)
Theorem compute_max_size_modular (cs cs' : list (list string)) :
  compute_max_size cs = prod_sizes cs mod 2 ^ 64
  /\ compute_max_size (cs ++ cs')
     = (compute_max_size cs * compute_max_size cs') mod 2 ^ 64
  /\ (Permutation cs cs' -> compute_max_size cs' = compute_max_size cs).
Proof.
  split; [|split].
  - apply compute_max_size_wrap.
  - rewrite !compute_max_size_wrap, prod_sizes_app. unfold ull, wrap.
    now rewrite <- Z.mul_mod by lia.
  - intros Hp. rewrite !compute_max_size_wrap.
    now rewrite (prod_sizes_Permutation _ _ Hp).
Qed.

(** *** The place values, for every input *)

Lemma wrap_ull (w x : Z) : 0 <= w <= 64 -> wrap w (ull x) = wrap w x.
Proof.
  intros Hw. unfold ull, wrap. apply Z.mod_mod_divide.
  exists (2 ^ (64 - w)). rewrite <- Z.pow_add_r by lia. f_equal. lia.
Qed.

Lemma wrap_range (w x : Z) : 0 <= w -> 0 <= wrap w x < 2 ^ w.
Proof. intros Hw. apply Z.mod_pos_bound, Z.pow_pos_nonneg; lia. Qed.

Lemma precompute_loop_divs_wrap (k : nat) (cs : list (list string)) (f : Z)
    (ps : precomputed_stats) :
  0 < ulong_bits <= 64 ->
  (k <= length cs)%nat -> length (divs ps) = length cs ->
  f = ulong (prod_sizes (drop k cs)) ->
  divs (precompute_loop k cs f ps)
  = map (fun i => ulong (place_value cs i)) (seq 0 k) ++ drop k (divs ps).
Proof.
  intros Hw. revert f ps. induction k as [|i IH]; intros f ps Hk Hlen Hf.
  - reflexivity.
  - destruct (lookup_lt_is_Some_2 cs i ltac:(lia)) as [c Hc].
    subst f. cbn [precompute_loop]. rewrite (nth_lookup_Some _ _ _ _ Hc).
    rewrite IH; cbn [divs mods]; rewrite ?length_insert; try lia.
    + rewrite drop_insert_here by lia.
      rewrite seq_S, map_app, <- app_assoc. cbn [map app Nat.add].
      f_equal. f_equal. unfold place_value.
      apply ull_small. pose proof (wrap_range ulong_bits
        (prod_sizes (drop (S i) cs)) ltac:(lia)) as Hr. unfold ulong.
      assert (2 ^ ulong_bits <= 2 ^ 64) by (apply Z.pow_le_mono_r; lia).
      lia.
    + rewrite (drop_S _ _ _ Hc). cbn [prod_sizes foldr].
      fold (prod_sizes (drop (S i) cs)).
      unfold ulong. rewrite wrap_ull by lia. unfold wrap.
      rewrite Z.mul_mod_idemp_l by (apply Z.pow_nonzero; lia).
      f_equal. lia.
Qed.

(** X2. For every non-empty list of domains, whatever their sizes, and
    an [unsigned long] of 1 to 64 bits, [precompute] returns as many
    place values and moduli as there are domains; the modulus of
    position [i] is the size of domain [i], its place value is the
    product of the sizes of the later domains reduced modulo [2^w], and
    the size of the space is the product of all sizes modulo [2^64]. *)
Theorem precompute_modular (cs : list (list string)) :
  0 < ulong_bits <= 64 -> cs <> [] ->
  exists ps,
    precompute cs = Ok ps
    /\ length (divs ps) = length cs
    /\ length (mods ps) = length cs
    /\ (forall i c, cs !! i = Some c ->
          divs ps !! i
          = Some (prod_sizes (drop (S i) cs) mod 2 ^ ulong_bits)
          /\ mods ps !! i = Some (size c))
    /\ max_size ps = prod_sizes cs mod 2 ^ 64.
Proof.
  intros Hw Hne. unfold precompute.
  destruct (size cs =? 0) eqn:E.
  { apply Z.eqb_eq in E. pose proof (size_pos cs Hne). lia. }
  eexists. split; [reflexivity|]. cbn [divs mods max_size].
  rewrite precompute_loop_divs_wrap, precompute_loop_mods; simpl;
    rewrite ?length_replicate; try lia.
  - rewrite !drop_ge by (rewrite length_replicate; lia).
    rewrite firstn_all, !app_nil_r.
    split; [now rewrite length_map, length_seq|].
    split; [now rewrite length_map|].
    split; [|apply compute_max_size_wrap].
    intros i c Hc. pose proof (lookup_lt_Some _ _ _ Hc) as Hi. split.
    + rewrite list_lookup_fmap, lookup_seq_lt by exact Hi. reflexivity.
    + rewrite list_lookup_fmap, Hc. reflexivity.
  - rewrite drop_all. cbn [prod_sizes foldr]. unfold ulong, wrap.
    symmetry. apply Z.mod_small.
    assert (2 ^ 1 <= 2 ^ ulong_bits) by (apply Z.pow_le_mono_r; lia). lia.
Qed.

(** *** Decoding on a small space *)

(** The public [entry_at] on a small space is the mixed-radix reading. *)
Lemma entry_at_decode (cs : list (list string)) (index : Z) :
  cs <> [] -> domains_nonempty cs -> small_space cs ->
  0 <= index < prod_sizes cs ->
  entry_at cs index = Ok (decode_spec cs index).
Proof.
  intros Hne Hdom Hsmall Hi.
  pose proof (small_space_fits cs Hdom Hsmall) as Hfit.
  pose proof (precompute_fits cs Hne Hfit) as Hps.
  destruct Hsmall as [H53 Hw].
  rewrite ull_small in Hps by lia.
  unfold entry_at. rewrite Hps. cbn [bind max_size].
  destruct (index <? 0) eqn:E1; [bool_Z; lia|].
  destruct (prod_sizes cs <=? index) eqn:E2; [bool_Z; lia|].
  cbn [orb]. apply entry_at_ps_exact; try assumption. lia.
Qed.

Lemma small_space_max_size (cs : list (list string)) :
  small_space cs -> compute_max_size cs = prod_sizes cs.
Proof.
  intros [H53 _]. rewrite compute_max_size_wrap. apply ull_small.
  pose proof (prod_sizes_nonneg cs). lia.
Qed.

Lemma nth_0_hd (c : list string) : nth 0 c EmptyString = hd EmptyString c.
Proof. now destruct c. Qed.

Lemma nth_last (c : list string) :
  nth (length c - 1) c EmptyString = List.last c EmptyString.
Proof.
  induction c as [|s c IH]; [reflexivity|].
  destruct c as [|s' c]; [reflexivity|].
  change (List.last (s :: s' :: c) EmptyString)
    with (List.last (s' :: c) EmptyString).
  rewrite <- IH. cbn [length].
  replace (S (S (length c)) - 1)%nat with (S (S (length c) - 1)) by lia.
  reflexivity.
Qed.

Lemma decode_spec_zero (cs : list (list string)) :
  decode_spec cs 0 = map (hd EmptyString) cs.
Proof.
  induction cs as [|c cs IH]; [reflexivity|].
  cbn [decode_spec map]. rewrite IH, Zdiv_0_l, Zmod_0_l.
  change (Z.to_nat 0) with 0%nat. now rewrite nth_0_hd.
Qed.

Lemma decode_spec_cons (c : list string) (cs : list (list string))
    (a r : Z) :
  domains_nonempty cs -> 0 <= a < size c -> 0 <= r < prod_sizes cs ->
  decode_spec (c :: cs) (a * prod_sizes cs + r)
  = nth (Z.to_nat a) c EmptyString :: decode_spec cs r.
Proof.
  intros Hdom Ha Hr. cbn [decode_spec]. f_equal.
  - rewrite Z.div_add_l by lia. rewrite (Z.div_small r) by lia.
    rewrite Z.add_0_r, Z.mod_small by lia. reflexivity.
  - rewrite <- (decode_spec_mod cs (a * _ + r)) by exact Hdom.
    rewrite Z.add_comm, Z.mod_add by lia.
    now rewrite Z.mod_small by lia.
Qed.

Lemma decode_spec_last (cs : list (list string)) :
  domains_nonempty cs ->
  decode_spec cs (prod_sizes cs - 1)
  = map (fun c => List.last c EmptyString) cs.
Proof.
  induction 1 as [|c cs Hc Hcs IH]; [reflexivity|].
  pose proof (size_pos c Hc) as Hs.
  pose proof (prod_sizes_pos cs Hcs) as Hp.
  cbn [prod_sizes foldr]. fold (prod_sizes cs).
  replace (size c * prod_sizes cs - 1)
    with ((size c - 1) * prod_sizes cs + (prod_sizes cs - 1)) by lia.
  rewrite decode_spec_cons by (try assumption; lia).
  cbn [map]. rewrite IH. f_equal.
  unfold size. replace (Z.to_nat (Z.of_nat (length c) - 1))
    with (length c - 1)%nat by lia.
  apply nth_last.
Qed.

(** X3. On a small space of non-empty domains the first index, 0,
    decodes to the first symbol of every domain and the last index,
    [max_size - 1], to the last symbol of every domain. *)
Theorem entry_at_first_last (cs : list (list string)) :
  cs <> [] -> domains_nonempty cs -> small_space cs ->
  entry_at cs 0 = Ok (map (hd EmptyString) cs)
  /\ entry_at cs (compute_max_size cs - 1)
     = Ok (map (fun c => List.last c EmptyString) cs).
Proof.
  intros Hne Hdom Hsmall.
  pose proof (prod_sizes_pos cs Hdom) as Hp.
  rewrite (small_space_max_size cs Hsmall).
  rewrite !entry_at_decode by (try assumption; lia).
  now rewrite decode_spec_zero, decode_spec_last.
Qed.

(** X4. Decoding composes along the list of domains: on a small space
    whose first domain is [c], the index [a * m + r], with [a] a rank in
    [c] and [r] an index of the space of the other domains, of size [m],
    decodes to the symbol of rank [a] in [c] followed by the combination
    of index [r] in that space.  The first domain is the most
    significant digit. *)
Theorem entry_at_cons (c : list string) (cs : list (list string))
    (a r : Z) :
  cs <> [] -> domains_nonempty (c :: cs) -> small_space (c :: cs) ->
  0 <= a < size c -> 0 <= r < compute_max_size cs ->
  exists s comb,
    subscript c a = Ok s
    /\ entry_at cs r = Ok comb
    /\ entry_at (c :: cs) (a * compute_max_size cs + r) = Ok (s :: comb).
Proof.
  intros Hne Hdom Hsmall Ha Hr.
  pose proof (Forall_inv Hdom) as Hc. pose proof (Forall_inv_tail Hdom) as Hcs.
  pose proof (size_pos c Hc) as Hs.
  pose proof (prod_sizes_pos cs Hcs) as Hp.
  assert (small_space cs) as Hsmall'.
  { destruct Hsmall as [H1 H2]. cbn [prod_sizes foldr] in H1, H2.
    fold (prod_sizes cs) in H1, H2. split; nia. }
  rewrite (small_space_max_size cs Hsmall') in *.
  exists (nth (Z.to_nat a) c EmptyString), (decode_spec cs r).
  split; [apply subscript_nth; lia|].
  split; [apply entry_at_decode; assumption|].
  rewrite entry_at_decode; try assumption; try discriminate.
  - now rewrite decode_spec_cons by (try assumption; lia).
  - cbn [prod_sizes foldr]. fold (prod_sizes cs). nia.
Qed.

(** *** The sampler, call by call *)

(** X5. Under the invariant of the sampler ([num_left] values still
    fit between [last_k] and [n + 1]) any [j <= num_left] calls of
    [next], with draws within the bounds of their distributions,
    succeed; the values returned are increasing and above [last_k], the
    bound [n] is unchanged, [num_left] has dropped by [j], and every
    value returned leaves room for the ones still to draw: it is at most
    [n + 1] minus the new [num_left].  The invariant holds again. *)
Theorem nexts_prefix (os : list Z) (it : RandomIterator) :
  sampler_inv it -> Z.of_nat (length os) <= num_left it ->
  valid_draws os it = true ->
  exists vs it',
    nexts os it = Ok (vs, it')
    /\ length vs = length os
    /\ increasing vs
    /\ n it' = n it
    /\ num_left it' = num_left it - Z.of_nat (length os)
    /\ Forall (fun v => last_k it < v <= n it + 1 - num_left it') vs
    /\ has_next it' = negb (Z.of_nat (length os) =? num_left it)
    /\ sampler_inv it'.
Proof.
  revert it. induction os as [|o os IH]; intros it Hinv Hlen Hv.
  - exists [], it. cbn [nexts length]. unfold has_next.
    destruct Hinv as (H1 & H2 & H3 & H4).
    split; [reflexivity|]. split; [reflexivity|]. split; [constructor|].
    split; [reflexivity|]. split; [cbn [Z.of_nat]; lia|].
    split; [constructor|]. split; [|repeat split; assumption].
    change (Z.of_nat 0) with 0.
    destruct (0 =? num_left it) eqn:E; destruct (0 <? num_left it) eqn:E';
      try reflexivity; bool_Z; lia.
  - cbn [length] in Hlen. cbn [valid_draws] in Hv.
    apply andb_prop in Hv as [Hvo Hv].
    destruct (next_step o it Hinv ltac:(lia) Hvo) as (r & Hnext & Hr & Hinv1).
    rewrite Hnext in Hv. cbn [nexts]. rewrite Hnext. cbn [bind].
    destruct (IH _ Hinv1 ltac:(cbn [num_left]; lia) Hv)
      as (vs & it' & Hrun & Hl & Hinc & Hn & Hleft & Hall & Hhas & Hinv').
    rewrite Hrun. cbn [bind n last_k num_left] in *.
    exists (r :: vs), it'.
    split; [reflexivity|]. split; [cbn [length]; lia|].
    split.
    { apply increasing_cons; [|exact Hinc].
      eapply Forall_impl; [exact Hall|]. cbn beta. intros v Hvv. lia. }
    split; [exact Hn|]. split; [cbn [length]; lia|].
    split; [|split; [|exact Hinv']].
    + assert (r <= n it + 1 - num_left it') as Hroom.
      { destruct vs as [|v vs'].
        - destruct os; [|discriminate Hl].
          cbn [nexts] in Hrun. injection Hrun as <-.
          destruct Hinv1 as (_ & _ & Hsum1 & _).
          cbn [n last_k num_left] in *. lia.
        - apply Forall_inv in Hall. lia. }
      constructor; [lia|].
      eapply Forall_impl; [exact Hall|]. cbn beta. intros v Hvv. lia.
    + rewrite Hhas. cbn [length].
      destruct (Z.of_nat (length os) =? num_left it - 1) eqn:E1;
        destruct (Z.of_nat (S (length os)) =? num_left it) eqn:E2;
        try reflexivity; bool_Z; lia.
Qed.

(** *** generate_samples *)

(** X6. A sample of size 0 of a non-empty list of domains is the empty
    list, whatever the domains are; no draw is made. *)
Theorem generate_samples_zero (cs : list (list string)) (os : list Z) :
  cs <> [] -> generate_samples cs 0 os = Ok [].
Proof.
  intros Hne. unfold generate_samples.
  destruct (size cs =? 0) eqn:E.
  { bool_Z. pose proof (size_pos cs Hne). lia. }
  destruct (precompute_nonempty cs Hne) as (ps & Hps & _).
  rewrite Hps. cbn [bind].
  destruct (0 =? max_size ps) eqn:E2; cbn [negb].
  - reflexivity.
  - destruct os; reflexivity.
Qed.

(** X7. Asking [generate_samples] for as many samples as the size of the
    space, on a non-empty list of domains and whatever the random engine
    would draw: when that size exceeds what a vector holds, [reserve]
    throws [std::length_error] before anything is decoded; otherwise the
    outcome is that of calling the public [entry_at] on the indices
    [0 .. max_size - 1] in turn, the same combinations in the same
    order or the same failure of a decode.  (The storage of the model
    has no other bound: an allocation that fails is not part of it.) *)
Theorem generate_samples_full_entry_at (cs : list (list string))
    (os : list Z) :
  cs <> [] ->
  generate_samples cs (compute_max_size cs) os
  = if vector_max_size <? compute_max_size cs then Err length_error
    else mapM (entry_at cs) (indices (compute_max_size cs)).
Proof.
  intros Hne. unfold generate_samples.
  destruct (size cs =? 0) eqn:E.
  { bool_Z. pose proof (size_pos cs Hne). lia. }
  destruct (precompute_nonempty cs Hne) as (ps & Hps & Hmax & _).
  rewrite Hps. cbn [bind]. rewrite Hmax, Z.eqb_refl. cbn [negb].
  unfold reserve.
  destruct (vector_max_size <? compute_max_size cs); cbn [bind];
    [reflexivity|].
  rewrite full_loop_mapM.
  assert (forall l, (forall i, In i l -> 0 <= i < compute_max_size cs) ->
            mapM (fun i => entry_at_ps cs i ps) l = mapM (entry_at cs) l)
    as Hsame.
  { induction l as [|i l IH]; intros Hl; [reflexivity|].
    cbn [mapM]. rewrite IH by (intros j Hj; apply Hl; now right).
    f_equal. unfold entry_at. rewrite Hps. cbn [bind]. rewrite Hmax.
    pose proof (Hl i (or_introl eq_refl)) as Hi.
    destruct (i <? 0) eqn:E1; [bool_Z; lia|].
    destruct (compute_max_size cs <=? i) eqn:E2; [bool_Z; lia|].
    reflexivity. }
  apply Hsame. intros i Hi. exact (proj1 (In_indices _ _) Hi).
Qed.

(** X8. What a proper sample contains.  On a space of non-empty domains
    with fewer than [2^53 - 1] combinations that fits [unsigned long],
    a request for [k] samples, [k] below the size [m] of the space,
    returns for draws within bounds [k] combinations, one for each of
    the [k] increasing values [v] of the sampler, in their order: the
    combination that the public [entry_at] gives for the index
    [v mod m].  The values lie in [1, m + 1]; so index 0 is returned
    only for the value [m], and index 1 for the values 1 and [m + 1]. *)
Theorem generate_samples_entries (cs : list (list string)) (k : Z)
    (os : list Z) :
  cs <> [] -> domains_nonempty cs -> prod_sizes cs < 2 ^ ulong_bits ->
  prod_sizes cs < 2 ^ 53 - 1 -> 0 <= k < prod_sizes cs ->
  length os = Z.to_nat k ->
  valid_draws os (RandomIterator_new k (compute_max_size cs)) = true ->
  exists vs it' l,
    nexts os (RandomIterator_new k (compute_max_size cs)) = Ok (vs, it')
    /\ increasing vs
    /\ Forall (fun v => 1 <= v <= compute_max_size cs + 1) vs
    /\ generate_samples cs k os = Ok l
    /\ length l = Z.to_nat k
    /\ Forall2 (fun v comb =>
                  entry_at cs (v mod compute_max_size cs) = Ok comb
                  /\ is_combination cs comb) vs l.
Proof.
  intros Hne Hdom Hw H53 Hk Hlen Hv.
  pose proof (prod_sizes_nonneg cs) as Hnn.
  assert (small_space cs) as Hsmall by (split; lia).
  rewrite (small_space_max_size cs Hsmall) in *.
  pose proof (small_space_fits cs Hdom Hsmall) as Hfit.
  pose proof (precompute_fits cs Hne Hfit) as Hps.
  rewrite ull_small in Hps by lia.
  set (ps := {| divs := map (place_value cs) (seq 0 (length cs));
                mods := map size cs; max_size := prod_sizes cs |}) in *.
  assert (sampler_inv (RandomIterator_new k (prod_sizes cs))) as Hinv
    by (unfold sampler_inv; simpl; lia).
  destruct (nexts_run os _ Hinv Hlen Hv)
    as (vs & it' & Hrun & Hl & Hall & Hinc & _).
  cbn [RandomIterator_new n last_k] in Hall.
  assert (mapM (fun v => entry_at_ps cs v ps) vs
          = Ok (map (decode_spec cs) vs)) as Hmap.
  { apply mapM_Ok_map. intros v Hin.
    apply (proj1 (List.Forall_forall _ _) Hall) in Hin.
    apply entry_at_ps_exact; try assumption. lia. }
  exists vs, it', (map (decode_spec cs) vs).
  split; [exact Hrun|]. split; [exact Hinc|]. split.
  { eapply Forall_impl; [exact Hall|]. cbn beta. intros v Hvv. lia. }
  split; [|split; [rewrite length_map; lia|]].
  - unfold generate_samples.
    destruct (size cs =? 0) eqn:E.
    { bool_Z. pose proof (size_pos cs Hne). lia. }
    rewrite Hps. cbn [bind max_size ps].
    destruct (k =? prod_sizes cs) eqn:E2; [bool_Z; lia|]. cbn [negb].
    rewrite reserve_small by lia. cbn [bind].
    destruct (sample_loop_nexts os cs ps _ Hinv Hlen Hv)
      as (vs' & it'' & Hrun' & Hloop).
    rewrite Hrun in Hrun'. injection Hrun' as <- <-.
    rewrite Hloop, Hmap. reflexivity.
  - clear - Hdom Hne Hsmall Hk. induction vs as [|v vs IH]; constructor.
    + split; [|now apply decode_spec_is_combination].
      rewrite entry_at_decode; try assumption.
      * now rewrite decode_spec_mod.
      * apply Z.mod_pos_bound. lia.
    + exact IH.
Qed.

(** *** What is returned is a combination, for every input *)

Lemma mapM_Ok_inv {A B : Type} (f : A -> result B) (l : list A)
    (bs : list B) :
  mapM f l = Ok bs -> Forall2 (fun a b => f a = Ok b) l bs.
Proof.
  revert bs. induction l as [|a l IH]; intros bs; cbn [mapM].
  - intros [= <-]. constructor.
  - destruct (f a) as [b|e] eqn:Hb; cbn [bind]; [|discriminate].
    destruct (mapM f l) as [bs'|e]; cbn [bind]; [|discriminate].
    intros [= <-]. constructor; [exact Hb | now apply IH].
Qed.

Lemma subscript_Ok {A : Type} (v : list A) (i : Z) (x : A) :
  subscript v i = Ok x -> 0 <= i /\ v !! Z.to_nat i = Some x.
Proof.
  unfold subscript. destruct (i <? 0) eqn:E; [discriminate|]. bool_Z.
  destruct (v !! Z.to_nat i) as [y|]; [|discriminate].
  intros [= <-]. split; [lia | reflexivity].
Qed.

Lemma cell_Ok (cs : list (list string)) (n_ : Z) (ps : precomputed_stats)
    (i : nat) (s : string) :
  cell cs n_ ps i = Ok s -> exists c, cs !! i = Some c /\ In s c.
Proof.
  unfold cell.
  destruct (subscript (divs ps) _) as [dv|]; cbn [bind]; [|discriminate].
  destruct (subscript (mods ps) _) as [md|]; cbn [bind]; [|discriminate].
  destruct (digit n_ dv md) as [d|]; cbn [bind]; [|discriminate].
  destruct (subscript cs (Z.of_nat i)) as [c|] eqn:Hc; cbn [bind];
    [|discriminate].
  intros Hs. apply subscript_Ok in Hc as [_ Hc]. rewrite Nat2Z.id in Hc.
  apply subscript_Ok in Hs as [_ Hs]. exists c. split; [exact Hc|].
  apply list_elem_of_In. exact (list_elem_of_lookup_2 _ _ _ Hs).
Qed.

Lemma entry_at_ps_Ok (cs : list (list string)) (n_ : Z)
    (ps : precomputed_stats) (comb : list string) :
  entry_at_ps cs n_ ps = Ok comb -> is_combination cs comb.
Proof.
  rewrite entry_at_ps_mapM. intros H. apply mapM_Ok_inv in H.
  unfold is_combination. apply Forall2_same_length_lookup_2.
  - apply Forall2_length in H. rewrite length_seq in H. lia.
  - intros i s c Hs Hc. pose proof (lookup_lt_Some _ _ _ Hc) as Hi.
    pose proof (Forall2_lookup_lr _ _ _ i i s H
                  (lookup_seq_lt 0 _ i Hi) Hs) as Hcell.
    apply cell_Ok in Hcell as (c' & Hc' & Hin). congruence.
Qed.

Lemma sample_loop_Ok (os : list Z) (cs : list (list string))
    (ps : precomputed_stats) (it : RandomIterator)
    (subset l : list (list string)) :
  Forall (is_combination cs) subset ->
  sample_loop os cs ps it subset = Ok l -> Forall (is_combination cs) l.
Proof.
  revert it subset. induction os as [|o os IH]; intros it subset Hsub;
    cbn [sample_loop]; destruct (has_next it); try discriminate.
  - now intros [= <-].
  - destruct (next o it) as [[r it']|]; cbn [bind]; [|discriminate].
    destruct (entry_at_ps cs r ps) as [c|] eqn:Hc; cbn [bind];
      [|discriminate].
    apply IH. apply Forall_app. split; [exact Hsub|].
    constructor; [exact (entry_at_ps_Ok _ _ _ _ Hc) | constructor].
  - now intros [= <-].
Qed.

(** X22. Whatever the domains, the index, the sample size and the
    draws are - also where the products have wrapped or the quotient
    has been rounded - a result of [entry_at] or [generate_samples] is
    made of combinations of the product: each has one symbol of every
    domain, in the order of the domains.  A returned [entry_at] was
    moreover asked for an index within the computed size. *)
Theorem results_are_combinations (cs : list (list string)) :
  (forall index comb,
      entry_at cs index = Ok comb ->
      is_combination cs comb /\ 0 <= index < compute_max_size cs)
  /\ (forall sample_size os l,
        generate_samples cs sample_size os = Ok l ->
        Forall (is_combination cs) l).
Proof.
  split.
  - intros index comb. unfold entry_at, precompute.
    destruct (size cs =? 0); cbn [bind max_size]; [discriminate|].
    destruct (index <? 0) eqn:E1; [discriminate|].
    destruct (compute_max_size cs <=? index) eqn:E2; [discriminate|].
    cbn [orb]. intros H. bool_Z. split; [|lia].
    exact (entry_at_ps_Ok _ _ _ _ H).
  - intros k os l. unfold generate_samples.
    destruct (size cs =? 0); [discriminate|].
    destruct (precompute cs) as [ps|]; cbn [bind]; [|discriminate].
    destruct (negb (k =? max_size ps));
      (destruct (reserve k); cbn [bind]; [|discriminate]).
    + apply sample_loop_Ok. constructor.
    + rewrite full_loop_mapM. intros H. apply mapM_Ok_inv in H.
      apply List.Forall_forall. intros comb Hin.
      apply list_elem_of_In, list_elem_of_lookup_1 in Hin as [j Hj].
      destruct (Forall2_lookup_r _ _ _ _ _ H Hj) as (i & _ & Hi).
      exact (entry_at_ps_Ok _ _ _ _ Hi).
Qed.

(** X20. The exceptions of the library that [generate_samples] throws:
    [empty_list_error], exactly when the list of domains is empty, and
    no other one.  Whatever the domains, the sample size and the draws,
    it throws neither [invalid_sample_size_error], nor [index_error],
    nor [empty_answers_error], nor the [std::out_of_range] of
    [RandomIterator::next]. *)
Theorem generate_samples_library_errors (cs : list (list string)) (k : Z)
    (os : list Z) :
  (generate_samples cs k os = Err empty_list_error <-> cs = [])
  /\ generate_samples cs k os <> Err invalid_sample_size_error
  /\ generate_samples cs k os <> Err index_error
  /\ generate_samples cs k os <> Err empty_answers_error
  /\ generate_samples cs k os <> Err out_of_range.
Proof.
  split; [split|].
  - intros H. apply generate_samples_Err in H.
    destruct H as [[_ H]|[[H _]|[H|H]]]; [exact H | discriminate..].
  - intros ->. reflexivity.
  - repeat split; intros H; apply generate_samples_Err in H;
      destruct H as [[H _]|[[H _]|[H|H]]]; discriminate.
Qed.

(** ** Version 1.3: the sample drawn as a set of indices *)

(** *** The set of candidates *)

Lemma set_insert_In (x y : Z) (s : list Z) :
  In y (set_insert x s) <-> y = x \/ In y s.
Proof.
  induction s as [|z s IH]; cbn [set_insert].
  - simpl. intuition.
  - destruct (x <? z) eqn:E1; [simpl; intuition|].
    destruct (x =? z) eqn:E2.
    + bool_Z. subst. simpl. intuition.
    + simpl. rewrite IH. intuition.
Qed.

Lemma set_insert_HdRel (b x : Z) (s : list Z) :
  HdRel Z.lt b s -> b < x -> HdRel Z.lt b (set_insert x s).
Proof.
  intros H Hb. destruct s as [|z s]; cbn [set_insert];
    [constructor; exact Hb|].
  inversion H; subst.
  destruct (x <? z); [constructor; exact Hb|].
  destruct (x =? z); constructor; assumption.
Qed.

Lemma set_insert_increasing (x : Z) (s : list Z) :
  increasing s -> increasing (set_insert x s).
Proof.
  unfold increasing. induction 1 as [|z s Hs IH Hhd]; cbn [set_insert].
  - repeat constructor.
  - destruct (x <? z) eqn:E1.
    + bool_Z. constructor; [constructor; assumption | constructor; exact E1].
    + destruct (x =? z) eqn:E2; [constructor; assumption|].
      bool_Z. constructor; [exact IH|].
      apply set_insert_HdRel; [exact Hhd | lia].
Qed.

Lemma set_insert_length (x : Z) (s : list Z) :
  (length s <= length (set_insert x s) <= S (length s))%nat.
Proof.
  induction s as [|z s IH]; cbn [set_insert]; [simpl; lia|].
  destruct (x <? z); [simpl; lia|]. destruct (x =? z); simpl; lia.
Qed.

(** All the draws, inserted one after the other. *)
Lemma inserts_In (os c : list Z) (y : Z) :
  In y (fold_left (fun s o => set_insert o s) os c) <-> In y c \/ In y os.
Proof.
  revert c. induction os as [|o os IH]; intros c; cbn [fold_left].
  - simpl. intuition.
  - rewrite IH, set_insert_In. simpl. intuition.
Qed.

(** A set that holds [ds] has at least as many elements as [ds] has
    different ones. *)
Lemma distinct_draws_length (os ds : list Z) :
  NoDup ds -> (forall d, In d ds -> In d os) ->
  (length ds
   <= length (fold_left (fun s o => set_insert o s) os []))%nat.
Proof.
  intros Hnd Hsub. apply submseteq_length, NoDup_submseteq; [exact Hnd|].
  intros x Hx. apply list_elem_of_In. apply inserts_In. right.
  apply Hsub. now apply list_elem_of_In.
Qed.

(** *** The loop of [generate_random_indices] *)

Lemma candidates_loop_defined (os : list Z) (k : Z) (c : list Z) :
  k <= size (fold_left (fun s o => set_insert o s) os c) ->
  exists l, candidates_loop os k c = Ok l.
Proof.
  revert c. induction os as [|o os IH]; intros c Hk;
    cbn [candidates_loop fold_left] in *;
    destruct (size c <? k) eqn:E; eauto.
  bool_Z. lia.
Qed.

Lemma candidates_loop_result (os : list Z) (k : Z) (c l : list Z) :
  increasing c -> size c <= k -> candidates_loop os k c = Ok l ->
  increasing l /\ size l = k /\ forall x, In x l -> In x c \/ In x os.
Proof.
  revert c. induction os as [|o os IH]; intros c Hinc Hsize;
    cbn [candidates_loop]; destruct (size c <? k) eqn:E;
    try discriminate; bool_Z.
  - intros [= <-]. split; [exact Hinc|]. split; [lia|]. now left.
  - intros Hl. destruct (IH _ (set_insert_increasing o c Hinc)
                           ltac:(pose proof (set_insert_length o c);
                                 unfold size in *; lia) Hl)
      as (H1 & H2 & H3).
    split; [exact H1|]. split; [exact H2|].
    intros x Hx. destruct (H3 x Hx) as [Hin|Hin]; [|right; now right].
    apply set_insert_In in Hin as [->|Hin]; [right; now left | now left].
  - intros [= <-]. split; [exact Hinc|]. split; [lia|]. now left.
Qed.

Lemma candidates_loop_Err (os : list Z) (k : Z) (c : list Z) (e : error) :
  candidates_loop os k c = Err e -> e = no_more_draws.
Proof.
  revert c. induction os as [|o os IH]; intros c; cbn [candidates_loop];
    destruct (size c <? k); try discriminate.
  - now intros [= <-].
  - apply IH.
Qed.

(** The indices returned when the draws hold enough different values. *)
Lemma generate_random_indices_run (k m : Z) (os ds : list Z) :
  0 <= k <= m -> m < 2 ^ 64 ->
  forallb (valid_index_draw m) os = true ->
  NoDup ds -> (forall d, In d ds -> In d os) -> k <= size ds ->
  exists l,
    generate_random_indices k m os = Ok l
    /\ length l = Z.to_nat k
    /\ increasing l
    /\ NoDup l
    /\ Forall (fun i => 0 <= i < m /\ In i os) l.
Proof.
  intros Hk Hm Hos Hnd Hsub Hds. unfold generate_random_indices.
  destruct (m <? k) eqn:E; [bool_Z; lia|].
  destruct (candidates_loop_defined os k []) as [l Hl].
  { pose proof (distinct_draws_length os ds Hnd Hsub). unfold size in *. lia. }
  destruct (candidates_loop_result os k [] l ltac:(constructor)
              ltac:(unfold size; simpl; lia) Hl) as (Hinc & Hsize & Hin).
  exists l. split; [exact Hl|]. split; [unfold size in Hsize; lia|].
  split; [exact Hinc|]. split; [now apply increasing_NoDup|].
  apply List.Forall_forall. intros i Hi.
  destruct (Hin i Hi) as [[]|Hio]. split; [|exact Hio].
  assert (0 < k) as Hpos.
  { destruct l; [destruct Hi|]. unfold size in Hsize. cbn [length] in Hsize.
    lia. }
  apply (proj1 (forallb_forall _ _) Hos) in Hio. unfold valid_index_draw in Hio.
  apply andb_prop in Hio as [H1 H2]. bool_Z.
  rewrite ull_small in H2 by lia. lia.
Qed.

(** X9. [generate_random_indices] of version 1.3, asked for [k] of the
    [m] indices, [k <= m < 2^64]: when the random engine, whose draws
    lie in [0, m - 1], gives at least [k] different values, the function
    returns exactly [k] indices in strictly increasing order, hence
    pairwise distinct, each one of the values drawn and each a valid
    index, between 0 and [m - 1]. *)
Theorem generate_random_indices_distinct (k m : Z) (os ds : list Z) :
  0 <= k <= m -> m < 2 ^ 64 ->
  forallb (valid_index_draw m) os = true ->
  NoDup ds -> (forall d, In d ds -> In d os) -> k <= size ds ->
  exists l,
    generate_random_indices k m os = Ok l
    /\ length l = Z.to_nat k
    /\ increasing l
    /\ NoDup l
    /\ Forall (fun i => 0 <= i < m /\ In i os) l.
Proof. apply generate_random_indices_run. Qed.

Lemma fold_entries_Err (cs : list (list string)) (ps : precomputed_stats)
    (l : list Z) (e : error) :
  fold_left (fun acc i => let* subset := acc in
                          let* c := entry_at_ps cs i ps in
                          Ok (subset ++ [c])) l (Ok [])
  = Err e ->
  e = undefined_behaviour.
Proof.
  rewrite fold_push_mapM.
  destruct (mapM _ l) as [bs|e'] eqn:Hm; cbn [bind]; [discriminate|].
  intros [= <-]. apply mapM_Err in Hm as (i & _ & Hi).
  exact (entry_at_ps_Err _ _ _ _ Hi).
Qed.

(** X10. Version 1.3 rejects a sample larger than the space:
    [generate_random_indices] throws [invalid_sample_size_error] exactly
    when the sample size exceeds the number of indices, whatever the
    random engine draws, and so does [generate_samples] for a non-empty
    list of domains, where the number of indices is the size computed
    for the space. *)
Theorem sample_size_rejected_1_3 (cs : list (list string)) (k m : Z)
    (os : list Z) :
  (generate_random_indices k m os = Err invalid_sample_size_error <-> m < k)
  /\ (cs <> [] ->
      (generate_samples_1_3 cs k os = Err invalid_sample_size_error
       <-> compute_max_size cs < k)).
Proof.
  assert (forall k m, generate_random_indices k m os
                      = Err invalid_sample_size_error <-> m < k) as Hgri.
  { clear. intros k m. unfold generate_random_indices.
    destruct (m <? k) eqn:E; bool_Z.
    - split; [intros _; exact E | reflexivity].
    - split; [|lia]. intros H. apply candidates_loop_Err in H. discriminate. }
  split; [apply Hgri|]. intros Hne. unfold generate_samples_1_3.
  destruct (size cs =? 0) eqn:E.
  { bool_Z. pose proof (size_pos cs Hne). lia. }
  destruct (precompute_nonempty cs Hne) as (ps & Hps & Hmax & _).
  rewrite Hps. cbn [bind]. rewrite Hmax.
  destruct (k =? compute_max_size cs) eqn:E2; cbn [negb]; bool_Z.
  - split; [|lia]. rewrite full_loop_mapM. intros H.
    apply mapM_Err in H as (i & _ & Hi).
    apply entry_at_ps_Err in Hi. discriminate.
  - destruct (generate_random_indices k (compute_max_size cs) os)
      as [l|e] eqn:Hl; cbn [bind].
    + split.
      * intros H. apply fold_entries_Err in H. discriminate.
      * intros H. apply Hgri in H. rewrite H in Hl. discriminate.
    + rewrite <- (Hgri k (compute_max_size cs)), Hl.
      split; intros [= ->]; reflexivity.
Qed.

(** X11. The samples of version 1.3 are pairwise distinct.  On a small
    space of non-empty domains, none of which lists a symbol twice, a
    request for [k] samples, [k] below the size of the space, returns,
    when the engine gives at least [k] different values, exactly [k]
    combinations, no two of them equal: the ones the public [entry_at]
    gives for the [k] increasing indices of [generate_random_indices]. *)
Theorem generate_samples_1_3_distinct (cs : list (list string)) (k : Z)
    (os ds : list Z) :
  cs <> [] -> domains_nonempty cs -> domains_distinct cs -> small_space cs ->
  0 <= k < compute_max_size cs ->
  forallb (valid_index_draw (compute_max_size cs)) os = true ->
  NoDup ds -> (forall d, In d ds -> In d os) -> k <= size ds ->
  exists idxs l,
    generate_random_indices k (compute_max_size cs) os = Ok idxs
    /\ increasing idxs
    /\ generate_samples_1_3 cs k os = Ok l
    /\ length l = Z.to_nat k
    /\ NoDup l
    /\ Forall2 (fun i comb => 0 <= i < compute_max_size cs
                              /\ entry_at cs i = Ok comb
                              /\ is_combination cs comb) idxs l.
Proof.
  intros Hne Hdom Hnd Hsmall Hk Hos Hds Hsub Hlen.
  pose proof (small_space_max_size cs Hsmall) as Hms. rewrite Hms in *.
  pose proof (small_space_fits cs Hdom Hsmall) as Hfit.
  pose proof (precompute_fits cs Hne Hfit) as Hps.
  pose proof (prod_sizes_nonneg cs) as Hnn.
  assert (prod_sizes cs <= 2 ^ 53) as H53 by apply Hsmall.
  rewrite ull_small in Hps by lia.
  set (ps := {| divs := map (place_value cs) (seq 0 (length cs));
                mods := map size cs; max_size := prod_sizes cs |}) in *.
  destruct (generate_random_indices_run k (prod_sizes cs) os ds
              ltac:(lia) ltac:(lia) Hos Hds Hsub Hlen)
    as (idxs & Hidx & Hl & Hinc & Hnodup & Hall).
  assert (mapM (fun i => entry_at_ps cs i ps) idxs
          = Ok (map (decode_spec cs) idxs)) as Hmap.
  { apply mapM_Ok_map. intros i Hin.
    apply (proj1 (List.Forall_forall _ _) Hall) in Hin.
    apply entry_at_ps_exact; try assumption. lia. }
  exists idxs, (map (decode_spec cs) idxs).
  split; [exact Hidx|]. split; [exact Hinc|].
  split; [|split; [rewrite length_map; exact Hl|split]].
  - unfold generate_samples_1_3.
    destruct (size cs =? 0) eqn:E.
    { bool_Z. pose proof (size_pos cs Hne). lia. }
    rewrite Hps. cbn [bind max_size ps].
    destruct (k =? prod_sizes cs) eqn:E2; [bool_Z; lia|]. cbn [negb].
    rewrite Hidx. cbn [bind]. rewrite fold_push_mapM, Hmap. reflexivity.
  - apply NoDup_fmap_2_strong; [|exact Hnodup].
    intros i j Hi Hj Heq.
    apply list_elem_of_In in Hi, Hj.
    apply (proj1 (List.Forall_forall _ _) Hall) in Hi, Hj.
    apply (decode_spec_inj cs); try assumption; lia.
  - clear - Hall Hne Hdom Hsmall Hms.
    induction idxs as [|i idxs IH]; constructor.
    + apply Forall_inv in Hall. split; [lia|].
      split; [apply entry_at_decode; try assumption; lia|].
      now apply decode_spec_is_combination.
    + apply IH. exact (Forall_inv_tail Hall).
Qed.

(** ** Version 1.1: the indices are [long] *)

Lemma to_long_small (x : Z) :
  0 < ulong_bits -> 0 <= x < 2 ^ (ulong_bits - 1) -> to_long x = x.
Proof.
  intros Hw Hx. unfold to_long, ulong.
  assert (2 ^ ulong_bits = 2 * 2 ^ (ulong_bits - 1)) as Hp.
  { rewrite <- Z.pow_succ_r by lia. f_equal. lia. }
  rewrite wrap_small by lia.
  destruct (x <? 2 ^ (ulong_bits - 1)) eqn:E; [reflexivity | bool_Z; lia].
Qed.

Lemma in_long_small (x : Z) :
  0 <= x < 2 ^ (ulong_bits - 1) -> in_long x = Ok x.
Proof.
  intros Hx. unfold in_long.
  destruct (- 2 ^ (ulong_bits - 1) <=? x) eqn:E1; [|bool_Z; lia].
  destruct (x <? 2 ^ (ulong_bits - 1)) eqn:E2; [reflexivity | bool_Z; lia].
Qed.

Lemma compute_max_size_1_1_from (cs : list (list string)) (a : Z) :
  0 < ulong_bits -> domains_nonempty cs -> 0 < a ->
  a * prod_sizes cs < 2 ^ (ulong_bits - 1) ->
  fold_left (fun size_ it => to_long (size_ * size it)) cs a
  = a * prod_sizes cs.
Proof.
  intros Hw Hdom. revert a.
  induction Hdom as [|c cs Hc Hcs IH]; intros a Ha Hlim; cbn [fold_left].
  - simpl. lia.
  - change (prod_sizes (c :: cs)) with (size c * prod_sizes cs) in *.
    pose proof (size_pos c Hc) as Hs.
    pose proof (prod_sizes_pos cs Hcs) as Hp.
    rewrite to_long_small by (try assumption; nia).
    rewrite IH by nia. lia.
Qed.

Lemma compute_max_size_1_1_exact (cs : list (list string)) :
  0 < ulong_bits -> domains_nonempty cs ->
  prod_sizes cs < 2 ^ (ulong_bits - 1) ->
  compute_max_size_1_1 cs = prod_sizes cs.
Proof.
  intros Hw Hdom Hlim. unfold compute_max_size_1_1.
  rewrite compute_max_size_1_1_from by (try assumption; lia). lia.
Qed.

Lemma precompute_loop_1_1_exact (k : nat) (cs : list (list string)) (f : Z)
    (ps : precomputed_stats) :
  0 < ulong_bits -> domains_nonempty cs ->
  prod_sizes cs < 2 ^ (ulong_bits - 1) ->
  (k <= length cs)%nat ->
  length (divs ps) = length cs -> length (mods ps) = length cs ->
  f = prod_sizes (drop k cs) ->
  precompute_loop_1_1 k cs f ps
  = Ok {| divs := map (place_value cs) (seq 0 k) ++ drop k (divs ps);
          mods := map size (take k cs) ++ drop k (mods ps);
          max_size := max_size ps |}.
Proof.
  intros Hw Hdom Hlim. revert f ps.
  induction k as [|i IH]; intros f ps Hk Hld Hlm Hf.
  - cbn [precompute_loop_1_1 seq map take app]. rewrite !drop_0.
    now destruct ps.
  - destruct (lookup_lt_is_Some_2 cs i ltac:(lia)) as [c Hc].
    pose proof (Forall_lookup_1 _ _ _ _ Hdom Hc) as Hne.
    pose proof (size_pos c Hne) as Hs.
    pose proof (prod_sizes_drop_le cs i Hdom) as Hi.
    pose proof (prod_sizes_drop_le cs (S i) Hdom) as HSi.
    rewrite (drop_S _ _ _ Hc) in Hi.
    change (prod_sizes (c :: drop (S i) cs))
      with (size c * prod_sizes (drop (S i) cs)) in Hi.
    subst f. cbn [precompute_loop_1_1].
    rewrite (nth_lookup_Some _ _ _ _ Hc).
    rewrite to_long_small by (try assumption; nia).
    rewrite in_long_small by nia. cbn [bind].
    rewrite IH; cbn [divs mods max_size]; rewrite ?length_insert; try lia.
    + rewrite !drop_insert_here by lia.
      rewrite seq_S, map_app, (take_S_r _ _ _ Hc), map_app, <- !app_assoc.
      reflexivity.
    + rewrite (drop_S _ _ _ Hc).
      change (prod_sizes (c :: drop (S i) cs))
        with (size c * prod_sizes (drop (S i) cs)). lia.
Qed.

Lemma precompute_1_1_exact (cs : list (list string)) :
  0 < ulong_bits -> cs <> [] -> domains_nonempty cs ->
  prod_sizes cs < 2 ^ (ulong_bits - 1) ->
  precompute_1_1 cs
  = Ok {| divs := map (place_value cs) (seq 0 (length cs));
          mods := map size cs;
          max_size := prod_sizes cs |}.
Proof.
  intros Hw Hne Hdom Hlim. unfold precompute_1_1.
  destruct (size cs =? 0) eqn:E.
  { apply Z.eqb_eq in E. pose proof (size_pos cs Hne). lia. }
  rewrite precompute_loop_1_1_exact; cbn [divs mods max_size];
    rewrite ?length_replicate; try assumption; try lia.
  - cbn [bind divs mods].
    rewrite !drop_ge by (rewrite length_replicate; lia).
    rewrite firstn_all, !app_nil_r, compute_max_size_1_1_exact by assumption.
    reflexivity.
  - rewrite drop_all. reflexivity.
Qed.

Lemma digit_1_1_exact (n_ div md : Z) :
  0 <= n_ < 2 ^ (ulong_bits - 1) -> 0 < div -> 0 < md ->
  digit_1_1 n_ div md = Ok ((n_ / div) mod md).
Proof.
  intros Hn Hdiv Hmd. unfold digit_1_1.
  assert (0 <= n_ / div <= n_) as Hq.
  { split; [apply Z.div_pos; lia|]. apply Z.div_le_upper_bound; nia. }
  assert (0 <= (n_ / div) / md <= n_ / div) as Hq2.
  { split; [apply Z.div_pos; lia|]. apply Z.div_le_upper_bound; nia. }
  destruct (div =? 0) eqn:E; [bool_Z; lia|].
  rewrite Z.quot_div_nonneg by lia.
  rewrite in_long_small by lia. cbn [bind].
  destruct (md =? 0) eqn:E3; [bool_Z; lia|].
  rewrite Z.quot_div_nonneg by lia.
  rewrite in_long_small by lia. cbn [bind].
  now rewrite Z.rem_mod_nonneg by lia.
Qed.

Lemma cell_1_1_exact (cs : list (list string)) (n_ : Z)
    (ps : precomputed_stats) (i : nat) (c : list string) :
  divs ps = map (place_value cs) (seq 0 (length cs)) ->
  mods ps = map size cs ->
  cs !! i = Some c -> c <> [] -> 0 < place_value cs i ->
  0 <= n_ < 2 ^ (ulong_bits - 1) ->
  cell_1_1 cs n_ ps i
  = Ok (nth (Z.to_nat ((n_ / place_value cs i) mod size c)) c EmptyString).
Proof.
  intros Hd Hm Hc Hne Hpv Hn. unfold cell_1_1.
  pose proof (lookup_lt_Some _ _ _ Hc) as Hi.
  rewrite (subscript_lookup (divs ps) i (place_value cs i)).
  2:{ rewrite Hd, list_lookup_fmap, lookup_seq_lt by lia. reflexivity. }
  rewrite (subscript_lookup (mods ps) i (size c)).
  2:{ rewrite Hm, list_lookup_fmap, Hc. reflexivity. }
  cbn [bind]. pose proof (size_pos c Hne) as Hsz.
  rewrite digit_1_1_exact by (try lia; assumption). cbn [bind].
  rewrite (subscript_lookup cs i c Hc). cbn [bind].
  apply subscript_nth. apply Z.mod_pos_bound. lia.
Qed.

(** A loop that fills position [i] with [f i]. *)
Lemma fill_loop_mapM (f : nat -> result string) (len a : nat)
    (l : list string) :
  length l = (a + len)%nat ->
  fold_left
    (fun acc i => let* combination := acc in
                  let* s := f i in Ok (<[i := s]> combination))
    (seq a len) (Ok l)
  = let* ss := mapM f (seq a len) in Ok (take a l ++ ss).
Proof.
  revert a l. induction len as [|len IH]; intros a l Hl; simpl.
  - rewrite app_nil_r, take_ge by lia. reflexivity.
  - destruct (f a) as [s|e]; simpl.
    + rewrite IH by (rewrite length_insert; lia).
      destruct (mapM f (seq (S a) len)) as [ss|e]; simpl; [|reflexivity].
      rewrite (take_S_r _ _ s) by (apply list_lookup_insert_eq; lia).
      rewrite take_insert_ge by lia. now rewrite <- app_assoc.
    + apply fold_left_Err. reflexivity.
Qed.

(** Version 1.1 computes the mixed-radix digits of every index that a
    [long] holds, when the size of the space is one. *)
Lemma entry_at_ps_1_1_exact (cs : list (list string)) (n_ : Z) :
  domains_nonempty cs -> 0 <= n_ < 2 ^ (ulong_bits - 1) ->
  entry_at_ps_1_1 cs n_
    {| divs := map (place_value cs) (seq 0 (length cs));
       mods := map size cs;
       max_size := prod_sizes cs |}
  = Ok (decode_spec cs n_).
Proof.
  intros Hdom Hn. unfold entry_at_ps_1_1.
  rewrite fill_loop_mapM by (rewrite length_replicate; lia).
  rewrite take_0. cbn [app].
  rewrite (mapM_Ok_map _
             (fun i => let c := nth i cs [] in
                       nth (Z.to_nat ((n_ / place_value cs i) mod size c))
                           c EmptyString)).
  - cbn [bind]. f_equal. exact (decode_spec_seq [] cs n_).
  - intros i Hi. apply in_seq in Hi. cbn [Nat.add] in Hi.
    destruct (lookup_lt_is_Some_2 cs i ltac:(lia)) as [c Hc].
    cbn zeta. rewrite (nth_lookup_Some _ _ _ _ Hc).
    apply cell_1_1_exact; try reflexivity; try assumption.
    + exact (Forall_lookup_1 _ _ _ _ Hdom Hc).
    + unfold place_value. apply (prod_sizes_drop_le cs (S i) Hdom).
Qed.

(** X21. The range check of version 1.1 is off by one.  For a non-empty
    list of non-empty domains whose product of sizes [m] fits a [long],
    the public [entry_at] of version 1.1 throws [index_error] exactly
    for the indices below 0 and above [m]: the index [m] itself, one
    past the last combination, is accepted and decodes to the first
    symbol of every domain, as index 0 does.  Every index of [0, m)
    decodes to its mixed-radix reading; the quotient is an integer
    division, there is no bound of [2^53]. *)
Theorem entry_at_1_1_accepts_max_size (cs : list (list string)) :
  0 < ulong_bits -> cs <> [] -> domains_nonempty cs ->
  prod_sizes cs < 2 ^ (ulong_bits - 1) ->
  compute_max_size_1_1 cs = prod_sizes cs
  /\ (forall index,
        entry_at_1_1 cs index = Err index_error
        <-> (index < 0 \/ compute_max_size_1_1 cs < index))
  /\ entry_at_1_1 cs (compute_max_size_1_1 cs) = Ok (map (hd EmptyString) cs)
  /\ entry_at_1_1 cs 0 = Ok (map (hd EmptyString) cs)
  /\ (forall index, 0 <= index < compute_max_size_1_1 cs ->
        entry_at_1_1 cs index = Ok (decode_spec cs index)).
Proof.
  intros Hw Hne Hdom Hlim.
  pose proof (prod_sizes_pos cs Hdom) as Hpos.
  pose proof (precompute_1_1_exact cs Hw Hne Hdom Hlim) as Hps.
  rewrite (compute_max_size_1_1_exact cs Hw Hdom Hlim).
  assert (forall index, 0 <= index <= prod_sizes cs ->
            entry_at_1_1 cs index = Ok (decode_spec cs index)) as Hin.
  { intros index Hi. unfold entry_at_1_1. rewrite Hps. cbn [bind max_size].
    destruct (index <? 0) eqn:E1; [bool_Z; lia|].
    destruct (prod_sizes cs <? index) eqn:E2; [bool_Z; lia|]. cbn [orb].
    apply entry_at_ps_1_1_exact; [exact Hdom | lia]. }
  split; [reflexivity|]. split; [|split; [|split]].
  - intros index. split.
    + intros H. destruct (Z.lt_ge_cases index 0) as [|H0]; [now left|].
      destruct (Z.lt_ge_cases (prod_sizes cs) index) as [|H1]; [now right|].
      rewrite Hin in H by lia. discriminate.
    + intros H. unfold entry_at_1_1. rewrite Hps. cbn [bind max_size].
      destruct (index <? 0) eqn:E1; [reflexivity|].
      destruct (prod_sizes cs <? index) eqn:E2; [reflexivity|].
      bool_Z. lia.
  - rewrite Hin by lia.
    rewrite <- (decode_spec_mod cs (prod_sizes cs)) by exact Hdom.
    rewrite Z_mod_same_full. f_equal. apply decode_spec_zero.
  - rewrite Hin by lia. f_equal. apply decode_spec_zero.
  - intros index Hi. apply Hin. lia.
Qed.

End lazycp.

(** ** The build with [USE_BOOST] *)

Lemma u1024_small (x : Z) : 0 <= x < 2 ^ 1024 -> Boost.u1024 x = x.
Proof. apply wrap_small. Qed.

Lemma u1024_range (x : Z) : 0 <= Boost.u1024 x < 2 ^ 1024.
Proof. apply Z.mod_pos_bound. lia. Qed.

Lemma u1024_mul_idemp (a b : Z) :
  Boost.u1024 (Boost.u1024 a * b) = Boost.u1024 (a * b).
Proof. unfold Boost.u1024, wrap. apply Z.mul_mod_idemp_l. lia. Qed.

(** *** [boost_precompute] and [boost_compute_max_size] *)

Lemma boost_compute_max_size_wrap (cs : list (list string)) :
  Boost.boost_compute_max_size cs = Boost.u1024 (prod_sizes cs).
Proof.
  unfold Boost.boost_compute_max_size.
  change 1 with (Boost.u1024 1) at 1.
  replace (prod_sizes cs) with (1 * prod_sizes cs) by lia.
  generalize 1 as a. induction cs as [|c cs IH]; intros a; simpl.
  - f_equal. lia.
  - rewrite u1024_mul_idemp, IH. f_equal. lia.
Qed.

Lemma boost_precompute_loop_mods (k : nat) (cs : list (list string)) (f : Z)
    (ps : precomputed_stats) :
  (k <= length cs)%nat -> length (mods ps) = length cs ->
  mods (Boost.boost_precompute_loop k cs f ps)
  = map size (take k cs) ++ drop k (mods ps).
Proof.
  revert f ps. induction k as [|i IH]; intros f ps Hk Hlen; simpl.
  - reflexivity.
  - destruct (lookup_lt_is_Some_2 cs i ltac:(lia)) as [c Hc].
    rewrite IH by (simpl; rewrite ?length_insert; lia). simpl.
    rewrite drop_insert_here by lia.
    rewrite (take_S_r _ _ _ Hc), map_app, <- app_assoc. simpl.
    now rewrite (nth_lookup_Some _ _ _ _ Hc).
Qed.

Lemma boost_precompute_loop_divs (k : nat) (cs : list (list string)) (f : Z)
    (ps : precomputed_stats) :
  (k <= length cs)%nat -> length (divs ps) = length cs ->
  f = Boost.u1024 (prod_sizes (drop k cs)) ->
  divs (Boost.boost_precompute_loop k cs f ps)
  = map (fun i => Boost.u1024 (place_value cs i)) (seq 0 k)
    ++ drop k (divs ps).
Proof.
  revert f ps. induction k as [|i IH]; intros f ps Hk Hlen Hf.
  - reflexivity.
  - destruct (lookup_lt_is_Some_2 cs i ltac:(lia)) as [c Hc].
    subst f. cbn [Boost.boost_precompute_loop].
    rewrite (nth_lookup_Some _ _ _ _ Hc).
    rewrite IH; cbn [divs mods]; rewrite ?length_insert; try lia.
    + rewrite drop_insert_here by lia.
      rewrite seq_S, map_app, <- app_assoc. reflexivity.
    + rewrite (drop_S _ _ _ Hc). cbn [prod_sizes foldr].
      fold (prod_sizes (drop (S i) cs)).
      rewrite u1024_mul_idemp. f_equal. lia.
Qed.

Lemma boost_precompute_wrap (cs : list (list string)) :
  cs <> [] ->
  Boost.boost_precompute cs
  = Boost.Done
      {| divs := map (fun i => Boost.u1024 (place_value cs i))
                     (seq 0 (length cs));
         mods := map size cs;
         max_size := Boost.u1024 (prod_sizes cs) |}.
Proof.
  intros Hne. unfold Boost.boost_precompute.
  destruct (size cs =? 0) eqn:E.
  { apply Z.eqb_eq in E. pose proof (size_pos cs Hne). lia. }
  rewrite boost_precompute_loop_divs, boost_precompute_loop_mods; simpl;
    rewrite ?length_replicate; try lia.
  - rewrite !drop_ge by (rewrite length_replicate; lia).
    rewrite firstn_all, !app_nil_r, boost_compute_max_size_wrap. reflexivity.
  - rewrite drop_all. reflexivity.
Qed.

Lemma boost_precompute_exact (cs : list (list string)) :
  cs <> [] -> domains_nonempty cs -> prod_sizes cs < 2 ^ 1024 ->
  Boost.boost_precompute cs
  = Boost.Done {| divs := map (place_value cs) (seq 0 (length cs));
                  mods := map size cs;
                  max_size := prod_sizes cs |}.
Proof.
  intros Hne Hdom Hlim. rewrite boost_precompute_wrap by exact Hne.
  pose proof (prod_sizes_pos cs Hdom). rewrite u1024_small by lia.
  do 2 f_equal. apply map_ext. intros i. unfold place_value.
  pose proof (prod_sizes_drop_le cs (S i) Hdom). apply u1024_small. lia.
Qed.

(** X12. With [USE_BOOST], for every non-empty list of domains,
    whatever their sizes, [boost_precompute] returns as many place
    values and moduli as there are domains; the modulus of position [i]
    is the size of domain [i], its place value is the product of the
    sizes of the later domains reduced modulo [2^1024], and the size of
    the space, which is what [boost_compute_max_size] returns, is the
    product of all sizes modulo [2^1024]. *)
Theorem boost_precompute_modular (cs : list (list string)) :
  cs <> [] ->
  exists ps,
    Boost.boost_precompute cs = Boost.Done ps
    /\ length (divs ps) = length cs
    /\ length (mods ps) = length cs
    /\ (forall i c, cs !! i = Some c ->
          divs ps !! i = Some (prod_sizes (drop (S i) cs) mod 2 ^ 1024)
          /\ mods ps !! i = Some (size c))
    /\ max_size ps = Boost.boost_compute_max_size cs
    /\ Boost.boost_compute_max_size cs = prod_sizes cs mod 2 ^ 1024.
Proof.
  intros Hne. eexists. split; [apply boost_precompute_wrap, Hne|].
  cbn [divs mods max_size].
  split; [now rewrite length_map, length_seq|].
  split; [now rewrite length_map|].
  split; [|split; [now rewrite boost_compute_max_size_wrap
                  | apply boost_compute_max_size_wrap]].
  intros i c Hc. pose proof (lookup_lt_Some _ _ _ Hc) as Hi. split.
  - rewrite list_lookup_fmap, lookup_seq_lt by exact Hi. reflexivity.
  - rewrite list_lookup_fmap, Hc. reflexivity.
Qed.

(** *** The private [boost_entry_at] *)

Lemma boost_fold_Fail {A B : Type}
    (step : Boost.outcome A -> B -> Boost.outcome A)
    (Hstep : forall e b, step (Boost.Fail e) b = Boost.Fail e)
    (l : list B) (e : Boost.failure) :
  fold_left step l (Boost.Fail e) = Boost.Fail e.
Proof. induction l as [|b l IH]; simpl; [reflexivity|]. now rewrite Hstep. Qed.

(** The loop fills position [i] with [cell i]. *)
Lemma boost_entry_at_ps_loop (cs : list (list string)) (n_ : Z)
    (ps : precomputed_stats) (f : nat -> string) (len a : nat)
    (l : list string) :
  length l = (a + len)%nat ->
  (forall i, (a <= i < a + len)%nat ->
             Boost.cell cs n_ ps i = Boost.Done (f i)) ->
  fold_left
    (fun acc i => Boost.bind acc (fun combination =>
                  Boost.bind (Boost.cell cs n_ ps i) (fun s =>
                  Boost.Done (<[i := s]> combination))))
    (seq a len) (Boost.Done l)
  = Boost.Done (take a l ++ map f (seq a len)).
Proof.
  revert a l. induction len as [|len IH]; intros a l Hl Hf; simpl.
  - rewrite app_nil_r, take_ge by lia. reflexivity.
  - rewrite (Hf a) by lia. cbn [Boost.bind].
    rewrite IH by (rewrite ?length_insert; intros; try apply Hf; lia).
    rewrite (take_S_r _ _ (f a)) by (apply list_lookup_insert_eq; lia).
    rewrite take_insert_ge by lia. now rewrite <- app_assoc.
Qed.

Lemma boost_digit_exact (n_ div md : Z) :
  0 <= n_ -> 0 < div -> 0 < md <= 2 ^ 64 ->
  Boost.digit n_ div md = Boost.Done ((n_ / div) mod md).
Proof.
  intros Hn Hdiv Hmd. unfold Boost.digit.
  destruct (div =? 0) eqn:E; [bool_Z; lia|].
  destruct (md =? 0) eqn:E3; [bool_Z; lia|].
  rewrite ull_small; [reflexivity|].
  pose proof (Z.mod_pos_bound (n_ / div) md ltac:(lia)). lia.
Qed.

Lemma boost_cell_exact (cs : list (list string)) (n_ : Z)
    (ps : precomputed_stats) (i : nat) (c : list string) :
  divs ps = map (place_value cs) (seq 0 (length cs)) ->
  mods ps = map size cs ->
  cs !! i = Some c -> c <> [] -> size c <= 2 ^ 64 ->
  0 < place_value cs i -> 0 <= n_ ->
  Boost.cell cs n_ ps i
  = Boost.Done
      (nth (Z.to_nat ((n_ / place_value cs i) mod size c)) c EmptyString).
Proof.
  intros Hd Hm Hc Hne Hsz Hpv Hn. unfold Boost.cell.
  pose proof (lookup_lt_Some _ _ _ Hc) as Hi.
  rewrite (subscript_lookup (divs ps) i (place_value cs i)).
  2:{ rewrite Hd, list_lookup_fmap, lookup_seq_lt by lia. reflexivity. }
  rewrite (subscript_lookup (mods ps) i (size c)).
  2:{ rewrite Hm, list_lookup_fmap, Hc. reflexivity. }
  cbn [Boost.of_native Boost.bind]. pose proof (size_pos c Hne) as Hpos.
  rewrite boost_digit_exact by lia. cbn [Boost.bind].
  rewrite (subscript_lookup cs i c Hc). cbn [Boost.of_native Boost.bind].
  rewrite subscript_nth; [reflexivity|]. apply Z.mod_pos_bound. lia.
Qed.

(** Where no product wraps the loop computes the mixed-radix digits of
    every index. *)
Lemma boost_entry_at_ps_exact (cs : list (list string)) (n_ : Z) :
  domains_nonempty cs -> addressable cs -> 0 <= n_ ->
  Boost.boost_entry_at_ps cs n_
    {| divs := map (place_value cs) (seq 0 (length cs));
       mods := map size cs;
       max_size := prod_sizes cs |}
  = Boost.Done (decode_spec cs n_).
Proof.
  intros Hdom Hadr Hn. unfold Boost.boost_entry_at_ps.
  rewrite (boost_entry_at_ps_loop cs n_ _
             (fun i => let c := nth i cs [] in
                       nth (Z.to_nat ((n_ / place_value cs i) mod size c))
                           c EmptyString)).
  - rewrite take_0. cbn [app]. f_equal. exact (decode_spec_seq [] cs n_).
  - rewrite length_replicate. reflexivity.
  - intros i Hi. cbn [Nat.add] in Hi.
    destruct (lookup_lt_is_Some_2 cs i ltac:(lia)) as [c Hc].
    cbn zeta. rewrite (nth_lookup_Some _ _ _ _ Hc).
    apply boost_cell_exact; try reflexivity; try assumption.
    + exact (Forall_lookup_1 _ _ _ _ Hdom Hc).
    + exact (Forall_lookup_1 _ _ _ _ Hadr Hc).
    + unfold place_value. apply (prod_sizes_drop_le cs (S i) Hdom).
Qed.

(** X13. With [USE_BOOST] the private [boost_entry_at] is exact for every
    index.  For a non-empty list of non-empty domains, each of at most
    [2^64] symbols, whose product of sizes is below [2^1024], every
    index [n >= 0], in range or not, decodes to a combination of the
    product, and it decodes to the same combination as
    [n mod max_size]: there is no bound of [2^53], the quotient does not
    pass through [double]. *)
Theorem boost_entry_at_ps_periodic (cs : list (list string)) (n_ : Z) :
  cs <> [] -> domains_nonempty cs -> addressable cs ->
  prod_sizes cs < 2 ^ 1024 -> 0 <= n_ ->
  exists ps comb,
    Boost.boost_precompute cs = Boost.Done ps
    /\ max_size ps = prod_sizes cs
    /\ Boost.boost_entry_at_ps cs n_ ps = Boost.Done comb
    /\ is_combination cs comb
    /\ Boost.boost_entry_at_ps cs (n_ mod max_size ps) ps = Boost.Done comb.
Proof.
  intros Hne Hdom Hadr Hlim Hn.
  pose proof (prod_sizes_pos cs Hdom) as Hpos.
  eexists. exists (decode_spec cs n_).
  split; [apply boost_precompute_exact; assumption|]. cbn [max_size].
  split; [reflexivity|].
  split; [apply boost_entry_at_ps_exact; assumption|].
  split; [apply decode_spec_is_combination, Hdom|].
  rewrite boost_entry_at_ps_exact; try assumption.
  - now rewrite decode_spec_mod.
  - apply Z.mod_pos_bound. exact Hpos.
Qed.

(** X14. With [USE_BOOST] decoding is a bijection on every space below
    [2^1024].  For a non-empty list of non-empty domains, each of at
    most [2^64] symbols and none listing a symbol twice, whose product
    of sizes is below [2^1024], two different indices of [0, max_size)
    decode to different combinations, and every combination of the
    product is decoded from exactly one index of that range. *)
Theorem boost_entry_at_bijection (cs : list (list string)) :
  cs <> [] -> domains_nonempty cs -> domains_distinct cs ->
  addressable cs -> prod_sizes cs < 2 ^ 1024 ->
  exists ps,
    Boost.boost_precompute cs = Boost.Done ps
    /\ max_size ps = prod_sizes cs
    /\ (forall i j, 0 <= i < max_size ps -> 0 <= j < max_size ps ->
          Boost.boost_entry_at_ps cs i ps = Boost.boost_entry_at_ps cs j ps ->
          i = j)
    /\ (forall comb, is_combination cs comb ->
          exists i, 0 <= i < max_size ps
                    /\ Boost.boost_entry_at_ps cs i ps = Boost.Done comb
                    /\ forall j, 0 <= j < max_size ps ->
                         Boost.boost_entry_at_ps cs j ps = Boost.Done comb ->
                         j = i).
Proof.
  intros Hne Hdom Hnd Hadr Hlim.
  eexists. split; [apply boost_precompute_exact; assumption|].
  cbn [max_size]. split; [reflexivity|]. split.
  - intros i j Hi Hj.
    rewrite !boost_entry_at_ps_exact by (try assumption; lia).
    intros [= Heq]. apply (decode_spec_inj cs); assumption.
  - intros comb Hcomb.
    destruct (decode_spec_surj cs comb Hdom Hcomb) as (i & Hi & Heq).
    exists i. split; [exact Hi|].
    split; [rewrite boost_entry_at_ps_exact by (try assumption; lia);
            now rewrite Heq|].
    intros j Hj. rewrite boost_entry_at_ps_exact by (try assumption; lia).
    intros [= Hj']. apply (decode_spec_inj cs); try assumption.
    now rewrite Heq.
Qed.

(** *** The public [boost_entry_at] *)

(** X15. What the public [boost_entry_at] returns.  For a non-empty
    list of non-empty domains, each of at most [2^64] symbols, whose
    product of sizes is below [2^1024]:
    a string that [uint1024_t] cannot read gives [std::runtime_error];
    a number at or above [max_size] gives [index_error]; any other
    number [v] gives the combination whose symbol at each position is
    the one of rank [(v / placeValue) mod size], whatever the size of
    [v].  For the empty list [empty_answers_error] is thrown before the
    string is read. *)
Theorem boost_entry_at_outcome (read : string -> option Z)
    (cs : list (list string)) (index : string) :
  Boost.boost_entry_at read [] index
  = Boost.Fail (Boost.common empty_answers_error)
  /\ (cs <> [] -> domains_nonempty cs -> addressable cs ->
      prod_sizes cs < 2 ^ 1024 ->
      Boost.boost_entry_at read cs index
      = match read index with
        | None => Boost.Fail Boost.runtime_error
        | Some v =>
            if Boost.u1024 v <? prod_sizes cs
            then Boost.Done (decode_spec cs (Boost.u1024 v))
            else Boost.Fail (Boost.common index_error)
        end).
Proof.
  split; [reflexivity|]. intros Hne Hdom Hadr Hlim.
  unfold Boost.boost_entry_at.
  rewrite boost_precompute_exact by assumption.
  cbn [Boost.bind max_size]. unfold Boost.parse.
  destruct (read index) as [v|]; cbn [Boost.bind]; [|reflexivity].
  pose proof (u1024_range v) as Hv.
  destruct (Boost.u1024 v <? 0) eqn:E1; [bool_Z; lia|]. cbn [orb].
  rewrite Z.leb_antisym.
  destruct (Boost.u1024 v <? prod_sizes cs) eqn:E2; cbn [negb];
    [|reflexivity].
  apply boost_entry_at_ps_exact; try assumption. lia.
Qed.

(** X16. The two builds agree on small spaces.  For a non-empty list of
    non-empty domains whose space is small for the native build (at most
    [2^53] combinations, fitting [unsigned long]), [boost_entry_at] on a
    string read as the number [i] does what the native [entry_at] does
    on [i]: the same combination, or [index_error] for both. *)
Theorem boost_entry_at_agrees (ulong_bits : Z) (read : string -> option Z)
    (cs : list (list string)) (index : string) (i : Z) :
  cs <> [] -> domains_nonempty cs -> small_space ulong_bits cs ->
  read index = Some i -> 0 <= i < 2 ^ 1024 ->
  Boost.boost_entry_at read cs index
  = Boost.of_native (entry_at ulong_bits cs i).
Proof.
  intros Hne Hdom Hsmall Hread Hi.
  pose proof (prod_sizes_pos cs Hdom) as Hpos.
  assert (prod_sizes cs <= 2 ^ 53) as H53 by apply Hsmall.
  assert (addressable cs) as Hadr.
  { apply Forall_lookup_2. intros k c Hc.
    pose proof (prod_sizes_drop_le cs k Hdom) as Hk.
    pose proof (prod_sizes_drop_le cs (S k) Hdom) as Hk'.
    rewrite (drop_S _ _ _ Hc) in Hk.
    change (prod_sizes (c :: drop (S k) cs))
      with (size c * prod_sizes (drop (S k) cs)) in Hk. nia. }
  unfold Boost.boost_entry_at.
  rewrite boost_precompute_exact by (try assumption; lia).
  cbn [Boost.bind max_size]. unfold Boost.parse. rewrite Hread.
  cbn [Boost.bind]. rewrite u1024_small by exact Hi.
  destruct (Z.lt_ge_cases i (prod_sizes cs)) as [Hlt|Hge].
  - rewrite (entry_at_decode ulong_bits cs i) by (try assumption; lia).
    destruct (i <? 0) eqn:E1; [bool_Z; lia|].
    destruct (prod_sizes cs <=? i) eqn:E2; [bool_Z; lia|]. cbn [orb].
    rewrite boost_entry_at_ps_exact by (try assumption; lia). reflexivity.
  - unfold entry_at.
    rewrite (precompute_fits ulong_bits cs Hne
               (small_space_fits ulong_bits cs Hdom Hsmall)).
    cbn [bind max_size]. rewrite ull_small by lia.
    destruct (i <? 0) eqn:E1; [bool_Z; lia|].
    destruct (prod_sizes cs <=? i) eqn:E2; [|bool_Z; lia]. reflexivity.
Qed.

(** *** The sampler *)

Lemma boost_next_step (o : Z) (it : RandomIterator) :
  Boost.sampler_inv it -> 0 < num_left it -> Boost.valid_draw it o = true ->
  exists r,
    Boost.next o it
    = Boost.Done (r, {| n := n it; last_k := r;
                        num_left := num_left it - 1 |})
    /\ last_k it < r <= n it + 1
    /\ Boost.sampler_inv
         {| n := n it; last_k := r; num_left := num_left it - 1 |}.
Proof.
  intros (Hk & Hm & Hsum & Hn) Hpos Hv.
  assert (Boost.u1024 (n it - last_k it) = n it - last_k it) as Hd
    by (apply u1024_small; lia).
  unfold Boost.valid_draw, Boost.range_size in Hv. rewrite Hd in Hv.
  apply andb_prop in Hv as [Ho1 Ho2]. bool_Z.
  assert ((n it - last_k it) / num_left it + num_left it
          <= n it - last_k it + 1) as Hq.
  { pose proof (Z.mul_div_le (n it - last_k it) (num_left it) Hpos). nia. }
  exists (o + last_k it + 1). unfold Boost.next.
  destruct (0 <? num_left it) eqn:E1; [|bool_Z; lia].
  rewrite !u1024_small by lia.
  split; [reflexivity|]. split; [lia|].
  unfold Boost.sampler_inv. simpl. lia.
Qed.

Lemma boost_nexts_run (os : list Z) (it : RandomIterator) :
  Boost.sampler_inv it -> length os = Z.to_nat (num_left it) ->
  Boost.valid_draws os it = true ->
  exists vs it',
    Boost.nexts os it = Boost.Done (vs, it')
    /\ length vs = length os
    /\ Forall (fun v => last_k it < v <= n it + 1) vs
    /\ increasing vs
    /\ num_left it' = 0.
Proof.
  revert it. induction os as [|o os IH]; intros it Hinv Hlen Hv.
  - exists [], it. simpl in *. destruct Hinv as (_ & Hm & _).
    repeat split; try constructor. lia.
  - simpl in Hlen. cbn [Boost.valid_draws] in Hv.
    apply andb_prop in Hv as [Hvo Hv].
    destruct (boost_next_step o it Hinv ltac:(lia) Hvo)
      as (r & Hnext & Hr & Hinv1).
    rewrite Hnext in Hv. cbn [Boost.nexts]. rewrite Hnext. simpl.
    destruct (IH _ Hinv1 ltac:(simpl; lia) Hv)
      as (vs & it' & Hrun & Hl & Hall & Hinc & Hend).
    rewrite Hrun. simpl in *. exists (r :: vs), it'.
    split; [reflexivity|]. split; [simpl; lia|]. split; [|split; [|exact Hend]].
    + constructor; [exact Hr|].
      eapply Forall_impl; [exact Hall|]. simpl. intros v Hvv. lia.
    + apply increasing_cons; [|exact Hinc].
      eapply Forall_impl; [exact Hall|]. simpl. intros v Hvv. lia.
Qed.

(** X17. The sampler of the build with [USE_BOOST].  For every [k] and
    [N] with [0 <= k <= N < 2^1024 - 1] and any draws within the bounds
    of their distributions, the sampler created with [(k, N)] returns
    exactly [k] values, strictly increasing, hence distinct, all between
    1 and [N + 1]; then [has_next] is false and a further [next] throws
    [std::out_of_range].  The distribution is over [uint1024_t]: no
    bound is narrowed to [int]. *)
Theorem boost_sampler_draws (k N : Z) (os : list Z) :
  0 <= k <= N -> N < 2 ^ 1024 - 1 -> length os = Z.to_nat k ->
  Boost.valid_draws os (Boost.RandomIterator_new k N) = true ->
  exists vs it',
    Boost.nexts os (Boost.RandomIterator_new k N) = Boost.Done (vs, it')
    /\ length vs = Z.to_nat k
    /\ increasing vs
    /\ NoDup vs
    /\ Forall (fun v => 1 <= v <= N + 1) vs
    /\ Boost.has_next it' = false
    /\ forall o, Boost.next o it' = Boost.Fail (Boost.common out_of_range).
Proof.
  intros Hk HN Hlen Hv.
  assert (Boost.sampler_inv (Boost.RandomIterator_new k N)) as Hinv
    by (unfold Boost.sampler_inv; simpl; lia).
  destruct (boost_nexts_run os _ Hinv Hlen Hv)
    as (vs & it' & Hrun & Hl & Hall & Hinc & Hend).
  exists vs, it'. split; [exact Hrun|]. split; [lia|].
  split; [exact Hinc|]. split; [now apply increasing_NoDup|].
  split.
  { eapply Forall_impl; [exact Hall|]. simpl. intros v Hvv. lia. }
  unfold Boost.has_next, Boost.next. rewrite Hend. split; reflexivity.
Qed.

(** *** [boost_generate_samples] *)

Lemma boost_fold_push (cs : list (list string)) (ps : precomputed_stats)
    (g : Z -> list string) (l : list Z) (acc : list (list string)) :
  (forall i, In i l -> Boost.boost_entry_at_ps cs i ps = Boost.Done (g i)) ->
  fold_left
    (fun r i => Boost.bind r (fun subset =>
                Boost.bind (Boost.boost_entry_at_ps cs i ps) (fun c =>
                Boost.Done (subset ++ [c]))))
    l (Boost.Done acc)
  = Boost.Done (acc ++ map g l).
Proof.
  revert acc. induction l as [|i l IH]; intros acc Hl; simpl.
  - now rewrite app_nil_r.
  - rewrite (Hl i (or_introl eq_refl)). cbn [Boost.bind].
    rewrite IH by (intros j Hj; apply Hl; now right).
    now rewrite <- app_assoc.
Qed.

Lemma boost_sample_loop_run (os : list Z) (cs : list (list string))
    (ps : precomputed_stats) (g : Z -> list string) (it : RandomIterator) :
  Boost.sampler_inv it -> length os = Z.to_nat (num_left it) ->
  Boost.valid_draws os it = true ->
  (forall v, last_k it < v <= n it + 1 ->
             Boost.boost_entry_at_ps cs v ps = Boost.Done (g v)) ->
  exists vs it',
    Boost.nexts os it = Boost.Done (vs, it')
    /\ forall subset,
         Boost.sample_loop os cs ps it subset
         = Boost.Done (subset ++ map g vs).
Proof.
  revert it. induction os as [|o os IH]; intros it Hinv Hlen Hv Hg.
  - exists [], it. split; [reflexivity|]. intros subset. simpl in *.
    destruct Hinv as (_ & Hm & _). unfold Boost.has_next.
    destruct (0 <? num_left it) eqn:E; [bool_Z; lia|].
    now rewrite app_nil_r.
  - simpl in Hlen. cbn [Boost.valid_draws] in Hv.
    apply andb_prop in Hv as [Hvo Hv].
    destruct (boost_next_step o it Hinv ltac:(lia) Hvo)
      as (r & Hnext & Hr & Hinv1).
    rewrite Hnext in Hv.
    destruct (IH _ Hinv1 ltac:(simpl; lia) Hv) as (vs & it' & Hrun & Hloop).
    { cbn [n last_k]. intros v Hvv. apply Hg. lia. }
    exists (r :: vs), it'. split.
    + cbn [Boost.nexts]. rewrite Hnext. cbn [Boost.bind]. rewrite Hrun.
      reflexivity.
    + intros subset. cbn [Boost.sample_loop]. unfold Boost.has_next.
      destruct (0 <? num_left it) eqn:E; [|bool_Z; lia].
      rewrite Hnext. cbn [Boost.bind]. rewrite (Hg r Hr). cbn [Boost.bind].
      rewrite Hloop. cbn [map]. now rewrite <- app_assoc.
Qed.

(** X18. The full sample of the build with [USE_BOOST].  A string that
    [uint1024_t] cannot read gives [std::runtime_error], before the list
    of domains is looked at; a readable one with the empty list gives
    [empty_list_error].  For a non-empty list of non-empty domains,
    each of at most [2^64] symbols and none listing a symbol twice,
    whose product of sizes is below [2^1024], a string read as the size
    of the space gives, whatever the draws, the decoding of the indices
    [0 .. max_size - 1] in order, which lists every combination of the
    product exactly once. *)
Theorem boost_generate_samples_full (read : string -> option Z)
    (cs : list (list string)) (sample_size : string) (os : list Z) :
  (read sample_size = None ->
   Boost.boost_generate_samples read cs sample_size os
   = Boost.Fail Boost.runtime_error)
  /\ (read sample_size <> None ->
      Boost.boost_generate_samples read [] sample_size os
      = Boost.Fail (Boost.common empty_list_error))
  /\ (cs <> [] -> domains_nonempty cs -> domains_distinct cs ->
      addressable cs -> prod_sizes cs < 2 ^ 1024 ->
      read sample_size = Some (prod_sizes cs) ->
      exists l,
        Boost.boost_generate_samples read cs sample_size os = Boost.Done l
        /\ l = map (decode_spec cs) (indices (prod_sizes cs))
        /\ NoDup l
        /\ forall comb, In comb l <-> is_combination cs comb).
Proof.
  unfold Boost.boost_generate_samples, Boost.parse. split; [|split].
  - intros ->. reflexivity.
  - destruct (read sample_size); [reflexivity | congruence].
  - intros Hne Hdom Hnd Hadr Hlim ->.
    pose proof (prod_sizes_pos cs Hdom) as Hpos.
    cbn [Boost.bind]. rewrite u1024_small by lia.
    destruct (size cs =? 0) eqn:E.
    { bool_Z. pose proof (size_pos cs Hne). lia. }
    rewrite boost_precompute_exact by assumption.
    cbn [Boost.bind max_size]. rewrite Z.eqb_refl. cbn [negb].
    exists (map (decode_spec cs) (indices (prod_sizes cs))).
    split; [|split; [reflexivity|split]].
    + unfold Boost.full_loop. fold (indices (prod_sizes cs)).
      rewrite (boost_fold_push cs _ (decode_spec cs)); [reflexivity|].
      intros i Hi. apply (proj1 (In_indices _ _)) in Hi.
      apply boost_entry_at_ps_exact; try assumption. lia.
    + apply NoDup_fmap_2_strong; [|apply NoDup_indices].
      intros i j Hi Hj Heq.
      apply list_elem_of_In in Hi, Hj.
      apply (proj1 (In_indices _ _)) in Hi, Hj.
      apply (decode_spec_inj cs); try assumption; lia.
    + intros comb. rewrite in_map_iff. split.
      * intros (i & <- & _). apply decode_spec_is_combination, Hdom.
      * intros Hcomb.
        destruct (decode_spec_surj cs comb Hdom Hcomb) as (i & Hi & Heq).
        exists i. split; [exact Heq|]. apply In_indices. lia.
Qed.

(** X19. A proper sample of the build with [USE_BOOST].  For a non-empty
    list of non-empty domains, each of at most [2^64] symbols, whose
    product of sizes [m] is below [2^1024 - 1], a string read as [k],
    with [0 <= k < m] and as many draws, gives for
    draws within bounds [k] combinations, one for each of the [k]
    increasing values [v] of the sampler, in their order: the
    combination of index [v mod m].  The values lie in [1, m + 1]. *)
Theorem boost_generate_samples_entries (read : string -> option Z)
    (cs : list (list string)) (sample_size : string) (k : Z) (os : list Z) :
  cs <> [] -> domains_nonempty cs -> addressable cs ->
  prod_sizes cs < 2 ^ 1024 - 1 ->
  read sample_size = Some k -> 0 <= k < prod_sizes cs ->
  length os = Z.to_nat k ->
  Boost.valid_draws os (Boost.RandomIterator_new k (prod_sizes cs)) = true ->
  exists vs it',
    Boost.nexts os (Boost.RandomIterator_new k (prod_sizes cs))
    = Boost.Done (vs, it')
    /\ length vs = Z.to_nat k
    /\ increasing vs
    /\ Forall (fun v => 1 <= v <= prod_sizes cs + 1) vs
    /\ Boost.boost_generate_samples read cs sample_size os
       = Boost.Done (map (fun v => decode_spec cs (v mod prod_sizes cs)) vs).
Proof.
  intros Hne Hdom Hadr Hlim Hread Hk Hlen Hv.
  assert (Boost.sampler_inv (Boost.RandomIterator_new k (prod_sizes cs)))
    as Hinv by (unfold Boost.sampler_inv; simpl; lia).
  destruct (boost_nexts_run os _ Hinv Hlen Hv)
    as (vs & it' & Hrun & Hl & Hall & Hinc & _).
  cbn [Boost.RandomIterator_new n last_k] in Hall.
  destruct (boost_sample_loop_run os cs
              {| divs := map (place_value cs) (seq 0 (length cs));
                 mods := map size cs; max_size := prod_sizes cs |}
              (fun v => decode_spec cs (v mod prod_sizes cs))
              _ Hinv Hlen Hv)
    as (vs' & it'' & Hrun' & Hloop).
  { cbn [Boost.RandomIterator_new n last_k]. intros v Hvv.
    rewrite boost_entry_at_ps_exact by (try assumption; lia).
    now rewrite decode_spec_mod. }
  rewrite Hrun in Hrun'. injection Hrun' as <- <-.
  exists vs, it'. split; [exact Hrun|]. split; [lia|].
  split; [exact Hinc|]. split.
  { eapply Forall_impl; [exact Hall|]. cbn beta. intros v Hvv. lia. }
  unfold Boost.boost_generate_samples, Boost.parse. rewrite Hread.
  cbn [Boost.bind]. rewrite u1024_small by lia.
  destruct (size cs =? 0) eqn:E.
  { bool_Z. pose proof (size_pos cs Hne). lia. }
  rewrite boost_precompute_exact by (try assumption; lia).
  cbn [Boost.bind max_size].
  destruct (k =? prod_sizes cs) eqn:E2; [bool_Z; lia|]. cbn [negb].
  rewrite Hloop. reflexivity.
Qed.

(** ** The scenario of the pizza menu *)

Example pizza_space :
  precompute 64 pizza = Ok {| divs := [2; 1]; mods := [2; 2]; max_size := 4 |}.
Proof. reflexivity. Qed.

Example pizza_first : entry_at 64 pizza 0 = Ok ["Thin"; "Marinara"]%string.
Proof. reflexivity. Qed.

Example pizza_last : entry_at 64 pizza 3 = Ok ["Thick"; "BBQ"]%string.
Proof. reflexivity. Qed.

Example pizza_out_of_range :
  entry_at 64 pizza 4 = Err index_error
  /\ entry_at 64 pizza (-1) = Err index_error.
Proof. split; reflexivity. Qed.

Example pizza_full_sample :
  generate_samples 64 pizza 4 []
  = Ok [["Thin"; "Marinara"]; ["Thin"; "BBQ"];
        ["Thick"; "Marinara"]; ["Thick"; "BBQ"]]%string.
Proof. reflexivity. Qed.

Example pizza_sample_of_two :
  generate_samples 64 pizza 2 [1; 0]
  = Ok [["Thick"; "Marinara"]; ["Thick"; "BBQ"]]%string.
Proof. reflexivity. Qed.

(** ** Where the specification and the code part ways *)


Lemma binary_nonempty (len : nat) : domains_nonempty (binary len).
Proof. apply Forall_replicate. discriminate. Qed.

Lemma binary_distinct (len : nat) : domains_distinct (binary len).
Proof.
  apply Forall_replicate. constructor.
  - rewrite list_elem_of_singleton. discriminate.
  - constructor; [apply not_elem_of_nil | constructor].
Qed.

Lemma indices_lookup (k i : Z) :
  0 <= i < k -> indices k !! Z.to_nat i = Some i.
Proof.
  intros H. unfold indices.
  rewrite list_lookup_fmap, lookup_seq_lt by lia. simpl. f_equal. lia.
Qed.

Lemma indices_first (k : Z) : 0 < k -> exists rest, indices k = 0 :: rest.
Proof.
  intros H. unfold indices. destruct (Z.to_nat k) as [|m] eqn:E; [lia|].
  eexists. reflexivity.
Qed.

(** With 54 domains of two symbols, the indices [2^53] and [2^53 + 1]
    decode alike: the quotient of the last position is rounded by
    [floor]. *)
Lemma binary_54_collision :
  exists ps comb,
    precompute 64 (binary 54) = Ok ps /\ max_size ps = 2 ^ 54
    /\ entry_at_ps (binary 54) (2 ^ 53) ps = Ok comb
    /\ entry_at_ps (binary 54) (2 ^ 53 + 1) ps = Ok comb.
Proof. split_eval. Qed.

(** With a 32-bit [unsigned long], 33 domains of two symbols make the first
    place value wrap to 0, and decoding divides by it. *)
Lemma binary_33_division_by_zero :
  exists ps,
    precompute 32 (binary 33) = Ok ps /\ max_size ps = 2 ^ 33
    /\ prod_sizes (drop 1 (binary 33)) = 2 ^ 32
    /\ divs ps !! 0%nat = Some 0
    /\ entry_at_ps (binary 33) 0 ps = Err undefined_behaviour.
Proof. split_eval. Qed.

(** C1, as stated, fails: a domain that repeats a symbol gives two indices
    the same combination; in a space of [2^54] combinations the indices
    [2^53] and [2^53 + 1] decode alike; and where [unsigned long] has 32
    bits a space of [2^33] combinations has no decoding at all. *)
Lemma entry_at_collisions :
  (exists ps comb,
      precompute 64 twice_a = Ok ps /\ max_size ps = 2
      /\ entry_at_ps twice_a 0 ps = Ok comb
      /\ entry_at_ps twice_a 1 ps = Ok comb)
  /\ (domains_nonempty (binary 54) /\ domains_distinct (binary 54)
      /\ exists ps comb,
           precompute 64 (binary 54) = Ok ps /\ max_size ps = 2 ^ 54
           /\ entry_at_ps (binary 54) (2 ^ 53) ps = Ok comb
           /\ entry_at_ps (binary 54) (2 ^ 53 + 1) ps = Ok comb)
  /\ (domains_nonempty (binary 33) /\ domains_distinct (binary 33)
      /\ exists ps,
           precompute 32 (binary 33) = Ok ps /\ max_size ps = 2 ^ 33
           /\ entry_at_ps (binary 33) 0 ps = Err undefined_behaviour).
Proof.
  split; [split_eval|]. split.
  - split; [apply binary_nonempty|]. split; [apply binary_distinct|].
    exact binary_54_collision.
  - split; [apply binary_nonempty|]. split; [apply binary_distinct|].
    destruct binary_33_division_by_zero as (ps & H1 & H2 & _ & _ & H3).
    exists ps. repeat split; assumption.
Qed.

(** C2, as stated, fails: with 64 domains of two symbols the product of
    the sizes, [2^64], wraps to a [max_size] of 0; with 65 of them the
    first place value wraps to 0 as well; and where [unsigned long] has 32
    bits the first place value of 33 such domains, [2^32], is 0. *)
Lemma precompute_wraps :
  (exists ps,
      precompute 64 (binary 64) = Ok ps
      /\ prod_sizes (binary 64) = 2 ^ 64 /\ max_size ps = 0)
  /\ (exists ps,
        precompute 64 (binary 65) = Ok ps
        /\ prod_sizes (drop 1 (binary 65)) = 2 ^ 64
        /\ divs ps !! 0%nat = Some 0)
  /\ (exists ps,
        precompute 32 (binary 33) = Ok ps
        /\ prod_sizes (drop 1 (binary 33)) = 2 ^ 32
        /\ divs ps !! 0%nat = Some 0).
Proof.
  split; [split_eval|]. split; [split_eval|].
  destruct binary_33_division_by_zero as (ps & H1 & _ & H2 & H3 & _).
  exists ps. repeat split; assumption.
Qed.

(** C3. With [k = N = 2^64 - 1] the draws 1, 0, 0, .., as many as [k],
    are each within the bounds of their distribution and every call of
    [next] returns; the values returned are not increasing: the first
    is 2 and a later one is 0, the value [N + 1] of the last call, which
    an [unsigned long long] does not hold. *)
Theorem sampler_not_increasing :
  let k := 2 ^ 64 - 1 in
  let N := 2 ^ 64 - 1 in
  let os := 1 :: repeat 0 (S (Z.to_nat (2 ^ 64 - 3))) in
  0 <= k <= N
  /\ Z.of_nat (length os) = k
  /\ valid_draws os (RandomIterator_new k N) = true
  /\ exists vs it',
       nexts os (RandomIterator_new k N) = Ok (2 :: vs, it')
       /\ In 0 vs
       /\ ~ increasing (2 :: vs).
Proof.
  cbv zeta.
  assert (Z.of_nat (Z.to_nat (2 ^ 64 - 3)) = 2 ^ 64 - 3) as Hj
    by (apply Z2Nat.id; lia).
  generalize dependent (Z.to_nat (2 ^ 64 - 3)). intros j Hj.
  split; [lia|]. split.
  - cbn [length]. rewrite repeat_length. lia.
  - apply (sampler_wrap_run j). lia.
Qed.

(** C4. With [k = N = 1] the only range is [[0, 1]]; drawing 1 makes [next]
    return 2, above [N]. *)
Theorem sampler_exceeds_max :
  valid_draws [1] (RandomIterator_new 1 1) = true
  /\ nexts [1] (RandomIterator_new 1 1)
     = Ok ([2], {| n := 1; last_k := 2; num_left := 0 |}).
Proof. split_eval. Qed.

(** C5. In a space of three combinations, a sample of two with the draws
    0 and 2 visits the indices 1 and 4 and returns the same combination
    twice. *)
Theorem generate_samples_duplicate :
  valid_draws [0; 2] (RandomIterator_new 2 3) = true
  /\ nexts [0; 2] (RandomIterator_new 2 3)
     = Ok ([1; 4], {| n := 3; last_k := 4; num_left := 0 |})
  /\ generate_samples 64 abc 2 [0; 2] = Ok [["b"]; ["b"]]%string.
Proof. split_eval. Qed.

(** C6, as stated, fails: a domain that repeats a symbol makes the full
    sample list a combination twice; the full sample of 54 domains of two
    symbols lists a combination twice as well; with 64 of them [max_size]
    wraps to 0 and the full sample is empty; and where [unsigned long] has
    32 bits the full sample of 33 of them has no defined result. *)
Lemma generate_samples_full_fails :
  (compute_max_size twice_a = 2
   /\ generate_samples 64 twice_a 2 [] = Ok [["a"]; ["a"]]%string
   /\ ~ NoDup [["a"]; ["a"]]%string)
  /\ (compute_max_size (binary 54) = 2 ^ 54
      /\ exists l, generate_samples 64 (binary 54) (2 ^ 54) [] = Ok l
                   /\ ~ NoDup l)
  /\ (compute_max_size (binary 64) = 0
      /\ generate_samples 64 (binary 64) 0 [] = Ok []
      /\ is_combination (binary 64) (replicate 64 "a"%string))
  /\ (compute_max_size (binary 33) = 2 ^ 33
      /\ generate_samples 32 (binary 33) (2 ^ 33) []
         = Err undefined_behaviour).
Proof.
  split; [|split; [|split]].
  - split; [split_eval|]. split; [split_eval|].
    intros H. apply NoDup_cons in H as [H _]. apply H. constructor.
  - split; [split_eval|].
    destruct binary_54_collision as (ps & comb & Hps & Hmax & Ha & Hb).
    assert (binary 54 <> []) as Hne by discriminate.
    assert (fits 64 (binary 54)) as Hfit.
    { apply fits_of_total; [apply binary_nonempty | vm_compute; reflexivity]. }
    destruct (mapM_defined (fun i => entry_at_ps (binary 54) i ps)
                (fun i c => entry_at_ps (binary 54) i ps = Ok c)
                (indices (2 ^ 54))) as (l & Hl & Hall).
    { intros i Hi. apply (proj1 (In_indices _ _)) in Hi.
      destruct (entry_at_ps_defined 64 (binary 54) i ps Hne
                  (binary_nonempty 54) Hfit Hps ltac:(lia))
        as (_ & c & Hc & _).
      exists c. split; exact Hc. }
    exists l. split.
    + unfold generate_samples.
      change (size (binary 54) =? 0) with false. cbv iota.
      rewrite Hps. cbn [bind]. rewrite Hmax, Z.eqb_refl. cbn [negb].
      rewrite full_loop_mapM. exact Hl.
    + intros Hnd.
      destruct (Forall2_lookup_l _ _ _ _ _ Hall
                  (indices_lookup (2 ^ 54) (2 ^ 53) ltac:(lia)))
        as (c1 & Hc1 & Hf1).
      destruct (Forall2_lookup_l _ _ _ _ _ Hall
                  (indices_lookup (2 ^ 54) (2 ^ 53 + 1) ltac:(lia)))
        as (c2 & Hc2 & Hf2).
      assert (c1 = comb) as -> by congruence.
      assert (c2 = comb) as -> by congruence.
      pose proof (NoDup_lookup _ _ _ _ Hnd Hc1 Hc2) as Heq.
      apply Z2Nat.inj in Heq; lia.
  - split; [split_eval|]. split; [split_eval|].
    unfold is_combination, binary. apply Forall2_replicate. now left.
  - split; [split_eval|].
    destruct binary_33_division_by_zero as (ps & Hps & Hmax & _ & _ & H0).
    destruct (indices_first (2 ^ 33) ltac:(lia)) as (rest & Hrest).
    unfold generate_samples.
    change (size (binary 33) =? 0) with false. cbv iota.
    rewrite Hps. cbn [bind]. rewrite Hmax, Z.eqb_refl. cbn [negb].
    rewrite full_loop_mapM, Hrest. cbn [mapM]. rewrite H0. reflexivity.
Qed.

(** C7. A sample of two from a space of one, which [sample_size_valid]
    would tell invalid: the sampler is created, no
    [invalid_sample_size_error] is raised and two entries are returned. *)
Theorem generate_samples_oversized :
  compute_max_size single_a = 1
  /\ sample_size_valid 64 2 1 = false
  /\ RandomIterator_new 2 1 = {| n := 1; last_k := 0; num_left := 2 |}
  /\ valid_draws [0; 0] (RandomIterator_new 2 1) = true
  /\ generate_samples 64 single_a 2 [0; 0] = Ok [["a"]; ["a"]]%string.
Proof. split_eval. Qed.

(** C8, as stated, fails: an empty domain does not stop [precompute], which
    returns a space of size 0; and the error for an empty list is
    [empty_answers_error]. *)
Lemma precompute_accepts_empty_domain :
  precompute 64 a_and_empty
  = Ok {| divs := [0; 1]; mods := [1; 0]; max_size := 0 |}
  /\ precompute 64 [] = Err empty_answers_error.
Proof. split_eval. Qed.

(** C9, as stated, fails: with 64 non-empty domains of two symbols
    [max_size] wraps to 0 and index 0 is rejected; where [unsigned long]
    has 32 bits index 0 of 33 such domains passes the check and has no
    decoding; and in a space of [2^64 - 16] combinations the last index
    passes the check and has no decoding, its quotient being rounded to
    [2^64] by [floor]. *)
Lemma entry_at_rejects_zero :
  (domains_nonempty (binary 64)
   /\ entry_at 64 (binary 64) 0 = Err index_error)
  /\ (domains_nonempty (binary 33)
      /\ entry_at 32 (binary 33) 0 = Err undefined_behaviour)
  /\ (domains_nonempty just_below_2_64
      /\ prod_sizes just_below_2_64 = 2 ^ 64 - 16
      /\ compute_max_size just_below_2_64 = 2 ^ 64 - 16
      /\ entry_at 64 just_below_2_64 (2 ^ 64 - 16 - 1)
         = Err undefined_behaviour).
Proof.
  split; [|split]; (split; [|split_eval]).
  - apply binary_nonempty.
  - apply binary_nonempty.
  - repeat constructor; discriminate.
Qed.

(** C10, as stated, fails: in the space of three combinations the index
    [2^53 + 1] decodes to another combination than its remainder modulo 3,
    and the index [2^64 - 1024], whose quotient rounds to [2^64], has no
    defined decoding; nor has any index when the first place value wraps
    to 0, as with 65 domains of two symbols. *)
Lemma entry_at_ps_not_periodic :
  (exists ps,
      precompute 64 abc = Ok ps /\ max_size ps = 3
      /\ entry_at_ps abc (2 ^ 53 + 1) ps = Ok ["c"%string]
      /\ entry_at_ps abc ((2 ^ 53 + 1) mod 3) ps = Ok ["a"%string]
      /\ entry_at_ps abc (2 ^ 64 - 1024) ps = Err undefined_behaviour)
  /\ (domains_nonempty (binary 65)
      /\ exists ps,
           precompute 64 (binary 65) = Ok ps
           /\ entry_at_ps (binary 65) 0 ps = Err undefined_behaviour).
Proof.
  split; [split_eval|]. split; [apply binary_nonempty | split_eval].
Qed.

(** ** The theorems at work on the pizza menu *)

Lemma pizza_nonempty : domains_nonempty pizza.
Proof. repeat constructor; discriminate. Defined.

Lemma pizza_distinct : domains_distinct pizza.
Proof.
  repeat constructor;
    rewrite ?list_elem_of_singleton; try apply not_elem_of_nil; discriminate.
Defined.

Lemma pizza_small : small_space 64 pizza.
Proof. split; vm_compute; [discriminate | reflexivity]. Defined.

Lemma pizza_fits : fits 64 pizza.
Proof. repeat split; (vm_compute; reflexivity). Defined.

Lemma precompute_place_values_pizza :
  pizza <> [] /\ fits 64 pizza
  /\ exists ps,
       precompute 64 pizza = Ok ps
       /\ mods ps = map size pizza
       /\ (forall i, (i < length pizza)%nat ->
                  divs ps !! i = Some (prod_sizes (drop (S i) pizza)))
       /\ divs ps !! (length pizza - 1)%nat = Some 1
       /\ max_size ps = prod_sizes pizza
       /\ compute_max_size pizza = prod_sizes pizza
       /\ exists d0 m0, divs ps !! 0%nat = Some d0 /\ mods ps !! 0%nat = Some m0
                        /\ max_size ps = d0 * m0.
Proof.
  assert (pizza <> []) as H1 by discriminate.
  exact (conj H1 (conj pizza_fits
           (precompute_place_values 64 pizza H1 pizza_fits))).
Defined.

Lemma precompute_failure_a_and_empty :
  a_and_empty <> [] /\ In [] a_and_empty
  /\ (precompute 64 [] = Err empty_answers_error /\ compute_max_size [] = 1)
  /\ exists ps,
       precompute 64 a_and_empty = Ok ps
       /\ mods ps = map size a_and_empty
       /\ max_size ps = 0
       /\ forall index, entry_at 64 a_and_empty index = Err index_error.
Proof.
  assert (a_and_empty <> []) as H1 by discriminate.
  assert (In [] a_and_empty) as H2 by (right; left; reflexivity).
  split; [exact H1|]. split; [exact H2|].
  split; [exact (proj1 (precompute_failure 64 []) eq_refl)|].
  destruct (proj2 (precompute_failure 64 a_and_empty) H1)
    as (ps & Hps & Hm & Hempty).
  exists ps. split; [exact Hps|]. split; [exact Hm|]. exact (Hempty H2).
Defined.

Lemma entry_at_range_pizza :
  pizza <> [] /\ domains_nonempty pizza
  /\ prod_sizes pizza < native_limit 64 /\ prod_sizes pizza <= 2 ^ 64 - 1024
  /\ (forall index,
         entry_at 64 pizza index = Err index_error
         <-> (index < 0 \/ compute_max_size pizza <= index))
  /\ compute_max_size pizza = prod_sizes pizza
  /\ (exists comb, entry_at 64 pizza 0 = Ok comb)
  /\ (exists comb, entry_at 64 pizza (prod_sizes pizza - 1) = Ok comb).
Proof.
  assert (pizza <> []) as H1 by discriminate.
  assert (prod_sizes pizza < native_limit 64) as H2
    by (vm_compute; reflexivity).
  assert (prod_sizes pizza <= 2 ^ 64 - 1024) as H3
    by (vm_compute; discriminate).
  split; [exact H1|]. split; [exact pizza_nonempty|].
  split; [exact H2|]. split; [exact H3|].
  destruct (entry_at_range 64 pizza H1) as [Hiff Hin].
  split; [exact Hiff|]. exact (Hin pizza_nonempty H2 H3).
Defined.

Lemma entry_at_bijection_pizza :
  pizza <> [] /\ domains_nonempty pizza /\ domains_distinct pizza
  /\ small_space 64 pizza
  /\ exists ps,
       precompute 64 pizza = Ok ps
       /\ max_size ps = prod_sizes pizza
       /\ (forall i, 0 <= i < max_size ps ->
             exists comb,
               entry_at_ps pizza i ps = Ok comb /\ is_combination pizza comb)
       /\ (forall i j, 0 <= i < max_size ps -> 0 <= j < max_size ps ->
             entry_at_ps pizza i ps = entry_at_ps pizza j ps -> i = j)
       /\ (forall comb, is_combination pizza comb ->
             exists i, 0 <= i < max_size ps
                       /\ entry_at_ps pizza i ps = Ok comb
                       /\ forall j, 0 <= j < max_size ps ->
                                    entry_at_ps pizza j ps = Ok comb -> j = i).
Proof.
  assert (pizza <> []) as H1 by discriminate.
  exact (conj H1 (conj pizza_nonempty (conj pizza_distinct (conj pizza_small
           (entry_at_bijection 64 pizza H1 pizza_nonempty pizza_distinct
              pizza_small))))).
Defined.

Lemma entry_at_ps_periodic_pizza :
  pizza <> [] /\ domains_nonempty pizza
  /\ prod_sizes pizza < native_limit 64 /\ 0 <= 7 < 2 ^ 64 - 1024
  /\ exists ps,
       precompute 64 pizza = Ok ps
       /\ max_size ps = prod_sizes pizza
       /\ (forall i c, pizza !! i = Some c ->
             exists dv md d,
               divs ps !! i = Some dv /\ mods ps !! i = Some md
               /\ digit 7 dv md = Ok d /\ 0 <= d < size c)
       /\ (exists comb,
             entry_at_ps pizza 7 ps = Ok comb /\ is_combination pizza comb)
       /\ (7 < 2 ^ 53 ->
           entry_at_ps pizza (7 mod max_size ps) ps = entry_at_ps pizza 7 ps).
Proof.
  assert (pizza <> []) as H1 by discriminate.
  assert (prod_sizes pizza < native_limit 64) as H2
    by (vm_compute; reflexivity).
  assert (0 <= 7 < 2 ^ 64 - 1024) as H3 by lia.
  exact (conj H1 (conj pizza_nonempty (conj H2 (conj H3
           (entry_at_ps_periodic 64 pizza 7 H1 pizza_nonempty H2 H3))))).
Defined.

Lemma generate_samples_full_pizza :
  pizza <> [] /\ domains_nonempty pizza /\ domains_distinct pizza
  /\ small_space 64 pizza
  /\ exists ps l,
       precompute 64 pizza = Ok ps
       /\ max_size ps = prod_sizes pizza
       /\ generate_samples 64 pizza (max_size ps) [] = Ok l
       /\ mapM (fun i => entry_at_ps pizza i ps) (indices (max_size ps)) = Ok l
       /\ NoDup l
       /\ forall comb, In comb l <-> is_combination pizza comb.
Proof.
  assert (pizza <> []) as H1 by discriminate.
  exact (conj H1 (conj pizza_nonempty (conj pizza_distinct (conj pizza_small
           (generate_samples_full 64 pizza [] H1 pizza_nonempty pizza_distinct
              pizza_small))))).
Defined.

(** ** The further properties at work *)

Lemma pizza_addressable : addressable pizza.
Proof. repeat constructor; (vm_compute; discriminate). Defined.

Lemma pizza_below_2_1024 : prod_sizes pizza < 2 ^ 1024.
Proof. vm_compute. reflexivity. Defined.

Lemma compute_max_size_modular_pizza :
  Permutation pizza (rev pizza)
  /\ compute_max_size pizza = prod_sizes pizza mod 2 ^ 64
  /\ compute_max_size (pizza ++ rev pizza)
     = (compute_max_size pizza * compute_max_size (rev pizza)) mod 2 ^ 64
  /\ compute_max_size (rev pizza) = compute_max_size pizza.
Proof.
  pose proof (Permutation_rev pizza) as H.
  destruct (compute_max_size_modular pizza (rev pizza)) as (H1 & H2 & H3).
  exact (conj H (conj H1 (conj H2 (H3 H)))).
Defined.

Lemma precompute_modular_binary_33 :
  0 < 32 <= 64 /\ binary 33 <> []
  /\ exists ps,
       precompute 32 (binary 33) = Ok ps
       /\ length (divs ps) = 33%nat
       /\ divs ps !! 0%nat = Some 0
       /\ divs ps !! 1%nat = Some (2 ^ 31)
       /\ mods ps !! 0%nat = Some 2
       /\ max_size ps = 2 ^ 33.
Proof.
  assert (0 < 32 <= 64) as H1 by lia.
  assert (binary 33 <> []) as H2 by discriminate.
  split; [exact H1|]. split; [exact H2|].
  destruct (precompute_modular 32 (binary 33) H1 H2)
    as (ps & Hps & Hl & _ & Hall & Hmax).
  exists ps. split; [exact Hps|]. split; [exact Hl|].
  destruct (Hall 0%nat ["a"; "b"]%string eq_refl) as [Hd0 Hm0].
  destruct (Hall 1%nat ["a"; "b"]%string eq_refl) as [Hd1 _].
  split; [exact Hd0|]. split; [exact Hd1|]. split; [exact Hm0|]. exact Hmax.
Defined.

Lemma entry_at_first_last_pizza :
  pizza <> [] /\ domains_nonempty pizza /\ small_space 64 pizza
  /\ entry_at 64 pizza 0 = Ok ["Thin"; "Marinara"]%string
  /\ entry_at 64 pizza 3 = Ok ["Thick"; "BBQ"]%string.
Proof.
  assert (pizza <> []) as H1 by discriminate.
  exact (conj H1 (conj pizza_nonempty (conj pizza_small
           (entry_at_first_last 64 pizza H1 pizza_nonempty pizza_small)))).
Defined.

Lemma entry_at_cons_pizza :
  [["Marinara"; "BBQ"]]%string <> []
  /\ 0 <= 1 < size ["Thin"; "Thick"]%string
  /\ 0 <= 0 < compute_max_size [["Marinara"; "BBQ"]]%string
  /\ exists s comb,
       subscript ["Thin"; "Thick"]%string 1 = Ok s
       /\ entry_at 64 [["Marinara"; "BBQ"]]%string 0 = Ok comb
       /\ entry_at 64 pizza 2 = Ok (s :: comb).
Proof.
  assert ([["Marinara"; "BBQ"]]%string <> []) as H1 by discriminate.
  assert (0 <= 1 < size ["Thin"; "Thick"]%string) as H2
    by (vm_compute; split; discriminate || reflexivity).
  assert (0 <= 0 < compute_max_size [["Marinara"; "BBQ"]]%string) as H3
    by (vm_compute; split; discriminate || reflexivity).
  exact (conj H1 (conj H2 (conj H3
           (entry_at_cons 64 ["Thin"; "Thick"]%string
              [["Marinara"; "BBQ"]]%string 1 0
              H1 pizza_nonempty pizza_small H2 H3)))).
Defined.

Lemma nexts_prefix_1_of_3 :
  sampler_inv (RandomIterator_new 3 10)
  /\ Z.of_nat (length [2]) <= num_left (RandomIterator_new 3 10)
  /\ valid_draws [2] (RandomIterator_new 3 10) = true
  /\ exists vs it',
       nexts [2] (RandomIterator_new 3 10) = Ok (vs, it')
       /\ increasing vs
       /\ num_left it' = 3 - 1
       /\ Forall (fun v => 0 < v <= 10 + 1 - num_left it') vs
       /\ has_next it' = true
       /\ sampler_inv it'.
Proof.
  assert (sampler_inv (RandomIterator_new 3 10)) as H1
    by (unfold sampler_inv; simpl; lia).
  assert (Z.of_nat (length [2]) <= num_left (RandomIterator_new 3 10)) as H2
    by (simpl; lia).
  assert (valid_draws [2] (RandomIterator_new 3 10) = true) as H3
    by reflexivity.
  split; [exact H1|]. split; [exact H2|]. split; [exact H3|].
  destruct (nexts_prefix [2] (RandomIterator_new 3 10) H1 H2 H3)
    as (vs & it' & Hrun & _ & Hinc & _ & Hleft & Hall & Hhas & Hinv).
  exists vs, it'. split; [exact Hrun|]. split; [exact Hinc|].
  split; [exact Hleft|]. split; [exact Hall|]. split; [exact Hhas|].
  exact Hinv.
Defined.

Lemma generate_samples_zero_a_and_empty :
  a_and_empty <> []
  /\ generate_samples 64 a_and_empty 0 [] = Ok []
  /\ generate_samples 64 pizza 0 [] = Ok [].
Proof.
  assert (a_and_empty <> []) as H1 by discriminate.
  assert (pizza <> []) as H2 by discriminate.
  exact (conj H1 (conj (generate_samples_zero 64 a_and_empty [] H1)
                       (generate_samples_zero 64 pizza [] H2))).
Defined.

Lemma generate_samples_full_entry_at_pizza :
  pizza <> []
  /\ generate_samples 64 pizza (compute_max_size pizza) []
     = (if vector_max_size <? compute_max_size pizza then Err length_error
        else mapM (entry_at 64 pizza) (indices (compute_max_size pizza)))
  /\ generate_samples 64 (binary 60) (compute_max_size (binary 60)) []
     = Err length_error.
Proof.
  assert (pizza <> []) as H1 by discriminate.
  assert (binary 60 <> []) as H2 by discriminate.
  split; [exact H1|].
  split; [exact (generate_samples_full_entry_at 64 pizza [] H1)|].
  exact (generate_samples_full_entry_at 64 (binary 60) [] H2).
Defined.

Lemma generate_samples_entries_pizza :
  pizza <> [] /\ domains_nonempty pizza
  /\ prod_sizes pizza < 2 ^ 64 /\ prod_sizes pizza < 2 ^ 53 - 1
  /\ 0 <= 2 < prod_sizes pizza
  /\ length [1; 1] = Z.to_nat 2
  /\ valid_draws [1; 1] (RandomIterator_new 2 (compute_max_size pizza)) = true
  /\ exists vs it' l,
       nexts [1; 1] (RandomIterator_new 2 (compute_max_size pizza))
       = Ok (vs, it')
       /\ increasing vs
       /\ Forall (fun v => 1 <= v <= compute_max_size pizza + 1) vs
       /\ generate_samples 64 pizza 2 [1; 1] = Ok l
       /\ length l = Z.to_nat 2
       /\ Forall2 (fun v comb =>
                     entry_at 64 pizza (v mod compute_max_size pizza) = Ok comb
                     /\ is_combination pizza comb) vs l.
Proof.
  assert (pizza <> []) as H1 by discriminate.
  assert (prod_sizes pizza < 2 ^ 64) as H2 by (vm_compute; reflexivity).
  assert (prod_sizes pizza < 2 ^ 53 - 1) as H3 by (vm_compute; reflexivity).
  assert (0 <= 2 < prod_sizes pizza) as H4
    by (vm_compute; split; discriminate || reflexivity).
  assert (length [1; 1] = Z.to_nat 2) as H5 by reflexivity.
  assert (valid_draws [1; 1] (RandomIterator_new 2 (compute_max_size pizza))
          = true) as H6 by reflexivity.
  exact (conj H1 (conj pizza_nonempty (conj H2 (conj H3 (conj H4 (conj H5
           (conj H6
              (generate_samples_entries 64 pizza 2 [1; 1]
                 H1 pizza_nonempty H2 H3 H4 H5 H6)))))))).
Defined.

Lemma distinct_0_3 : NoDup [0; 3].
Proof.
  apply NoDup_cons. split; [|apply NoDup_singleton].
  rewrite list_elem_of_singleton. discriminate.
Defined.

Lemma drawn_0_3 (d : Z) : In d [0; 3] -> In d [3; 3; 0].
Proof. simpl. intuition. Defined.

Lemma generate_random_indices_distinct_2_of_4 :
  0 <= 2 <= 4 /\ 4 < 2 ^ 64
  /\ forallb (valid_index_draw 4) [3; 3; 0] = true
  /\ NoDup [0; 3] /\ (forall d, In d [0; 3] -> In d [3; 3; 0])
  /\ 2 <= size [0; 3]
  /\ exists l,
       generate_random_indices 2 4 [3; 3; 0] = Ok l
       /\ length l = Z.to_nat 2
       /\ increasing l
       /\ NoDup l
       /\ Forall (fun i => 0 <= i < 4 /\ In i [3; 3; 0]) l.
Proof.
  assert (0 <= 2 <= 4) as H1 by lia.
  assert (4 < 2 ^ 64) as H2 by lia.
  assert (forallb (valid_index_draw 4) [3; 3; 0] = true) as H3 by reflexivity.
  assert (2 <= size [0; 3]) as H4 by (vm_compute; discriminate).
  exact (conj H1 (conj H2 (conj H3 (conj distinct_0_3 (conj drawn_0_3
           (conj H4
              (generate_random_indices_distinct 2 4 [3; 3; 0] [0; 3]
                 H1 H2 H3 distinct_0_3 drawn_0_3 H4))))))).
Defined.

Lemma sample_size_rejected_1_3_single_a :
  single_a <> []
  /\ compute_max_size single_a < 2
  /\ generate_random_indices 2 1 [0; 0] = Err invalid_sample_size_error
  /\ generate_samples_1_3 64 single_a 2 [0; 0]
     = Err invalid_sample_size_error.
Proof.
  assert (single_a <> []) as H1 by discriminate.
  assert (compute_max_size single_a < 2) as H2 by (vm_compute; reflexivity).
  assert (1 < 2) as H3 by lia.
  destruct (sample_size_rejected_1_3 64 single_a 2 1 [0; 0]) as [Hi Hs].
  exact (conj H1 (conj H2 (conj (proj2 Hi H3) (proj2 (Hs H1) H2)))).
Defined.

Lemma generate_samples_1_3_distinct_pizza :
  pizza <> [] /\ domains_nonempty pizza /\ domains_distinct pizza
  /\ small_space 64 pizza
  /\ 0 <= 2 < compute_max_size pizza
  /\ forallb (valid_index_draw (compute_max_size pizza)) [3; 3; 0] = true
  /\ 2 <= size [0; 3]
  /\ exists idxs l,
       generate_random_indices 2 (compute_max_size pizza) [3; 3; 0] = Ok idxs
       /\ increasing idxs
       /\ generate_samples_1_3 64 pizza 2 [3; 3; 0] = Ok l
       /\ length l = Z.to_nat 2
       /\ NoDup l
       /\ Forall2 (fun i comb => 0 <= i < compute_max_size pizza
                                 /\ entry_at 64 pizza i = Ok comb
                                 /\ is_combination pizza comb) idxs l.
Proof.
  assert (pizza <> []) as H1 by discriminate.
  assert (0 <= 2 < compute_max_size pizza) as H2
    by (vm_compute; split; discriminate || reflexivity).
  assert (forallb (valid_index_draw (compute_max_size pizza)) [3; 3; 0]
          = true) as H3 by reflexivity.
  assert (2 <= size [0; 3]) as H4 by (vm_compute; discriminate).
  exact (conj H1 (conj pizza_nonempty (conj pizza_distinct (conj pizza_small
           (conj H2 (conj H3 (conj H4
              (generate_samples_1_3_distinct 64 pizza 2 [3; 3; 0] [0; 3]
                 H1 pizza_nonempty pizza_distinct pizza_small H2 H3
                 distinct_0_3 drawn_0_3 H4)))))))).
Defined.

Lemma boost_precompute_modular_pizza :
  pizza <> []
  /\ exists ps,
       Boost.boost_precompute pizza = Boost.Done ps
       /\ length (divs ps) = length pizza
       /\ length (mods ps) = length pizza
       /\ (forall i c, pizza !! i = Some c ->
             divs ps !! i = Some (prod_sizes (drop (S i) pizza) mod 2 ^ 1024)
             /\ mods ps !! i = Some (size c))
       /\ max_size ps = Boost.boost_compute_max_size pizza
       /\ Boost.boost_compute_max_size pizza = prod_sizes pizza mod 2 ^ 1024.
Proof.
  assert (pizza <> []) as H1 by discriminate.
  exact (conj H1 (boost_precompute_modular pizza H1)).
Defined.

Lemma boost_entry_at_ps_periodic_pizza :
  pizza <> [] /\ domains_nonempty pizza /\ addressable pizza
  /\ prod_sizes pizza < 2 ^ 1024 /\ 0 <= 2 ^ 100 + 3
  /\ exists ps comb,
       Boost.boost_precompute pizza = Boost.Done ps
       /\ max_size ps = prod_sizes pizza
       /\ Boost.boost_entry_at_ps pizza (2 ^ 100 + 3) ps = Boost.Done comb
       /\ is_combination pizza comb
       /\ Boost.boost_entry_at_ps pizza ((2 ^ 100 + 3) mod max_size ps) ps
          = Boost.Done comb.
Proof.
  assert (pizza <> []) as H1 by discriminate.
  assert (0 <= 2 ^ 100 + 3) as H2 by lia.
  exact (conj H1 (conj pizza_nonempty (conj pizza_addressable
           (conj pizza_below_2_1024 (conj H2
              (boost_entry_at_ps_periodic pizza (2 ^ 100 + 3) H1
                 pizza_nonempty pizza_addressable pizza_below_2_1024 H2)))))).
Defined.

Lemma boost_entry_at_bijection_pizza :
  pizza <> [] /\ domains_nonempty pizza /\ domains_distinct pizza
  /\ addressable pizza /\ prod_sizes pizza < 2 ^ 1024
  /\ exists ps,
       Boost.boost_precompute pizza = Boost.Done ps
       /\ max_size ps = prod_sizes pizza
       /\ (forall i j, 0 <= i < max_size ps -> 0 <= j < max_size ps ->
             Boost.boost_entry_at_ps pizza i ps
             = Boost.boost_entry_at_ps pizza j ps -> i = j)
       /\ (forall comb, is_combination pizza comb ->
             exists i, 0 <= i < max_size ps
                       /\ Boost.boost_entry_at_ps pizza i ps = Boost.Done comb
                       /\ forall j, 0 <= j < max_size ps ->
                            Boost.boost_entry_at_ps pizza j ps
                            = Boost.Done comb -> j = i).
Proof.
  assert (pizza <> []) as H1 by discriminate.
  exact (conj H1 (conj pizza_nonempty (conj pizza_distinct
           (conj pizza_addressable (conj pizza_below_2_1024
              (boost_entry_at_bijection pizza H1 pizza_nonempty
                 pizza_distinct pizza_addressable pizza_below_2_1024)))))).
Defined.

Lemma boost_entry_at_outcome_pizza :
  pizza <> [] /\ domains_nonempty pizza /\ addressable pizza
  /\ prod_sizes pizza < 2 ^ 1024
  /\ Boost.boost_entry_at read_digit pizza "3"
     = Boost.Done ["Thick"; "BBQ"]%string
  /\ Boost.boost_entry_at read_digit pizza "4"
     = Boost.Fail (Boost.common index_error)
  /\ Boost.boost_entry_at read_digit pizza "three"
     = Boost.Fail Boost.runtime_error.
Proof.
  assert (pizza <> []) as H1 by discriminate.
  split; [exact H1|]. split; [exact pizza_nonempty|].
  split; [exact pizza_addressable|]. split; [exact pizza_below_2_1024|].
  split; [|split].
  - exact (proj2 (boost_entry_at_outcome read_digit pizza "3") H1
             pizza_nonempty pizza_addressable pizza_below_2_1024).
  - exact (proj2 (boost_entry_at_outcome read_digit pizza "4") H1
             pizza_nonempty pizza_addressable pizza_below_2_1024).
  - exact (proj2 (boost_entry_at_outcome read_digit pizza "three") H1
             pizza_nonempty pizza_addressable pizza_below_2_1024).
Defined.

Lemma boost_entry_at_agrees_pizza :
  pizza <> [] /\ domains_nonempty pizza /\ small_space 64 pizza
  /\ read_digit "3" = Some 3 /\ 0 <= 3 < 2 ^ 1024
  /\ Boost.boost_entry_at read_digit pizza "3"
     = Boost.of_native (entry_at 64 pizza 3).
Proof.
  assert (pizza <> []) as H1 by discriminate.
  assert (read_digit "3" = Some 3) as H2 by reflexivity.
  assert (0 <= 3 < 2 ^ 1024) as H3 by lia.
  exact (conj H1 (conj pizza_nonempty (conj pizza_small (conj H2 (conj H3
           (boost_entry_at_agrees 64 read_digit pizza "3" 3
              H1 pizza_nonempty pizza_small H2 H3)))))).
Defined.

Lemma boost_sampler_draws_2_of_3 :
  0 <= 2 <= 3 /\ 3 < 2 ^ 1024 - 1
  /\ length [0; 2] = Z.to_nat 2
  /\ Boost.valid_draws [0; 2] (Boost.RandomIterator_new 2 3) = true
  /\ exists vs it',
       Boost.nexts [0; 2] (Boost.RandomIterator_new 2 3) = Boost.Done (vs, it')
       /\ length vs = Z.to_nat 2
       /\ increasing vs
       /\ NoDup vs
       /\ Forall (fun v => 1 <= v <= 3 + 1) vs
       /\ Boost.has_next it' = false
       /\ forall o, Boost.next o it' = Boost.Fail (Boost.common out_of_range).
Proof.
  assert (0 <= 2 <= 3) as H1 by lia.
  assert (3 < 2 ^ 1024 - 1) as H2 by lia.
  assert (length [0; 2] = Z.to_nat 2) as H3 by reflexivity.
  assert (Boost.valid_draws [0; 2] (Boost.RandomIterator_new 2 3) = true)
    as H4 by (vm_compute; reflexivity).
  exact (conj H1 (conj H2 (conj H3 (conj H4
           (boost_sampler_draws 2 3 [0; 2] H1 H2 H3 H4))))).
Defined.

Lemma boost_generate_samples_full_pizza :
  read_digit "4" = Some (prod_sizes pizza)
  /\ Boost.boost_generate_samples read_digit pizza "four" []
     = Boost.Fail Boost.runtime_error
  /\ Boost.boost_generate_samples read_digit [] "4" []
     = Boost.Fail (Boost.common empty_list_error)
  /\ exists l,
       Boost.boost_generate_samples read_digit pizza "4" [] = Boost.Done l
       /\ l = map (decode_spec pizza) (indices (prod_sizes pizza))
       /\ NoDup l
       /\ forall comb, In comb l <-> is_combination pizza comb.
Proof.
  assert (pizza <> []) as H1 by discriminate.
  assert (read_digit "4" = Some (prod_sizes pizza)) as H2 by reflexivity.
  assert (read_digit "4" <> None) as H3 by discriminate.
  split; [exact H2|]. split; [|split].
  - exact (proj1 (boost_generate_samples_full read_digit pizza "four" [])
             eq_refl).
  - exact (proj1 (proj2 (boost_generate_samples_full read_digit pizza "4" []))
             H3).
  - exact (proj2 (proj2 (boost_generate_samples_full read_digit pizza "4" []))
             H1 pizza_nonempty pizza_distinct pizza_addressable
             pizza_below_2_1024 H2).
Defined.

Lemma boost_generate_samples_entries_pizza :
  pizza <> [] /\ domains_nonempty pizza /\ addressable pizza
  /\ prod_sizes pizza < 2 ^ 1024 - 1
  /\ read_digit "2" = Some 2 /\ 0 <= 2 < prod_sizes pizza
  /\ length [1; 1] = Z.to_nat 2
  /\ Boost.valid_draws [1; 1] (Boost.RandomIterator_new 2 (prod_sizes pizza))
     = true
  /\ exists vs it',
       Boost.nexts [1; 1] (Boost.RandomIterator_new 2 (prod_sizes pizza))
       = Boost.Done (vs, it')
       /\ length vs = Z.to_nat 2
       /\ increasing vs
       /\ Forall (fun v => 1 <= v <= prod_sizes pizza + 1) vs
       /\ Boost.boost_generate_samples read_digit pizza "2" [1; 1]
          = Boost.Done
              (map (fun v => decode_spec pizza (v mod prod_sizes pizza)) vs).
Proof.
  assert (pizza <> []) as H1 by discriminate.
  assert (prod_sizes pizza < 2 ^ 1024 - 1) as H2 by (vm_compute; reflexivity).
  assert (read_digit "2" = Some 2) as H3 by reflexivity.
  assert (0 <= 2 < prod_sizes pizza) as H4
    by (vm_compute; split; discriminate || reflexivity).
  assert (length [1; 1] = Z.to_nat 2) as H5 by reflexivity.
  assert (Boost.valid_draws [1; 1]
            (Boost.RandomIterator_new 2 (prod_sizes pizza)) = true) as H6
    by (vm_compute; reflexivity).
  exact (conj H1 (conj pizza_nonempty (conj pizza_addressable (conj H2
           (conj H3 (conj H4 (conj H5 (conj H6
              (boost_generate_samples_entries read_digit pizza "2" 2 [1; 1]
                 H1 pizza_nonempty pizza_addressable H2 H3 H4 H5 H6))))))))).
Defined.

Lemma entry_at_1_1_accepts_max_size_pizza :
  0 < 64 /\ pizza <> [] /\ domains_nonempty pizza
  /\ prod_sizes pizza < 2 ^ (64 - 1)
  /\ compute_max_size_1_1 64 pizza = 4
  /\ entry_at_1_1 64 pizza 4 = Ok ["Thin"; "Marinara"]%string
  /\ entry_at_1_1 64 pizza 0 = Ok ["Thin"; "Marinara"]%string
  /\ (entry_at_1_1 64 pizza 5 = Err index_error
      <-> (5 < 0 \/ compute_max_size_1_1 64 pizza < 5)).
Proof.
  assert (0 < 64) as H1 by lia.
  assert (pizza <> []) as H2 by discriminate.
  assert (prod_sizes pizza < 2 ^ (64 - 1)) as H3 by (vm_compute; reflexivity).
  split; [exact H1|]. split; [exact H2|]. split; [exact pizza_nonempty|].
  split; [exact H3|].
  destruct (entry_at_1_1_accepts_max_size 64 pizza H1 H2 pizza_nonempty H3)
    as (Hm & Hiff & Hmax & H0 & _).
  split; [exact Hm|]. split; [exact Hmax|]. split; [exact H0|].
  exact (Hiff 5).
Defined.

Lemma results_are_combinations_pizza :
  entry_at 64 pizza 3 = Ok ["Thick"; "BBQ"]%string
  /\ generate_samples 64 pizza 2 [0; 3]
     = Ok [["Thin"; "BBQ"]; ["Thin"; "BBQ"]]%string
  /\ (is_combination pizza ["Thick"; "BBQ"]%string
      /\ 0 <= 3 < compute_max_size pizza)
  /\ Forall (is_combination pizza) [["Thin"; "BBQ"]; ["Thin"; "BBQ"]]%string.
Proof.
  assert (entry_at 64 pizza 3 = Ok ["Thick"; "BBQ"]%string) as H1
    by (vm_compute; reflexivity).
  assert (generate_samples 64 pizza 2 [0; 3]
          = Ok [["Thin"; "BBQ"]; ["Thin"; "BBQ"]]%string) as H2
    by (vm_compute; reflexivity).
  destruct (results_are_combinations 64 pizza) as [He Hg].
  exact (conj H1 (conj H2 (conj (He 3 _ H1) (Hg 2 [0; 3] _ H2)))).
Defined.
